(** * HeadlessEx: the headless authoritative simulation core and its room glue

    A shallow embedding of the parts of the server, and of its client, that
    the specification's testable properties talk about, in the order of the
    file:

    - [Engine._mainloop] (src/server/HeadlessEx/Engine.ts), the
      fixed-timestep catch-up loop, over exact rationals in module
      [EngineLoop] and over binary64 numbers in module [EngineLoop64];
    - the actors of src/server/Actor/ClientActor.ts;
    - [Scene._initialize], [Scene._activate], [Scene._deactivate]
      (src/server/HeadlessEx/Scene.ts) and the [Director]
      (src/server/HeadlessEx/Director/Director.ts), over the state [Stage];
    - the room glue of src/server/server.ts ([updateEntities],
      [MainScene.onPreUpdate], [unsubscribeUser], [onMessage]) together with
      [Scene.update] and [Engine._update], over the state [Server];
    - further parts of the engine ([Director.getDeferredScene],
      [Engine.add], the timers of a scene), the local actor of the client
      (src/client/src/Actors/networkActor.ts) and the Hathora client
      (src/client/src/Lib/HathoraPlugin.ts).

    The definitions come first, the properties after them.

    Conventions.  Pixel coordinates are modelled as [Z] (the code only adds
    and subtracts integers far below 2^53).  Milliseconds are modelled
    twice: as exact rationals [Q], and as binary64 numbers with their
    rounding, on which the accounting of the lag is verified.  Mutable
    objects are threaded
    through a state-and-exception monad.  An [async] method is run to
    completion at its call: every [await] is sequenced in place, so
    interleavings of two navigations in flight are not modelled.  The
    scene registry, a plain object used as a dictionary, is modelled by
    its own properties together with what it inherits from
    [Object.prototype]. *)

From Stdlib Require Import ZArith QArith Qround Qpower Lqa Lia Ascii.
From Stdlib Require Floats.
From stdpp Require Import gmap strings list fin_maps.

Open Scope string_scope.

(** ** Outcomes and the state-and-exception monad *)

Inductive Error :=
| TypeError (msg : string)
| JsError (msg : string).

Inductive outcome (A : Type) :=
| Ret (a : A)
| Throw (e : Error).
Arguments Ret {A} a.
Arguments Throw {A} e.

Definition M (S A : Type) : Type := S -> outcome A * S.

Definition ret {S A} (a : A) : M S A := fun s => (Ret a, s).
Definition throw {S A} (e : Error) : M S A := fun s => (Throw e, s).
Definition bind {S A B} (m : M S A) (k : A -> M S B) : M S B :=
  fun s => match m s with
           | (Ret a, s') => k a s'
           | (Throw e, s') => (Throw e, s')
           end.
Definition get {S} : M S S := fun s => (Ret s, s).
Definition gets {S A} (f : S -> A) : M S A := fun s => (Ret (f s), s).
Definition modify {S} (f : S -> S) : M S unit := fun s => (Ret tt, f s).

Declare Scope monad_scope.
Delimit Scope monad_scope with monad.
Notation "'let!' x ':=' m 'in' k" := (bind m (fun x => k))
  (at level 10, x name, m at level 100, k at level 200) : monad_scope.
Notation "m ';;' k" := (bind m (fun _ => k))
  (at level 100, k at level 200, right associativity) : monad_scope.
Open Scope monad_scope.

(** [try { m } catch (e) { h; throw e }]: the handler runs on the state the
    body left behind and the exception is raised again. *)
Definition try_rethrow {S A} (m : M S A) (h : M S unit) : M S A :=
  fun s => match m s with
           | (Ret a, s') => (Ret a, s')
           | (Throw e, s') => (Throw e, snd (h s'))
           end.

(** [for (const x of xs) body(x)] *)
Fixpoint for_each {S A} (xs : list A) (body : A -> M S unit) : M S unit :=
  match xs with
  | [] => ret tt
  | x :: xs' => bind (body x) (fun _ => for_each xs' body)
  end.

(** ** Engine._mainloop *)

(** The loop over exact rationals: what it does when no arithmetic
    operation rounds.  [EngineLoop64] below is the loop on the numbers
    JavaScript computes with. *)
Module EngineLoop.

Local Open Scope Q_scope.

Section Mainloop.
(** Everything [_update] can reach: the director, the scenes, the rooms. *)
Context {W : Type}.
(** [Engine._update(elapsed)]; it may throw. *)
Variable _update : Q -> M W unit.

Record Engine := mkEngine {
  fixedUpdateTimestep : option Q;   (* [None]: undefined *)
  _timescale : Q;
  _lagMs : Q;
  currentFrameElapsedMs : Q;
  currentFrameLagMs : Q;
  updateCalls : list Q;             (* ghost: argument of every [_update] call so far *)
  world : W
}.

Definition set_lag (l : Q) (e : Engine) : Engine :=
  mkEngine (fixedUpdateTimestep e) (_timescale e) l
           (currentFrameElapsedMs e) (currentFrameLagMs e) (updateCalls e) (world e).
Definition set_frameElapsed (x : Q) (e : Engine) : Engine :=
  mkEngine (fixedUpdateTimestep e) (_timescale e) (_lagMs e)
           x (currentFrameLagMs e) (updateCalls e) (world e).
Definition set_frameLag (x : Q) (e : Engine) : Engine :=
  mkEngine (fixedUpdateTimestep e) (_timescale e) (_lagMs e)
           (currentFrameElapsedMs e) x (updateCalls e) (world e).

(** [this._update(elapsed)] seen from the loop: the call is recorded and
    the world is handed to [_update]. *)
Definition call_update (elapsed : Q) : M Engine unit :=
  fun e =>
    let e1 := mkEngine (fixedUpdateTimestep e) (_timescale e) (_lagMs e)
                       (currentFrameElapsedMs e) (currentFrameLagMs e)
                       (updateCalls e ++ [elapsed]) (world e) in
    let '(r, w') := _update elapsed (world e) in
    (r, mkEngine (fixedUpdateTimestep e1) (_timescale e1) (_lagMs e1)
                 (currentFrameElapsedMs e1) (currentFrameLagMs e1)
                 (updateCalls e1) w').

(** [while (this._lagMs >= fixedTimestepMs) { this._update(fixedTimestepMs);
    this._lagMs -= fixedTimestepMs; }].  The loop need not terminate (a
    negative timestep only grows the lag), so it runs on fuel; [None] is
    fuel exhaustion. *)
Fixpoint catchUp (fuel : nat) (fixedTimestepMs : Q) (e : Engine)
  : option (outcome unit * Engine) :=
  match fuel with
  | O => None
  | S fuel' =>
      if Qle_bool fixedTimestepMs (_lagMs e) then
        match call_update fixedTimestepMs e with
        | (Ret _, e1) => catchUp fuel' fixedTimestepMs (set_lag (_lagMs e1 - fixedTimestepMs) e1)
        | (Throw err, e1) => Some (Throw err, e1)
        end
      else Some (Ret tt, e)
  end.

(** JavaScript truthiness of [this.fixedUpdateTimestep]. *)
Definition truthy (x : option Q) : bool :=
  match x with
  | Some q => negb (Qeq_bool q 0)
  | None => false
  end.

Definition _mainloop (fuel : nat) (elapsed : Q) (e : Engine)
  : option (outcome unit * Engine) :=
  let elapsedMs := elapsed * _timescale e in
  let e := set_frameElapsed elapsedMs e in
  let after :=
    match fixedUpdateTimestep e with
    | Some fixedTimestepMs =>
        if truthy (fixedUpdateTimestep e) then
          catchUp fuel fixedTimestepMs (set_lag (_lagMs e + elapsedMs) e)
        else Some (call_update elapsedMs e)
    | None => Some (call_update elapsedMs e)
    end in
  match after with
  | Some (Ret _, e') => Some (Ret tt, set_frameLag (_lagMs e') e')
  | other => other
  end.

(** The clock feeding one elapsed-time sample after the other. *)
Fixpoint feed (fuel : nat) (samples : list Q) (e : Engine)
  : option (outcome unit * Engine) :=
  match samples with
  | [] => Some (Ret tt, e)
  | el :: rest =>
      match _mainloop fuel el e with
      | Some (Ret _, e') => feed fuel rest e'
      | other => other
      end
  end.


(** The configuration of the loop, which no step touches. *)
Definition same_config (e e' : Engine) : Prop :=
  fixedUpdateTimestep e' = fixedUpdateTimestep e /\ _timescale e' = _timescale e.

End Mainloop.

(** A natural number as a rational. *)
Definition Qnat (n : nat) : Q := inject_Z (Z.of_nat n).

End EngineLoop.

(** ** Engine._mainloop on JavaScript numbers *)

(** The loop once more, on the binary64 numbers JavaScript computes with:
    every product, sum and difference is rounded to the nearest double.
    The engine keeps a ghost record of the arithmetic it carried out, so
    that a property can say of a run that no operation rounded. *)
Module EngineLoop64.

Import PrimFloat SpecFloat FloatOps.

(** The number a double stands for; [None] for NaN and the infinities. *)
Definition value (x : float) : option Q :=
  match Prim2SF x with
  | S754_zero _ => Some 0%Q
  | S754_finite s m e => Some ((if s then -1 else 1) * inject_Z (Zpos m) * 2 ^ e)%Q
  | S754_infinity _ | S754_nan => None
  end.

(** The same number counted in units of 2^-1074, the least positive double:
    an integer. *)
Definition quanta (f : spec_float) : option Z :=
  match f with
  | S754_zero _ => Some 0%Z
  | S754_finite s m e => Some ((if s then -1 else 1) * Zpos m * 2 ^ (e + 1074))%Z
  | S754_infinity _ | S754_nan => None
  end.

(** [x] is finite and stands for [q]. *)
Definition reads (x : float) (q : Q) : Prop :=
  exists q', value x = Some q' /\ (q' == q)%Q.

(** An arithmetic operation of the loop, with its operands. *)
Inductive Operation :=
| Times (x y : float)
| Plus (x y : float)
| Minus (x y : float).

(** The operation did not round: operands and result are finite, and the
    result stands for the exact product, sum or difference. *)
Definition is_exact (op : Operation) : bool :=
  match op with
  | Times x y =>
      match value x, value y, value (x * y)%float with
      | Some a, Some b, Some c => Qeq_bool c (a * b)
      | _, _, _ => false
      end
  | Plus x y =>
      match value x, value y, value (x + y)%float with
      | Some a, Some b, Some c => Qeq_bool c (a + b)
      | _, _, _ => false
      end
  | Minus x y =>
      match value x, value y, value (x - y)%float with
      | Some a, Some b, Some c => Qeq_bool c (a - b)
      | _, _, _ => false
      end
  end.

Section Mainloop.
(** Everything [_update] can reach: the director, the scenes, the rooms. *)
Context {W : Type}.
(** [Engine._update(elapsed)]; it may throw. *)
Variable _update : float -> M W unit.

Record Engine := mkEngine {
  fixedUpdateTimestep : option float;   (* [None]: undefined *)
  _timescale : float;
  _lagMs : float;
  currentFrameElapsedMs : float;
  currentFrameLagMs : float;
  updateCalls : list float;             (* ghost: argument of every [_update] call so far *)
  operations : list Operation;          (* ghost: every arithmetic operation so far *)
  world : W
}.

Definition set_lag (l : float) (e : Engine) : Engine :=
  mkEngine (fixedUpdateTimestep e) (_timescale e) l
           (currentFrameElapsedMs e) (currentFrameLagMs e) (updateCalls e)
           (operations e) (world e).
Definition set_frameElapsed (x : float) (e : Engine) : Engine :=
  mkEngine (fixedUpdateTimestep e) (_timescale e) (_lagMs e)
           x (currentFrameLagMs e) (updateCalls e) (operations e) (world e).
Definition set_frameLag (x : float) (e : Engine) : Engine :=
  mkEngine (fixedUpdateTimestep e) (_timescale e) (_lagMs e)
           (currentFrameElapsedMs e) x (updateCalls e) (operations e) (world e).

(** The ghost record takes one more operation. *)
Definition note (op : Operation) (e : Engine) : Engine :=
  mkEngine (fixedUpdateTimestep e) (_timescale e) (_lagMs e)
           (currentFrameElapsedMs e) (currentFrameLagMs e) (updateCalls e)
           (operations e ++ [op]) (world e).

(** The operations carried out on the way from [e] to [e']. *)
Definition since (e e' : Engine) : list Operation :=
  drop (length (operations e)) (operations e').

(** [this._update(elapsed)] seen from the loop: the call is recorded and
    the world is handed to [_update]. *)
Definition call_update (elapsed : float) : M Engine unit :=
  fun e =>
    let '(r, w') := _update elapsed (world e) in
    (r, mkEngine (fixedUpdateTimestep e) (_timescale e) (_lagMs e)
                 (currentFrameElapsedMs e) (currentFrameLagMs e)
                 (updateCalls e ++ [elapsed]) (operations e) w').

(** [while (this._lagMs >= fixedTimestepMs) { this._update(fixedTimestepMs);
    this._lagMs -= fixedTimestepMs; }].  The loop need not terminate (a
    subtraction that rounds back to the same lag repeats for ever), so it
    runs on fuel; the outcome [None] is fuel exhaustion, with the engine
    as it stood then. *)
Fixpoint catchUp (fuel : nat) (fixedTimestepMs : float) (e : Engine)
  : option (outcome unit) * Engine :=
  match fuel with
  | O => (None, e)
  | S fuel' =>
      if (fixedTimestepMs <=? _lagMs e)%float then
        match call_update fixedTimestepMs e with
        | (Ret _, e1) =>
            catchUp fuel' fixedTimestepMs
              (note (Minus (_lagMs e1) fixedTimestepMs)
                 (set_lag (_lagMs e1 - fixedTimestepMs)%float e1))
        | (Throw err, e1) => (Some (Throw err), e1)
        end
      else (Some (Ret tt), e)
  end.

(** JavaScript truthiness of [this.fixedUpdateTimestep]: [undefined], 0,
    -0 and NaN are falsy. *)
Definition truthy (x : option float) : bool :=
  match x with
  | Some q => negb (is_zero q || is_nan q)
  | None => false
  end.

Definition _mainloop (fuel : nat) (elapsed : float) (e : Engine)
  : option (outcome unit) * Engine :=
  let elapsedMs := (elapsed * _timescale e)%float in
  let e := note (Times elapsed (_timescale e)) (set_frameElapsed elapsedMs e) in
  let once := let '(r, e') := call_update elapsedMs e in (Some r, e') in
  let after :=
    match fixedUpdateTimestep e with
    | Some fixedTimestepMs =>
        if truthy (fixedUpdateTimestep e) then
          catchUp fuel fixedTimestepMs
            (note (Plus (_lagMs e) elapsedMs) (set_lag (_lagMs e + elapsedMs)%float e))
        else once
    | None => once
    end in
  match after with
  | (Some (Ret _), e') => (Some (Ret tt), set_frameLag (_lagMs e') e')
  | other => other
  end.

(** The clock feeding one elapsed-time sample after the other. *)
Fixpoint feed (fuel : nat) (samples : list float) (e : Engine)
  : option (outcome unit) * Engine :=
  match samples with
  | [] => (Some (Ret tt), e)
  | el :: rest =>
      match _mainloop fuel el e with
      | (Some (Ret _), e') => feed fuel rest e'
      | other => other
      end
  end.

End Mainloop.

End EngineLoop64.

(** ** JavaScript arrays *)

Section JsArray.
Context {A : Type}.

(** [Array.prototype.find]: the first element satisfying the predicate. *)
Fixpoint js_find (p : A -> bool) (l : list A) : option A :=
  match l with
  | [] => None
  | a :: l' => if p a then Some a else js_find p l'
  end.

(** Position of the first element satisfying the predicate. *)
Fixpoint find_pos (p : A -> bool) (l : list A) : option nat :=
  match l with
  | [] => None
  | a :: l' => if p a then Some O else option_map S (find_pos p l')
  end.

(** [Array.prototype.findIndex]: [-1] when nothing matches. *)
Definition js_findIndex (p : A -> bool) (l : list A) : Z :=
  match find_pos p l with
  | Some i => Z.of_nat i
  | None => (-1)%Z
  end.

(** [Array.prototype.splice(start, deleteCount)] without inserted items:
    a negative [start] counts from the end, and both the start and the
    count are clamped to the array. *)
Definition js_splice (start deleteCount : Z) (l : list A) : list A :=
  let len := Z.of_nat (length l) in
  let actualStart :=
    if (start <? 0)%Z then Z.max (len + start) 0 else Z.min start len in
  let actualDeleteCount := Z.min (Z.max deleteCount 0) (len - actualStart) in
  take (Z.to_nat actualStart) l
    ++ drop (Z.to_nat actualStart + Z.to_nat actualDeleteCount) l.
End JsArray.

(** [Array.prototype.includes] on strings. *)
Definition js_includes (s : string) (l : list string) : bool :=
  existsb (String.eqb s) l.

(** ** Actors (src/server/Actor/ClientActor.ts) *)

Module Vector.
Record t := mk { x : Z; y : Z }.
End Vector.

Module Quat.
Record t := mk { x : Z; y : Z; z : Z; w : Z }.
Definition set_x (v : Z) (q : t) : t := mk v (y q) (z q) (w q).
Definition set_y (v : Z) (q : t) : t := mk (x q) v (z q) (w q).
End Quat.

Inductive Side := SideNone | Top | Bottom | Left | Right.

Definition Side_eqb (a b : Side) : bool :=
  match a, b with
  | SideNone, SideNone | Top, Top | Bottom, Bottom | Left, Left | Right, Right => true
  | _, _ => false
  end.

Inductive CollisionType := Passive | Fixed.

Inductive ActorClass := ClientActor | NPCActor.

(** [ClientActor.collisionData]; [other] holds the uuid of the actor the
    source keeps a reference to. *)
Record CollisionData := mkCollisionData {
  isColliding : bool;
  collisionDirection : Side;
  other : option string
}.

Record Actor := mkActor {
  class : ActorClass;
  name : string;
  uuid : string;
  pos : Vector.t;                (* [Actor.pos], the transform position *)
  width : Z;
  height : Z;
  collisionType : CollisionType;
  position : Quat.t;
  directions : list string;
  speed : Z;
  collisionData : CollisionData; (* read only on a [ClientActor] *)
  npcs : list string;            (* uuids of the entities pushed by [onInitialize] *)
  isInitialized : bool;          (* [Entity.isInitialized] *)
  isActive : bool                (* [Entity.isActive], cleared by [kill] *)
}.

Definition set_pos (v : Vector.t) (a : Actor) : Actor :=
  mkActor (class a) (name a) (uuid a) v (width a) (height a) (collisionType a)
          (position a) (directions a) (speed a) (collisionData a) (npcs a)
          (isInitialized a) (isActive a).
Definition set_position (q : Quat.t) (a : Actor) : Actor :=
  mkActor (class a) (name a) (uuid a) (pos a) (width a) (height a) (collisionType a)
          q (directions a) (speed a) (collisionData a) (npcs a)
          (isInitialized a) (isActive a).
Definition set_collisionData (c : CollisionData) (a : Actor) : Actor :=
  mkActor (class a) (name a) (uuid a) (pos a) (width a) (height a) (collisionType a)
          (position a) (directions a) (speed a) c (npcs a)
          (isInitialized a) (isActive a).
Definition set_npcs (l : list string) (a : Actor) : Actor :=
  mkActor (class a) (name a) (uuid a) (pos a) (width a) (height a) (collisionType a)
          (position a) (directions a) (speed a) (collisionData a) l
          (isInitialized a) (isActive a).
Definition set_isInitialized (b : bool) (a : Actor) : Actor :=
  mkActor (class a) (name a) (uuid a) (pos a) (width a) (height a) (collisionType a)
          (position a) (directions a) (speed a) (collisionData a) (npcs a)
          b (isActive a).
Definition set_isActive (b : bool) (a : Actor) : Actor :=
  mkActor (class a) (name a) (uuid a) (pos a) (width a) (height a) (collisionType a)
          (position a) (directions a) (speed a) (collisionData a) (npcs a)
          (isInitialized a) b.

(** [new ClientActor(name, rng)] with the two [rng.integer] draws and the
    generated uuid supplied by the caller. *)
Definition ClientActor_new (name uuid : string) (startingX startingY : Z) : Actor :=
  mkActor ClientActor name uuid (Vector.mk startingX startingY) 24 24 Passive
          (Quat.mk startingX startingY 0 0) [] 4
          (mkCollisionData false SideNone None) [] false true.

(** [new NPCActor(rng)] *)
Definition NPCActor_new (uuid : string) (startingX startingY : Z) : Actor :=
  mkActor NPCActor "NPC" uuid (Vector.mk startingX startingY) 24 24 Fixed
          (Quat.mk startingX startingY 0 0) [] 0
          (mkCollisionData false SideNone None) [] false true.

(** [ClientActor.onCollisionStart(self, other, side, contact)], with
    [otherActor = other.owner]. *)
Definition ClientActor_onCollisionStart (otherActor : Actor) (side : Side) (this : Actor) : Actor :=
  let this := set_collisionData (mkCollisionData true side (Some (uuid otherActor))) this in
  match side with
  | SideNone => this
  | Top =>
      let overlap := (Vector.y (pos otherActor) + height otherActor - Vector.y (pos this))%Z in
      let this := set_pos (Vector.mk (Quat.x (position this)) (Quat.y (position this) + overlap)) this in
      set_position (Quat.set_y (Quat.y (position this) + overlap) (position this)) this
  | Bottom =>
      let overlap := (Vector.y (pos otherActor) - (Vector.y (pos this) + height this))%Z in
      let this := set_pos (Vector.mk (Quat.x (position this)) (Quat.y (position this) + overlap)) this in
      set_position (Quat.set_y (Quat.y (position this) + overlap) (position this)) this
  | Left =>
      let overlap := (Vector.x (pos otherActor) + width otherActor - Vector.x (pos this))%Z in
      let this := set_pos (Vector.mk (Quat.x (position this) + overlap) (Quat.y (position this))) this in
      set_position (Quat.set_x (Quat.x (position this) + overlap) (position this)) this
  | Right =>
      let overlap := (Vector.x (pos otherActor) - (Vector.x (pos this) + width this))%Z in
      let this := set_pos (Vector.mk (Quat.x (position this) + overlap) (Quat.y (position this))) this in
      set_position (Quat.set_x (Quat.x (position this) + overlap) (position this)) this
  end.

(** [ClientActor.onCollisionEnd] *)
Definition ClientActor_onCollisionEnd (this : Actor) : Actor :=
  set_collisionData (mkCollisionData false SideNone None) this.

(** [pEnt.getIsColliding()]: a method of [ClientActor] only; on an
    [NPCActor] the call is a TypeError. *)
Definition getIsColliding (this : Actor) : outcome CollisionData :=
  match class this with
  | ClientActor => Ret (collisionData this)
  | NPCActor => Throw (TypeError "pEnt.getIsColliding is not a function")
  end.

(** [ClientActor.onPreUpdate]: the transform is re-derived from [position]. *)
Definition ClientActor_onPreUpdate (this : Actor) : Actor :=
  set_pos (Vector.mk (Quat.x (position this)) (Quat.y (position this))) this.

(** ** Scenes and the Director: state *)

Definition RoomId := string.

(** Object identity of what a scene variable holds: its address in the
    object heap. *)
Definition SceneRef := nat.

(** What the user overrides of a scene class do, as far as the engine can
    tell: each lifecycle hook either returns or throws. *)
Record Overrides := mkOverrides {
  onInitialize_throws : bool;
  onActivate_throws : bool;
  onDeactivate_throws : bool
}.

(** What [isSceneConstructor] accepts: the scene classes, which
    [scene.constructor] and a lazy registry entry hold, and the built-in
    [Object], which the registry object inherits as its [constructor]
    property ([Object.prototype] is truthy and
    [Object.prototype.constructor.name] is "Object"). *)
Inductive SceneConstructor :=
| SceneClass                              (* [Scene] itself *)
| MainScene                               (* [class MainScene extends Scene], server.ts *)
| UserScene (tag : nat) (o : Overrides)   (* any other subclass *)
| ObjectFunction.                         (* [Object]: not a subclass of [Scene] *)

#[global] Instance Overrides_eq_dec : EqDecision Overrides.
Proof. solve_decision. Defined.
#[global] Instance SceneConstructor_eq_dec : EqDecision SceneConstructor.
Proof. solve_decision. Defined.

(** Modelled from the spec: a timer is advanced by the elapsed time of each
    update (Timer.ts is not among the sources); [timer_id] is the timer's
    object identity. *)
Record Timer := mkTimer { timer_id : nat; timer_elapsed : Q }.

Record Scene := mkScene {
  ctor : SceneConstructor;       (* [scene.constructor] *)
  _isInitialized : bool;
  entities : list Actor;         (* [world.entityManager.entities] *)
  _timers : list Timer;
  _cancelQueue : list Timer;
  room : option RoomId           (* [MainScene.room] *)
}.

Definition set__isInitialized (b : bool) (s : Scene) : Scene :=
  mkScene (ctor s) b (entities s) (_timers s) (_cancelQueue s) (room s).
Definition set_entities (l : list Actor) (s : Scene) : Scene :=
  mkScene (ctor s) (_isInitialized s) l (_timers s) (_cancelQueue s) (room s).
Definition set__timers (l : list Timer) (s : Scene) : Scene :=
  mkScene (ctor s) (_isInitialized s) (entities s) l (_cancelQueue s) (room s).
Definition set__cancelQueue (l : list Timer) (s : Scene) : Scene :=
  mkScene (ctor s) (_isInitialized s) (entities s) (_timers s) l (room s).
Definition set_room (r : option RoomId) (s : Scene) : Scene :=
  mkScene (ctor s) (_isInitialized s) (entities s) (_timers s) (_cancelQueue s) r.

(** [new Scene()], [new MainScene()], ... *)
Definition Scene_new (c : SceneConstructor) : Scene :=
  mkScene c false [] [] [] None.

(** What lives at an address: a [Scene] instance, or an object that is not
    a scene ([new Object()] has no field and no method of [Scene]). *)
Inductive Cell :=
| SceneCell (sc : Scene)
| PlainObject.

(** The object heap.  Looking up, altering or overwriting a scene through
    an address that holds none finds nothing and changes nothing. *)
Record Heap := mkHeap { cells :> list Cell }.

#[global] Instance Heap_lookup : Lookup nat Scene Heap :=
  fun r h => match cells h !! r with
             | Some (SceneCell sc) => Some sc
             | Some PlainObject | None => None
             end.

#[global] Instance Heap_alter : Alter nat Scene Heap :=
  fun f r h =>
    mkHeap (alter (fun c => match c with
                            | SceneCell sc => SceneCell (f sc)
                            | PlainObject => PlainObject
                            end) r (cells h)).

#[global] Instance Heap_insert : Insert nat Scene Heap :=
  fun r sc h =>
    mkHeap (alter (fun c => match c with
                            | SceneCell _ => SceneCell sc
                            | PlainObject => PlainObject
                            end) r (cells h)).

(** The layout of the heap: which addresses hold a scene. *)
Definition layout (h : Heap) : list bool :=
  (fun c => match c with SceneCell _ => true | PlainObject => false end) <$> cells h.

(** A registry value: a scene instance or a scene class. *)
Inductive SceneOrCtor :=
| Instance (r : SceneRef)
| Ctor (c : SceneConstructor).

(** [Scene | SceneConstructor | SceneWithOptions] *)
Inductive SceneDef :=
| Plain (v : SceneOrCtor)
| WithOptions (scene : SceneOrCtor).

#[global] Instance SceneOrCtor_eq_dec : EqDecision SceneOrCtor.
Proof. solve_decision. Defined.
#[global] Instance SceneDef_eq_dec : EqDecision SceneDef.
Proof. solve_decision. Defined.

Record Director := mkDirector {
  _deferredGoto : option string;
  _initialized : bool;
  currentSceneName : string;
  currentScene : SceneRef;
  (** [scenes]: the own properties of the registry object, a plain [{}],
      in enumeration order.  What the object inherits from
      [Object.prototype] is added where the code reads [this.scenes[name]]. *)
  scenes : list (string * SceneDef);
  _sceneToInstance : gmap string SceneRef;
  rootScene : SceneRef
}.

Definition set__deferredGoto (v : option string) (d : Director) : Director :=
  mkDirector v (_initialized d) (currentSceneName d) (currentScene d)
             (scenes d) (_sceneToInstance d) (rootScene d).
Definition set__initialized (v : bool) (d : Director) : Director :=
  mkDirector (_deferredGoto d) v (currentSceneName d) (currentScene d)
             (scenes d) (_sceneToInstance d) (rootScene d).
Definition set_currentSceneName (v : string) (d : Director) : Director :=
  mkDirector (_deferredGoto d) (_initialized d) v (currentScene d)
             (scenes d) (_sceneToInstance d) (rootScene d).
Definition set_currentScene (v : SceneRef) (d : Director) : Director :=
  mkDirector (_deferredGoto d) (_initialized d) (currentSceneName d) v
             (scenes d) (_sceneToInstance d) (rootScene d).
Definition set_scenes (v : list (string * SceneDef)) (d : Director) : Director :=
  mkDirector (_deferredGoto d) (_initialized d) (currentSceneName d) (currentScene d)
             v (_sceneToInstance d) (rootScene d).
Definition set__sceneToInstance (v : gmap string SceneRef) (d : Director) : Director :=
  mkDirector (_deferredGoto d) (_initialized d) (currentSceneName d) (currentScene d)
             (scenes d) v (rootScene d).
Definition set_rootScene (v : SceneRef) (d : Director) : Director :=
  mkDirector (_deferredGoto d) (_initialized d) (currentSceneName d) (currentScene d)
             (scenes d) (_sceneToInstance d) v.

(** [{ roomId }], the activation data the server passes. *)
Record ActivationData := mkActivationData { roomId : RoomId }.

(** [SceneActivationContext]: [{ engine, previousScene, nextScene, data }]. *)
Record Context := mkContext {
  previousScene : SceneRef;
  nextScene : SceneRef;
  data : option ActivationData
}.

(** The Director's pointers as a hook reading [engine.currentScene] and
    [engine.currentSceneName] sees them when it is called. *)
Record Observed := mkObserved { seenScene : SceneRef; seenName : string }.

(** What the engine does that user code can see: calls of the overridable
    hooks and emitted events, in order. *)
Inductive Event :=
| OnInitialize (this : SceneRef) (o : Observed)
| OnActivate (this : SceneRef) (ctx : Context) (o : Observed)
| OnDeactivate (this : SceneRef) (ctx : Context) (o : Observed)
| ActorOnInitialize (this : SceneRef) (actor : string)
| SceneEmit (this : SceneRef) (eventName : string)
| EngineEmit (eventName : string)
| DirectorEmit (eventName sourceName destinationName : string).

#[global] Instance ActivationData_eq_dec : EqDecision ActivationData.
Proof. solve_decision. Defined.
#[global] Instance Context_eq_dec : EqDecision Context.
Proof. solve_decision. Defined.
#[global] Instance Observed_eq_dec : EqDecision Observed.
Proof. solve_decision. Defined.
#[global] Instance Event_eq_dec : EqDecision Event.
Proof. solve_decision. Defined.

Inductive LogLevel := Debug | Warn | ErrorLevel.

#[global] Instance LogLevel_eq_dec : EqDecision LogLevel.
Proof. solve_decision. Defined.

(** One engine with its scenes: the scene objects, the director, and what
    has been observed so far. *)
Record Stage := mkStage {
  heap : Heap;
  director : Director;
  trace : list Event;
  log : list (LogLevel * string)
}.

Definition set_heap (h : Heap) (s : Stage) : Stage :=
  mkStage h (director s) (trace s) (log s).
Definition set_director (d : Director) (s : Stage) : Stage :=
  mkStage (heap s) d (trace s) (log s).
Definition set_trace (t : list Event) (s : Stage) : Stage :=
  mkStage (heap s) (director s) t (log s).
Definition set_log (l : list (LogLevel * string)) (s : Stage) : Stage :=
  mkStage (heap s) (director s) (trace s) l.

(** *** Primitive effects *)

Definition record (ev : Event) : M Stage unit :=
  modify (fun s => set_trace (trace s ++ [ev]) s).

Definition logger (lvl : LogLevel) (msg : string) : M Stage unit :=
  modify (fun s => set_log (log s ++ [(lvl, msg)]) s).

Definition observe : M Stage Observed :=
  gets (fun s => mkObserved (currentScene (director s)) (currentSceneName (director s))).

(** Dereferencing a scene, to read a field or to call a method of [Scene]
    that the caller goes on to use.  Through a reference to an object that
    is not a scene the access is a TypeError; a reference outside the heap
    is a modelling error and surfaces the same way. *)
Definition deref (r : SceneRef) : M Stage Scene :=
  fun s => match heap s !! r with
           | Some sc => (Ret sc, s)
           | None => (Throw (TypeError "not a scene"), s)
           end.

Definition update_scene (r : SceneRef) (f : Scene -> Scene) : M Stage unit :=
  modify (fun s => set_heap (alter f r (heap s)) s).

Definition update_director (f : Director -> Director) : M Stage unit :=
  modify (fun s => set_director (f (director s)) s).

(** [new sceneDefinition()]: the fresh object gets the next address.
    [new Object()] is an empty object, not a scene. *)
Definition alloc (c : SceneConstructor) : M Stage SceneRef :=
  fun s =>
    let fresh :=
      match c with
      | ObjectFunction => PlainObject
      | SceneClass | MainScene | UserScene _ _ => SceneCell (Scene_new c)
      end in
    (Ret (length (heap s)), set_heap (mkHeap (heap s ++ [fresh])) s).

(** *** The registry object [Director.scenes] *)

(** The value of a decimal digit. *)
Definition digit (c : Ascii.ascii) : option N :=
  let n := Ascii.N_of_ascii c in
  if (48 <=? n)%N && (n <=? 57)%N then Some (n - 48)%N else None.

Fixpoint numeral (acc : N) (s : string) : option N :=
  match s with
  | EmptyString => Some acc
  | String c s' =>
      match digit c with
      | Some d => numeral (10 * acc + d) s'
      | None => None
      end
  end.

(** A property name that is an array index: the canonical numeral (no
    leading zero) of an integer below [2^32 - 1]. *)
Definition array_index (k : string) : option N :=
  match k with
  | EmptyString => None
  | String "0"%char EmptyString => Some 0%N
  | String "0"%char _ => None
  | _ =>
      match numeral 0 k with
      | Some n => if (n <? 4294967295)%N then Some n else None
      | None => None
      end
  end.

(** Whether a new property [k] is enumerated before the existing [k']:
    array indices come first, in ascending order, then the other names in
    the order of their creation. *)
Definition enumerated_before (k k' : string) : bool :=
  match array_index k, array_index k' with
  | Some n, Some n' => (n <? n')%N
  | Some _, None => true
  | None, _ => false
  end.

(** The property names every plain object inherits from
    [Object.prototype]. *)
Definition Object_prototype : list string :=
  [ "constructor"; "__defineGetter__"; "__defineSetter__"; "hasOwnProperty";
    "__lookupGetter__"; "__lookupSetter__"; "isPrototypeOf";
    "propertyIsEnumerable"; "toString"; "valueOf"; "__proto__";
    "toLocaleString" ].

Section JsObject.
Context {V : Type}.

(** [o[k]] for an own property [k] *)
Fixpoint obj_get (k : string) (o : list (string * V)) : option V :=
  match o with
  | [] => None
  | (k', v) :: o' => if String.eqb k k' then Some v else obj_get k o'
  end.

(** [o[k] = v] for an own property [k]: it keeps its place. *)
Fixpoint obj_replace (k : string) (v : V) (o : list (string * V)) : list (string * V) :=
  match o with
  | [] => []
  | (k', v') :: o' => if String.eqb k k' then (k, v) :: o' else (k', v') :: obj_replace k v o'
  end.

(** [o[k] = v] for a new property [k]: an array index goes among the
    indices, any other name goes last. *)
Fixpoint obj_insert (k : string) (v : V) (o : list (string * V)) : list (string * V) :=
  match o with
  | [] => [(k, v)]
  | (k', v') :: o' =>
      if enumerated_before k k' then (k, v) :: (k', v') :: o'
      else (k', v') :: obj_insert k v o'
  end.

(** [o[k] = v].  (The name "__proto__" is treated like any other; in
    JavaScript assigning it replaces the prototype of [o].) *)
Definition obj_set (k : string) (v : V) (o : list (string * V)) : list (string * V) :=
  match obj_get k o with
  | Some _ => obj_replace k v o
  | None => obj_insert k v o
  end.

(** [delete o[k]] *)
Definition obj_delete (k : string) (o : list (string * V)) : list (string * V) :=
  filter (fun kv => fst kv ≠ k) o.

(** The keys a [for (const key in o)] loop visits. *)
Definition obj_keys (o : list (string * V)) : list string := map fst o.
End JsObject.

(** *** Scene lifecycle (src/server/HeadlessEx/Scene.ts) *)

Definition no_overrides : Overrides := mkOverrides false false false.

Definition overrides (c : SceneConstructor) : Overrides :=
  match c with
  | SceneClass | MainScene | ObjectFunction => no_overrides
  | UserScene _ o => o
  end.

(** [Director.getSceneDefinition(name)].  Without an own property,
    [this.scenes[name]] is what the registry object inherits: for
    "constructor" it is [Object], which [isSceneConstructor] accepts; every
    other inherited value is neither a scene nor a constructor and has no
    [scene] property. *)
Definition Director_getSceneDefinition (name : string) (d : Director) : option SceneOrCtor :=
  match obj_get name (scenes d) with
  | Some (Plain v) => Some v
  | Some (WithOptions scene) => Some scene
  | None => if String.eqb name "constructor" then Some (Ctor ObjectFunction) else None
  end.

(** [Director.getSceneName(scene)]: instances first, then classes. *)
Definition Director_getSceneName (scene : SceneRef) : M Stage (option string) :=
  let! sc := deref scene in
  let! d := gets director in
  let byInstance (kv : string * SceneDef) :=
    match snd kv with
    | Plain (Instance r) => bool_decide (scene = r)
    | Plain (Ctor _) => false
    | WithOptions v => bool_decide (Instance scene = v)
    end in
  let byClass (kv : string * SceneDef) :=
    match snd kv with
    | Plain (Ctor c) => bool_decide (ctor sc = c)
    | Plain (Instance _) => false
    | WithOptions v => bool_decide (Ctor (ctor sc) = v)
    end in
  match js_find byInstance (scenes d) with
  | Some kv => ret (Some (fst kv))
  | None => ret (fst <$> js_find byClass (scenes d))
  end.

(** JavaScript's rendering of [string | null] inside a template string. *)
Definition show_name (n : option string) : string := default "null" n.

(** The overridable [Scene.onInitialize(engine)]. *)
Definition Scene_onInitialize (this : SceneRef) : M Stage unit :=
  let! sc := deref this in
  let! o := observe in
  record (OnInitialize this o);;
  if onInitialize_throws (overrides (ctor sc))
  then throw (JsError "onInitialize") else ret tt.

(** The overridable [Scene.onActivate(context)]; [MainScene] overrides it
    to remember the room. *)
Definition Scene_onActivate (this : SceneRef) (context : Context) : M Stage unit :=
  let! sc := deref this in
  let! o := observe in
  record (OnActivate this context o);;
  match ctor sc with
  | MainScene =>
      match data context with
      | None => ret tt
      | Some d => update_scene this (set_room (Some (roomId d)))
      end
  | c => if onActivate_throws (overrides c) then throw (JsError "onActivate") else ret tt
  end.

(** The overridable [Scene.onDeactivate(context)]. *)
Definition Scene_onDeactivate (this : SceneRef) (context : Context) : M Stage unit :=
  let! sc := deref this in
  let! o := observe in
  record (OnDeactivate this context o);;
  if onDeactivate_throws (overrides (ctor sc))
  then throw (JsError "onDeactivate") else ret tt.

(** [ClientActor.onInitialize(engine)]: the NPCs of [engine.currentScene]
    are pushed onto [npcs]. *)
Definition ClientActor_onInitialize (currentEntities : list Actor) (this : Actor) : Actor :=
  set_npcs (npcs this ++ map uuid (filter (fun ent => name ent = "NPC") currentEntities)) this.

(** Modelled from the spec: [Entity._initialize(engine)] (Entity.ts is not
    among the sources) runs the actor's [onInitialize] once and marks the
    entity initialized.  [i] is the child's index in the scene. *)
Definition Entity__initialize (scene : SceneRef) (i : nat) : M Stage unit :=
  let! sc := deref scene in
  match entities sc !! i with
  | None => ret tt
  | Some child =>
      if isInitialized child then ret tt
      else
        record (ActorOnInitialize scene (uuid child));;
        let! cur := gets (fun s => currentScene (director s)) in
        let! curScene := deref cur in
        let step (a : Actor) :=
          set_isInitialized true
            match class a with
            | ClientActor => ClientActor_onInitialize (entities curScene) a
            | NPCActor => a
            end in
        update_scene scene (fun sc => set_entities (alter step i (entities sc)) sc)
  end.

(** [Scene._initializeChildren()] *)
Definition Scene__initializeChildren (this : SceneRef) : M Stage unit :=
  let! sc := deref this in
  for_each (seq 0 (length (entities sc))) (Entity__initialize this).

(** [Scene._initialize(engine)] *)
Definition Scene__initialize (this : SceneRef) : M Stage unit :=
  let! sc := deref this in
  if negb (_isInitialized sc) then
    try_rethrow
      (Scene_onInitialize this;;
       Scene__initializeChildren this;;
       logger Debug "Scene.onInitialize";;
       record (SceneEmit this "initialize"))
      (let! n := Director_getSceneName this in
       logger ErrorLevel ("Error during scene initialization for scene " ++ show_name n ++ "!"));;
    update_scene this (set__isInitialized true)
  else ret tt.

(** [Scene._activate(context)] *)
Definition Scene__activate (this : SceneRef) (context : Context) : M Stage unit :=
  try_rethrow
    (logger Debug "Scene.onActivate";;
     Scene_onActivate this context)
    (let! n := Director_getSceneName this in
     logger ErrorLevel ("Error during scene activation for scene " ++ show_name n ++ "!")).

(** [Scene._deactivate(context)] *)
Definition Scene__deactivate (this : SceneRef) (context : Context) : M Stage unit :=
  logger Debug "Scene.onDeactivate";;
  Scene_onDeactivate this context.

(** *** The Director (src/server/HeadlessEx/Director/Director.ts) *)

(** [Director.add(name, sceneOrRoute)]: [this.scenes[name]] is truthy for
    an own property (a scene, a class or an options object) and for every
    name the registry object inherits. *)
Definition Director_add (name : string) (sceneOrRoute : SceneDef) : M Stage unit :=
  let! d := gets director in
  match obj_get name (scenes d) with
  | Some _ => logger Warn ("Scene " ++ name ++ " already exists overwriting")
  | None =>
      if js_includes name Object_prototype
      then logger Warn ("Scene " ++ name ++ " already exists overwriting")
      else ret tt
  end;;
  update_director (fun d => set_scenes (obj_set name sceneOrRoute (scenes d)) d).

(** The argument of [Director.remove]: a scene instance or class, or a name. *)
Inductive NameOrScene :=
| ByValue (v : SceneOrCtor)
| ByName (n : string).

Definition unregister (key : string) : M Stage unit :=
  update_director (fun d =>
    set_scenes (obj_delete key (scenes d))
      (set__sceneToInstance (delete key (_sceneToInstance d)) d)).

(** One turn of the [for (const key in this.scenes)] loop of [remove]. *)
Definition Director_remove_key (sceneOrCtor : SceneOrCtor) (key : string) : M Stage unit :=
  let! d := gets director in
  match obj_get key (scenes d) with
  | None => ret tt
  | Some potentialSceneOrOptions =>
      let scene :=
        match potentialSceneOrOptions with
        | Plain v => v
        | WithOptions scene => scene
        end in
      if bool_decide (scene = sceneOrCtor) then
        if String.eqb key (currentSceneName d) then
          throw (JsError ("Cannot remove a currently active scene: " ++ key))
        else unregister key
      else ret tt
  end.

(** [Director.remove(nameOrScene)] *)
Definition Director_remove (nameOrScene : NameOrScene) : M Stage unit :=
  match nameOrScene with
  | ByValue sceneOrCtor =>
      let! d := gets director in
      for_each (obj_keys (scenes d)) (Director_remove_key sceneOrCtor)
  | ByName n =>
      let! d := gets director in
      if String.eqb n (currentSceneName d) then
        throw (JsError ("Cannot remove a currently active scene: " ++ n))
      else unregister n
  end.

(** [Director.getSceneInstance(scene)] *)
Definition Director_getSceneInstance (scene : string) : M Stage (option SceneRef) :=
  let! d := gets director in
  match Director_getSceneDefinition scene d with
  | None => ret None
  | Some sceneDefinition =>
      match _sceneToInstance d !! scene with
      | Some inst => ret (Some inst)
      | None =>
          match sceneDefinition with
          | Instance r =>
              update_director (fun d => set__sceneToInstance (<[scene := r]> (_sceneToInstance d)) d);;
              ret (Some r)
          | Ctor c =>
              let! newScene := alloc c in
              update_director (fun d => set__sceneToInstance (<[scene := newScene]> (_sceneToInstance d)) d);;
              ret (Some newScene)
          end
      end
  end.

Definition current : M Stage SceneRef := gets (fun s => currentScene (director s)).

(** [Director.swapScene(destinationScene, data)] *)
Definition Director_swapScene (destinationScene : string) (data : option ActivationData)
  : M Stage unit :=
  let! d := gets director in
  if negb (_initialized d) then
    update_director (set__deferredGoto (Some destinationScene))
  else
    let! maybeDest := Director_getSceneInstance destinationScene in
    match maybeDest with
    | Some nextScene =>
        let! previousScene := current in
        logger Debug ("Going to scene: " ++ destinationScene);;
        let! currentIsInitialized :=
          gets (fun s => match heap s !! previousScene with
                         | Some cur => _isInitialized cur
                         | None => false    (* [undefined] on an object that is no scene *)
                         end) in
        (if currentIsInitialized then
           let context := mkContext previousScene nextScene None in
           Scene__deactivate previousScene context;;
           let! c := current in
           record (SceneEmit c "deactivate")
         else ret tt);;
        update_director (set_currentScene nextScene);;
        update_director (set_currentSceneName destinationScene);;
        (let! c := current in Scene__initialize c);;
        let context := mkContext previousScene nextScene data in
        (let! c := current in Scene__activate c context);;
        let! c := current in
        record (SceneEmit c "activate")
    | None => logger ErrorLevel ("Scene " ++ destinationScene ++ " does not exist!")
    end.

(** [Director.onInitialize()]; an empty string is falsy. *)
Definition Director_onInitialize : M Stage unit :=
  let! d := gets director in
  if negb (_initialized d) then
    update_director (set__initialized true);;
    match _deferredGoto d with
    | Some deferredScene =>
        if String.eqb deferredScene "" then Director_swapScene "root" None
        else
          update_director (set__deferredGoto None);;
          Director_swapScene deferredScene None
    | None => Director_swapScene "root" None
    end
  else ret tt.

(** [Director._emitEvent(eventName, sourceScene, destinationScene)] *)
Definition Director__emitEvent (eventName sourceScene destinationScene : string) : M Stage unit :=
  record (DirectorEmit eventName sourceScene destinationScene).

(** [GoToOptions] *)
Record GoToOptions := mkGoToOptions { sceneActivationData : option ActivationData }.

(** [Director.goToScene(destinationScene, options)] *)
Definition Director_goToScene (destinationScene : string) (options : option GoToOptions)
  : M Stage unit :=
  let! maybeDest := Director_getSceneInstance destinationScene in
  match maybeDest with
  | None =>
      logger Warn ("Scene " ++ destinationScene
                   ++ " does not exist! Check the name, are you sure you added it?")
  | Some _ =>
      let! sourceScene := gets (fun s => currentSceneName (director s)) in
      let sceneActivationData :=
        match options with
        | Some o => sceneActivationData o
        | None => None
        end in
      Director__emitEvent "navigationstart" sourceScene destinationScene;;
      Director_swapScene destinationScene sceneActivationData;;
      Director__emitEvent "navigation" sourceScene destinationScene;;
      Director__emitEvent "navigationend" sourceScene destinationScene
  end.

(** [Engine.goToScene]: [Director.goToScene] run inside the engine's
    context scope. *)
Definition Engine_goToScene (destinationScene : string) (options : option GoToOptions)
  : M Stage unit :=
  Director_goToScene destinationScene options.

(** [new Director(engine, scenes)], on a stage whose heap holds the scene
    instances the caller built beforehand. *)
Definition Director_new (sceneMap : list (string * SceneDef)) (instances : list Scene)
  : outcome unit * Stage :=
  let build : M Stage unit :=
    let! root := alloc SceneClass in
    update_director (fun _ => mkDirector None false "root" root [] ∅ root);;
    Director_add "root" (Plain (Instance root));;
    for_each sceneMap (fun kv =>
      Director_add (fst kv) (snd kv);;
      if String.eqb (fst kv) "root" then
        let! r := Director_getSceneInstance "root" in
        match r with
        | Some r => update_director (fun d => set_currentScene r (set_rootScene r d))
        | None => throw (TypeError "root scene is undefined")
        end
      else ret tt) in
  build (mkStage (mkHeap (SceneCell <$> instances)) (mkDirector None false "" 0 [] ∅ 0) [] []).

(** ** The room glue (src/server/server.ts) *)

Definition playerSpeed : Z := 4.

Module ServerTransmitEntities.
Record t := mk { id : string; networkId : string; position : Quat.t }.
End ServerTransmitEntities.

Module WorldState.
Record t := mk {
  players : list ServerTransmitEntities.t;
  gameEngine : Stage;
  roomId : RoomId;
  rng : Z                       (* the seed given to [new Random(...)] *)
}.
Definition set_players (l : list ServerTransmitEntities.t) (r : t) : t :=
  mk l (gameEngine r) (roomId r) (rng r).
Definition set_gameEngine (g : Stage) (r : t) : t :=
  mk (players r) g (roomId r) (rng r).
End WorldState.

(** One entry of the [players] array of a snapshot. *)
Module PlayerSnapshot.
Record t := mk { userId : string; id : string; position : Quat.t }.
End PlayerSnapshot.

(** [{ snapshot, roomId }], what [MainScene.onPreUpdate] broadcasts. *)
Record Update := mkUpdate {
  snapshot : list PlayerSnapshot.t;
  update_roomId : option RoomId
}.

(** The module-level state of server.ts: the [rooms] registry and what has
    been handed to [server.broadcastMessage]. *)
Record Server := mkServer {
  rooms : gmap RoomId WorldState.t;
  outbox : list (option RoomId * Update)
}.

Definition set_rooms (r : gmap RoomId WorldState.t) (sv : Server) : Server :=
  mkServer r (outbox sv).

(** [rooms[room]]: an undefined key is looked up as ["undefined"]. *)
Definition room_key (room : option RoomId) : RoomId := default "undefined" room.

(** Running engine code inside [rooms[e].gameEngine]. *)
Definition in_engine {A} (e : RoomId) (m : M Stage A) : M Server A :=
  fun sv =>
    match rooms sv !! e with
    | Some ws =>
        let '(r, st) := m (WorldState.gameEngine ws) in
        (r, set_rooms (<[e := WorldState.set_gameEngine st ws]> (rooms sv)) sv)
    | None => (Throw (TypeError "Cannot read properties of undefined (reading 'gameEngine')"), sv)
    end.

(** Running scene-local code on the scene object [this]. *)
Definition in_scene {A} (this : SceneRef) (m : M Scene A) : M Stage A :=
  fun st =>
    match heap st !! this with
    | Some sc =>
        let '(r, sc') := m sc in
        (r, set_heap (<[this := sc']> (heap st)) st)
    | None => (Throw (TypeError "not a scene"), st)
    end.

(** Whether the function went on or hit a [return]. *)
Inductive flow := Continue | Returned.

(** One of the four direction blocks in the body of [updateEntities]:
    [if (pEnt.directions.includes(dir)) { if (blocked on side) return;
    pEnt.position... = ...; }] *)
Definition direction_block (dir : string) (side : Side) (move : Quat.t -> Quat.t)
  : M Actor flow :=
  fun pEnt =>
    if js_includes dir (directions pEnt) then
      match getIsColliding pEnt with
      | Throw e => (Throw e, pEnt)
      | Ret c =>
          if isColliding c && Side_eqb (collisionDirection c) side
          then (Ret Returned, pEnt)
          else (Ret Continue, set_position (move (position pEnt)) pEnt)
      end
    else (Ret Continue, pEnt).

Definition and_then (m k : M Actor flow) : M Actor flow :=
  let! f := m in
  match f with
  | Returned => ret Returned
  | Continue => k
  end.

(** The body of the [for] loop of [updateEntities], once the entity is found. *)
Definition move_entity : M Actor flow :=
  fun pEnt =>
    if (0 <? length (directions pEnt))%nat then
      and_then (direction_block "up" Top (fun q => Quat.set_y (Quat.y q - playerSpeed) q))
     (and_then (direction_block "down" Bottom (fun q => Quat.set_y (Quat.y q + playerSpeed) q))
     (and_then (direction_block "left" Left (fun q => Quat.set_x (Quat.x q - playerSpeed) q))
               (direction_block "right" Right (fun q => Quat.set_x (Quat.x q + playerSpeed) q))))
        pEnt
    else (Ret Continue, pEnt).

(** [for (const player of players) { ... }] over the entities of the
    current scene; a [return] in the body leaves the whole function. *)
Fixpoint updateEntities_loop (players : list ServerTransmitEntities.t) : M (list Actor) unit :=
  match players with
  | [] => ret tt
  | player :: rest =>
      fun ents =>
        match find_pos (fun entity => String.eqb (uuid entity) (ServerTransmitEntities.id player)) ents with
        | None => (Throw (TypeError "Cannot read properties of undefined (reading 'directions')"), ents)
        | Some i =>
            match ents !! i with
            | None => (Throw (TypeError "Cannot read properties of undefined (reading 'directions')"), ents)
            | Some pEnt =>
                match move_entity pEnt with
                | (Ret Continue, pEnt') => updateEntities_loop rest (<[i := pEnt']> ents)
                | (Ret Returned, pEnt') => (Ret tt, <[i := pEnt']> ents)
                | (Throw e, pEnt') => (Throw e, <[i := pEnt']> ents)
                end
            end
        end
  end.

(** [roomState.gameEngine.currentScene.entities] as mutable state. *)
Definition in_currentScene {A} (m : M (list Actor) A) : M Stage A :=
  let! c := current in
  in_scene c (fun sc => let '(r, ents) := m (entities sc) in (r, set_entities ents sc)).

(** [updateEntities(room)] *)
Definition updateEntities (room : option RoomId) : M Server unit :=
  fun sv =>
    match rooms sv !! room_key room with
    | None => (Throw (TypeError "Cannot read properties of undefined (reading 'players')"), sv)
    | Some roomState =>
        in_engine (room_key room)
          (in_currentScene (updateEntities_loop (WorldState.players roomState))) sv
    end.

Definition snapshot_of (player : Actor) : PlayerSnapshot.t :=
  PlayerSnapshot.mk (name player) (uuid player)
    (Quat.mk (Vector.x (pos player)) (Vector.y (pos player)) 0 0).

Definition broadcastMessage (room : option RoomId) (u : Update) : M Server unit :=
  modify (fun sv => mkServer (rooms sv) (outbox sv ++ [(room, u)])).

(** [MainScene.onPreUpdate(engine, elapsedMs)], with [this.room] as [room]. *)
Definition MainScene_onPreUpdate (room : option RoomId) : M Server unit :=
  updateEntities room;;
  let! roomEntities :=
    in_engine (room_key room) (in_currentScene (gets (fun ents => ents))) in
  let snapshot := map snapshot_of roomEntities in
  broadcastMessage room (mkUpdate snapshot room).

(** [Logger.warnOnce]: a message already logged is not logged again. *)
Definition warnOnce (msg : string) : M Stage unit :=
  let! l := gets log in
  if bool_decide ((Warn, msg) ∈ l) then ret tt else logger Warn msg.

(** [Scene.removeTimer(timer)] *)
Definition Scene_removeTimer (timer : Timer) (this : Scene) : Scene :=
  match find_pos (fun t => Nat.eqb (timer_id t) (timer_id timer)) (_timers this) with
  | Some i => set__timers (js_splice (Z.of_nat i) 1 (_timers this)) this
  | None => this
  end.

(** The timer part of [Scene.update]: the cancel queue is flushed, then
    every remaining timer is advanced. *)
Definition Scene_updateTimers (elapsed : Q) (this : Scene) : Scene :=
  let this := foldl (fun sc t => Scene_removeTimer t sc) this (_cancelQueue this) in
  let this := set__cancelQueue [] this in
  set__timers
    (map (fun t => mkTimer (timer_id t) (timer_elapsed t + elapsed)) (_timers this)) this.

Section Tick.
(** [World.update(SystemType.Update, elapsed)]: World.ts, the motion and
    collision systems are not among the sources; the pass is a parameter
    acting on the scene it belongs to. *)
Variable World_update : Q -> M Scene unit.

(** The overridable [Scene.onPreUpdate], dispatched on the scene's class. *)
Definition Scene_onPreUpdate (e : RoomId) (this : SceneRef) : M Server unit :=
  let! sc := in_engine e (deref this) in
  match ctor sc with
  | MainScene => MainScene_onPreUpdate (room sc)
  | _ => ret tt
  end.

(** [Scene.update(engine, elapsed)] for the scene [this] of the engine of
    room [e]. *)
Definition Scene_update (e : RoomId) (this : SceneRef) (elapsed : Q) : M Server unit :=
  let! sc := in_engine e (deref this) in
  if negb (_isInitialized sc) then
    in_engine e
      (let! n := Director_getSceneName this in
       warnOnce ("Scene update called before initialize for scene " ++ show_name n ++ "!"))
  else
    in_engine e (record (SceneEmit this "preupdate"));;
    Scene_onPreUpdate e this;;
    in_engine e (in_scene this (modify (Scene_updateTimers elapsed)));;
    in_engine e (in_scene this (World_update elapsed));;
    in_engine e (record (SceneEmit this "postupdate")).

(** [Engine._update(elapsed)] for the engine of room [e]. *)
Definition Engine__update (e : RoomId) (elapsed : Q) : M Server unit :=
  in_engine e (record (EngineEmit "preupdate"));;
  (let! c := in_engine e current in Scene_update e c elapsed);;
  in_engine e (record (EngineEmit "postupdate")).
End Tick.

(** Modelled from the spec: one [World.update] pass (World.ts and
    CollisionSystem.ts are not among the sources).  Every [ClientActor] runs
    its [onPreUpdate]; then, for each contact the collision system found
    this tick (the uuids of the two actors and the side), the passive actor
    receives [onCollisionStart]. *)
Definition World_update_contacts (contacts : list (string * string * Side)) (elapsed : Q)
  : M Scene unit :=
  let pre (a : Actor) :=
    match class a with
    | ClientActor => ClientActor_onPreUpdate a
    | NPCActor => a
    end in
  let collide (ents : list Actor) (c : string * string * Side) :=
    let '(selfId, otherId, side) := c in
    match js_find (fun a => String.eqb (uuid a) otherId) ents with
    | None => ents
    | Some otherActor =>
        map (fun a =>
               if String.eqb (uuid a) selfId then
                 match class a with
                 | ClientActor => ClientActor_onCollisionStart otherActor side a
                 | NPCActor => a
                 end
               else a) ents
    end in
  modify (fun sc => set_entities (foldl collide (map pre (entities sc)) contacts) sc).

(** Modelled from the spec: [Entity.kill()] (Entity.ts is not among the
    sources) clears the entity's active flag. *)
Definition Entity_kill (this : Actor) : Actor := set_isActive false this.

(** [unsubscribeUser(roomId, userId)] *)
Definition unsubscribeUser (roomId userId : string) : M Server unit :=
  fun sv =>
    match rooms sv !! roomId with
    | None => (Ret tt, sv)
    | Some room =>
        let indexPlayertoDelete :=
          js_findIndex (fun player => String.eqb (ServerTransmitEntities.networkId player) userId)
                       (WorldState.players room) in
        let kill : M (list Actor) unit :=
          modify (fun ents =>
            match find_pos (fun entity => String.eqb (name entity) userId) ents with
            | Some i => alter Entity_kill i ents
            | None => ents
            end) in
        match in_engine roomId (in_currentScene kill) sv with
        | (Ret _, sv1) =>
            let splice (ws : WorldState.t) :=
              WorldState.set_players (js_splice indexPlayertoDelete 1 (WorldState.players ws)) ws in
            (Ret tt, set_rooms (alter splice roomId (rooms sv1)) sv1)
        | (Throw e, sv1) => (Throw e, sv1)
        end
    end.

(** A client message: [{ type, direction }] with two strings. *)
Record Message := mkMessage { type : string; direction : string }.

(** What [JSON.parse(decoder.decode(data))] makes of the bytes received, as
    far as [onMessage] can tell: the text is not JSON; it is [null]; it is
    a message; or it is any other JSON value whose [type] property is
    loosely equal to neither "keypress" nor "keyrelease" (a number, a
    string, an array, an object of another shape).  A [direction] that is
    not a string is outside the model, in which held directions are
    strings. *)
Inductive Payload :=
| NotJson
| JsonNull
| JsonOther
| JsonMessage (msg : Message).

(** The messages the client sends are the JSON texts of [Message]s. *)
Coercion JsonMessage : Message >-> Payload.

(** [onMessage(roomId, userId, data)] *)
Definition onMessage (roomId userId : string) (data : Payload) : M Server unit :=
  match data with
  | NotJson => throw (JsError "SyntaxError: Unexpected token in JSON")
  | JsonNull | JsonOther | JsonMessage _ =>
      let route : M (list Actor) unit :=
        fun ents =>
          match find_pos (fun entity => String.eqb (name entity) userId) ents with
          | None => (Ret tt, ents)
          | Some i =>
              match data with
              | JsonNull =>
                  (Throw (TypeError "Cannot read properties of null (reading 'type')"), ents)
              | NotJson | JsonOther => (Ret tt, ents)
              | JsonMessage msg =>
                  let press (a : Actor) :=
                    if negb (js_includes (direction msg) (directions a))
                    then mkActor (class a) (name a) (uuid a) (pos a) (width a) (height a)
                           (collisionType a) (position a) (directions a ++ [direction msg])
                           (speed a) (collisionData a) (npcs a) (isInitialized a) (isActive a)
                    else a in
                  let release (a : Actor) :=
                    match find_pos (String.eqb (direction msg)) (directions a) with
                    | Some j =>
                        mkActor (class a) (name a) (uuid a) (pos a) (width a) (height a)
                          (collisionType a) (position a)
                          (js_splice (Z.of_nat j) 1 (directions a)) (speed a)
                          (collisionData a) (npcs a) (isInitialized a) (isActive a)
                    | None => a
                    end in
                  (Ret tt,
                   if String.eqb (type msg) "keypress" then alter press i ents
                   else if String.eqb (type msg) "keyrelease" then alter release i ents
                   else ents)
              end
          end in
      in_engine roomId (in_currentScene route)
  end.

(** ** Observations used to state properties *)

(** Whether an event is a call of the user override [onInitialize] on the
    scene [this]. *)
Definition is_onInitialize (this : SceneRef) (ev : Event) : bool :=
  match ev with
  | OnInitialize t _ => bool_decide (t = this)
  | _ => false
  end.

(** How often [onInitialize] has run on [this]. *)
Definition count_onInitialize (this : SceneRef) (t : list Event) : nat :=
  length (filter (fun ev => is_onInitialize this ev = true) t).

(** Whether an event is a call of one of the three scene lifecycle hooks. *)
Definition is_lifecycle (ev : Event) : bool :=
  match ev with
  | OnInitialize _ _ | OnActivate _ _ _ | OnDeactivate _ _ _ => true
  | _ => false
  end.

(** The entities of the current scene of [rooms[key].gameEngine]. *)
Definition room_entities (key : RoomId) (sv : Server) : option (list Actor) :=
  ws ← rooms sv !! key;
  sc ← heap (WorldState.gameEngine ws) !! currentScene (director (WorldState.gameEngine ws));
  Some (entities sc).

(** The [players] list of [rooms[key]]. *)
Definition room_players (key : RoomId) (sv : Server) : option (list ServerTransmitEntities.t) :=
  WorldState.players <$> rooms sv !! key.

(** The Director's pointers in a given state. *)
Definition observed (s : Stage) : Observed :=
  mkObserved (currentScene (director s)) (currentSceneName (director s)).

(** The scene instance or class a registry entry stands for. *)
Definition registered_value (def : SceneDef) : SceneOrCtor :=
  match def with
  | Plain v => v
  | WithOptions scene => scene
  end.

(** What the hooks that run after the Director has switched to the scene
    [Y] under the name [dest] look like: they belong to [Y], they see the
    pointers at [Y], and no scene is deactivated any more. *)
Definition after_switch (Y : SceneRef) (dest : string) (ev : Event) : Prop :=
  match ev with
  | OnInitialize t o => t = Y /\ o = mkObserved Y dest
  | OnActivate t _ o => t = Y /\ o = mkObserved Y dest
  | OnDeactivate _ _ _ => False
  | _ => True
  end.

(** Engine code that leaves the director and the layout of the heap alone
    and only adds events satisfying [P] to the trace. *)
Definition quiet (P : Event -> Prop) (s s' : Stage) : Prop :=
  director s' = director s /\ layout (heap s') = layout (heap s)
  /\ exists evs, trace s' = (trace s ++ evs)%list /\ Forall P evs.

(** Engine code that only adds events satisfying [P] to the trace. *)
Definition emits (P : Event -> Prop) (s s' : Stage) : Prop :=
  exists evs, trace s' = (trace s ++ evs)%list /\ Forall P evs.

(** The activation data an [onActivate] call was given. *)
Definition activated_with (d : option ActivationData) (ev : Event) : Prop :=
  match ev with
  | OnActivate _ ctx _ => data ctx = d
  | _ => True
  end.



(** ** Scenarios *)

(** Modelled from the spec: [Scene.add(entity)] hands the entity to the
    world (World.ts is not among the sources), which appends it to the
    entities of the scene. *)
Definition Scene_add (entity : Actor) (this : Scene) : Scene :=
  set_entities (entities this ++ [entity]) this.

Definition set_directions (l : list string) (a : Actor) : Actor :=
  mkActor (class a) (name a) (uuid a) (pos a) (width a) (height a) (collisionType a)
          (position a) l (speed a) (collisionData a) (npcs a)
          (isInitialized a) (isActive a).

(** The engine of a room as [subscribeUser] sets it up: the scene map
    [{ main: MainScene }], the engine started, then [goToScene("main",
    { sceneActivationData: { roomId } })]. *)
Definition room_stage (roomId : RoomId) : Stage :=
  let s := snd (Director_new [("main", Plain (Ctor MainScene))] []) in
  let s := snd (Director_onInitialize s) in
  snd (Engine_goToScene "main" (Some (mkGoToOptions (Some (mkActivationData roomId)))) s).

(** A room whose current scene holds the given actors, each with its entry
    in [players] ([networkId] is the actor's name for a client, empty for
    an NPC, as [subscribeUser] fills it in). *)
Definition player_entry (a : Actor) : ServerTransmitEntities.t :=
  ServerTransmitEntities.mk (uuid a)
    match class a with ClientActor => name a | NPCActor => "" end
    (position a).

Definition room_state (roomId : RoomId) (actors : list Actor) : WorldState.t :=
  let st := room_stage roomId in
  let st := snd (in_currentScene
                   (modify (fun ents : list Actor => (ents ++ actors)%list)) st) in
  WorldState.mk (map player_entry actors) st roomId 0.

Definition room_with (roomId : RoomId) (actors : list Actor) : Server :=
  mkServer {[ roomId := room_state roomId actors ]} [].

(** Alice holds "up" and "left" while blocked at the top by an NPC; Bob,
    processed after her, holds "right". *)
Definition alice_blocked : Actor :=
  set_collisionData (mkCollisionData true Top (Some "npc-1"))
    (set_directions ["up"; "left"] (ClientActor_new "alice" "uuid-alice" 100 100)).

Definition bob : Actor :=
  set_directions ["right"] (ClientActor_new "bob" "uuid-bob" 300 300).

Definition npc_above : Actor := NPCActor_new "npc-1" 100 76.

Definition blocked_room : Server := room_with "room-1" [npc_above; alice_blocked; bob].

(** Carol moves down into an NPC: she stands at (100, 98), the NPC at
    (100, 124). *)
Definition carol : Actor :=
  set_directions ["down"] (ClientActor_new "carol" "uuid-carol" 100 98).

Definition npc_below : Actor := NPCActor_new "npc-2" 100 124.

Definition collision_room : Server := room_with "room-2" [carol; npc_below].

(** Alice as above, but touching nothing. *)
Definition alice_free : Actor :=
  set_directions ["up"; "left"] (ClientActor_new "alice" "uuid-alice" 100 100).

Definition free_room : Server := room_with "room-1" [npc_above; alice_free; bob].

(** Dave stands at (100, 100) directly above an NPC at (100, 124) and
    holds "down". *)
Definition dave : Actor :=
  set_directions ["down"] (ClientActor_new "dave" "uuid-dave" 100 100).

(** The room of Alice and Bob after three [unsubscribeUser] calls for a
    user who is not in it. *)
Definition drained_room : Server :=
  snd (unsubscribeUser "room-1" "ghost"
    (snd (unsubscribeUser "room-1" "ghost"
      (snd (unsubscribeUser "room-1" "ghost" blocked_room))))).

(** The [networkId] test of [unsubscribeUser]. *)
Definition is_user (userId : string) (player : ServerTransmitEntities.t) : bool :=
  String.eqb (ServerTransmitEntities.networkId player) userId.

(** The Director of a room right after construction: nothing initialized. *)
Definition fresh_stage : Stage :=
  snd (Director_new [("main", Plain (Ctor MainScene))] []).

(** The same Director once the engine has started: the root scene is
    current and initialized. *)
Definition started_stage : Stage := snd (Director_onInitialize fresh_stage).

(** A Director with a lobby scene registered as an instance (at address 0)
    that already holds two actors and has not been initialized. *)
Definition lobby_stage : Stage :=
  snd (Director_new [("lobby", Plain (Instance 0))]
         [mkScene (UserScene 7 no_overrides) false [npc_above; alice_free] [] [] None]).

(** The claim that the Director's pointers still designate [X] whenever a
    scene's [onInitialize] or [onActivate] runs. *)
Definition sees_previous (X : SceneRef) (ev : Event) : Prop :=
  match ev with
  | OnInitialize _ o => seenScene o = X
  | OnActivate _ _ o => seenScene o = X
  | _ => True
  end.

(** ** Further parts of the engine *)

(** [Director.getDeferredScene()] *)
Definition Director_getDeferredScene (d : Director) : option SceneOrCtor :=
  let maybeDeferred := Director_getSceneDefinition (default "undefined" (_deferredGoto d)) d in
  match _deferredGoto d, maybeDeferred with
  | Some g, Some v => if String.eqb g "" then None else Some v
  | _, _ => None
  end.

(** [Scene.add(entity)] for an entity that is not a timer: the event, then
    the world takes the entity (see [Scene_add]). *)
Definition Scene_add_entity (this : SceneRef) (entity : Actor) : M Stage unit :=
  let! _ := deref this in
  record (SceneEmit this "entityadded");;
  update_scene this (Scene_add entity).

(** [Engine.add(entity)] with one argument. *)
Definition Engine_add (entity : Actor) : M Stage unit :=
  let! d := gets director in
  match Director_getDeferredScene d with
  | Some (Instance maybeDeferred) => Scene_add_entity maybeDeferred entity
  | _ => let! c := current in Scene_add_entity c entity
  end.

(** Events of scenes and their actors, as opposed to those the Director or
    the Engine emit. *)
Definition scene_level (ev : Event) : Prop :=
  match ev with
  | DirectorEmit _ _ _ | EngineEmit _ => False
  | _ => True
  end.

(** A Director with a scene class whose [onInitialize] throws, the engine
    started. *)
Definition faulty_scene : SceneConstructor := UserScene 1 (mkOverrides true false false).

Definition faulty_stage : Stage :=
  snd (Director_onInitialize
         (snd (Director_new [("main", Plain (Ctor MainScene));
                             ("bad", Plain (Ctor faulty_scene))] []))).

(** [Scene.addTimer(timer)] *)
Definition Scene_addTimer (timer : Timer) (this : Scene) : Scene :=
  set__timers (_timers this ++ [timer]) this.

(** [Scene.cancelTimer(timer)] *)
Definition Scene_cancelTimer (timer : Timer) (this : Scene) : Scene :=
  set__cancelQueue (_cancelQueue this ++ [timer]) this.

(** How many times the timer object [id] occurs in an array of timers. *)
Definition timer_occurrences (id : nat) (l : list Timer) : nat :=
  length (filter (fun t => timer_id t = id) l).

(** Whether the box of [this] touches the box of [otherActor] exactly on
    the given side of [this]. *)
Definition touches (side : Side) (this otherActor : Actor) : Prop :=
  match side with
  | SideNone => True
  | Top => Vector.y (pos this) = (Vector.y (pos otherActor) + height otherActor)%Z
  | Bottom => (Vector.y (pos this) + height this)%Z = Vector.y (pos otherActor)
  | Left => Vector.x (pos this) = (Vector.x (pos otherActor) + width otherActor)%Z
  | Right => (Vector.x (pos this) + width this)%Z = Vector.x (pos otherActor)
  end.

(** The transform agrees with [position], as [onPreUpdate] leaves it. *)
Definition in_sync (a : Actor) : Prop :=
  pos a = Vector.mk (Quat.x (position a)) (Quat.y (position a)).

(** 1 when the actor holds the direction, 0 otherwise. *)
Definition held (dir : string) (a : Actor) : Z :=
  if js_includes dir (directions a) then 1%Z else 0%Z.

(** The direction that moves an actor towards a contact on the given
    side. *)
Definition side_direction (s : Side) : option string :=
  match s with
  | Top => Some "up"
  | Bottom => Some "down"
  | Left => Some "left"
  | Right => Some "right"
  | SideNone => None
  end.

(** Whether the actor is colliding and holds the direction of the
    contact. *)
Definition pushes_into_contact (a : Actor) : bool :=
  isColliding (collisionData a)
  && match side_direction (collisionDirection (collisionData a)) with
     | Some d => js_includes d (directions a)
     | None => false
     end.

(** ** The client's local actor (src/client/src/Actors/networkActor.ts) *)

Module NetworkedActor.
(** The held directions of a local [NetworkedActor] and the variable
    [tempdir] that the two keyboard handlers installed by [onInitialize]
    share. *)
Record t := mk { directions : list string; tempdir : string }.

Definition push (d : string) (l : list string) : list string :=
  if negb (js_includes d l) then (l ++ [d])%list else l.

(** [if (l.includes(d)) l.splice(l.indexOf(d), 1)] *)
Definition splice_out (d : string) (l : list string) : list string :=
  match find_pos (String.eqb d) l with
  | Some j => js_splice (Z.of_nat j) 1 l
  | None => l
  end.

(** The "press" handler; the message is what goes to [hClient.sendJson]. *)
Definition on_press (key : string) (this : t) : t * Message :=
  let this :=
    if String.eqb key "ArrowUp" then mk (push "up" (directions this)) "up"
    else if String.eqb key "ArrowDown" then mk (push "down" (directions this)) "down"
    else if String.eqb key "ArrowLeft" then mk (push "left" (directions this)) "left"
    else if String.eqb key "ArrowRight" then mk (push "right" (directions this)) "right"
    else this in
  (this, mkMessage "keypress" (tempdir this)).

(** The "release" handler. *)
Definition on_release (key : string) (this : t) : t * Message :=
  let this :=
    if String.eqb key "ArrowUp" then mk (splice_out "up" (directions this)) "up"
    else if String.eqb key "ArrowDown" then mk (splice_out "down" (directions this)) "down"
    else if String.eqb key "ArrowLeft" then mk (splice_out "left" (directions this)) "left"
    else if String.eqb key "ArrowRight" then mk (splice_out "right" (directions this)) "right"
    else this in
  (this, mkMessage "keyrelease" (tempdir this)).
End NetworkedActor.

(** A keyboard event of the client. *)
Inductive KeyEvent := KeyPress (key : string) | KeyRelease (key : string).

Definition handle (ev : KeyEvent) : NetworkedActor.t -> NetworkedActor.t * Message :=
  match ev with
  | KeyPress key => NetworkedActor.on_press key
  | KeyRelease key => NetworkedActor.on_release key
  end.

Definition is_arrow (ev : KeyEvent) : Prop :=
  let key := match ev with KeyPress k | KeyRelease k => k end in
  key = "ArrowUp" \/ key = "ArrowDown" \/ key = "ArrowLeft" \/ key = "ArrowRight".

(** The client handles key events one by one; each message it sends
    reaches [onMessage] of the server before the next event. *)
Fixpoint play (roomId userId : string) (evs : list KeyEvent) (c : NetworkedActor.t)
  : M Server NetworkedActor.t :=
  match evs with
  | [] => ret c
  | ev :: evs' =>
      onMessage roomId userId (snd (handle ev c));;
      play roomId userId evs' (fst (handle ev c))
  end.

(** The entity [onMessage] finds for a user: the first entity of the
    room's current scene with that name. *)
Definition player_of (roomId userId : string) (sv : Server) : option Actor :=
  ents ← room_entities roomId sv;
  js_find (fun entity => String.eqb (name entity) userId) ents.

(** What a message does to the held directions of the entity it reaches. *)
Definition apply_message (msg : Message) (l : list string) : list string :=
  if String.eqb (type msg) "keypress" then NetworkedActor.push (direction msg) l
  else if String.eqb (type msg) "keyrelease" then NetworkedActor.splice_out (direction msg) l
  else l.

(** A room whose main scene was entered without activation data, so that
    [MainScene.room] was never set. *)
Definition roomless_stage : Stage :=
  snd (Engine_goToScene "main" None started_stage).

Definition roomless_server : Server :=
  mkServer {[ "room-1" := WorldState.mk [] roomless_stage "room-1" 0 ]} [].

(** ** The Hathora client (src/client/src/Lib/HathoraPlugin.ts) *)

Module Hathora.

Inductive HathoraConnectionStatus := loggedOut | loggedIn | Connected.

(** [LobbyVisibility] of the cloud SDK. *)
Inductive LobbyVisibility := Private | Public | Local.

Record LobbyV3 := mkLobbyV3 { roomId : string; visibility : LobbyVisibility }.

Record PlayerTokenObject := mkPlayerTokenObject { token : string }.

(** [HathoraLobbyConfig]; the region and the room configuration only go to
    the lobby service. *)
Record HathoraLobbyConfig := mkHathoraLobbyConfig { config_visibility : LobbyVisibility }.

Inductive WriteKind := Raw | Str | Json.

(** A [HathoraConnection]: the room it was created for, what has been
    handed to its write methods, and whether [disconnect] was called. *)
Record HathoraConnection := mkHathoraConnection {
  connection_room : string;
  written : list (WriteKind * string);
  disconnected : bool
}.

(** The mutable fields of [ExcaliburHathoraClient]; [_connectionInfo] is
    kept by the [roomId] it would hold. *)
Record ExcaliburHathoraClient := mkClient {
  _userid : option string;
  _loginResponse : option PlayerTokenObject;
  _publicLobbies : list LobbyV3;
  _privateLobbies : list LobbyV3;
  _connectionInfo : option string;
  _connection : option HathoraConnection;
  _roomId : option string;
  _connectionStatus : HathoraConnectionStatus
}.

Definition set__userid (v : option string) (c : ExcaliburHathoraClient) :=
  mkClient v (_loginResponse c) (_publicLobbies c) (_privateLobbies c) (_connectionInfo c)
           (_connection c) (_roomId c) (_connectionStatus c).
Definition set__loginResponse (v : option PlayerTokenObject) (c : ExcaliburHathoraClient) :=
  mkClient (_userid c) v (_publicLobbies c) (_privateLobbies c) (_connectionInfo c)
           (_connection c) (_roomId c) (_connectionStatus c).
Definition set__publicLobbies (v : list LobbyV3) (c : ExcaliburHathoraClient) :=
  mkClient (_userid c) (_loginResponse c) v (_privateLobbies c) (_connectionInfo c)
           (_connection c) (_roomId c) (_connectionStatus c).
Definition set__privateLobbies (v : list LobbyV3) (c : ExcaliburHathoraClient) :=
  mkClient (_userid c) (_loginResponse c) (_publicLobbies c) v (_connectionInfo c)
           (_connection c) (_roomId c) (_connectionStatus c).
Definition set__connectionInfo (v : option string) (c : ExcaliburHathoraClient) :=
  mkClient (_userid c) (_loginResponse c) (_publicLobbies c) (_privateLobbies c) v
           (_connection c) (_roomId c) (_connectionStatus c).
Definition set__connection (v : option HathoraConnection) (c : ExcaliburHathoraClient) :=
  mkClient (_userid c) (_loginResponse c) (_publicLobbies c) (_privateLobbies c)
           (_connectionInfo c) v (_roomId c) (_connectionStatus c).
Definition set__roomId (v : option string) (c : ExcaliburHathoraClient) :=
  mkClient (_userid c) (_loginResponse c) (_publicLobbies c) (_privateLobbies c)
           (_connectionInfo c) (_connection c) v (_connectionStatus c).
Definition set__connectionStatus (v : HathoraConnectionStatus) (c : ExcaliburHathoraClient) :=
  mkClient (_userid c) (_loginResponse c) (_publicLobbies c) (_privateLobbies c)
           (_connectionInfo c) (_connection c) (_roomId c) v.

(** [new ExcaliburHathoraClient(clientConfig)] *)
Definition new : ExcaliburHathoraClient :=
  mkClient None None [] [] None None None loggedOut.

(** An awaited call of the SDK: its result, or its rejection, is given by
    the caller. *)
Definition await {A} (result : outcome A) : M ExcaliburHathoraClient A :=
  fun c => (result, c).

(** The body shared by [loginAnonymous], [loginGoogle] and
    [loginNickName]: [response] is what the auth service answers, [user]
    what [HathoraClient.getUserFromToken(token).id] gives. *)
Definition login (response : outcome PlayerTokenObject) (user : outcome string)
  : M ExcaliburHathoraClient PlayerTokenObject :=
  let! r := await response in
  modify (set__loginResponse (Some r));;
  (if negb (String.eqb (token r) "")
   then modify (set__connectionStatus loggedIn) else ret tt);;
  let! id := await user in
  modify (set__userid (Some id));;
  ret r.

Definition loginAnonymous := login.
Definition loginGoogle (googleId : string) := login.
Definition loginNickName (nickName : string) := login.

Definition logout : M ExcaliburHathoraClient unit :=
  modify (set__loginResponse None);;
  modify (set__connectionStatus loggedOut);;
  modify (set__userid (Some "")).

(** The two checks that open every lobby method but [leaveLobby]. *)
Definition logged_in : M ExcaliburHathoraClient PlayerTokenObject :=
  fun c =>
    match _connectionStatus c with
    | loggedIn =>
        match _loginResponse c with
        | Some r => (Ret r, c)
        | None => (Throw (JsError "No user logged in"), c)
        end
    | _ => (Throw (JsError "No user logged in"), c)
    end.

Definition createLobby (lobbyConfig : HathoraLobbyConfig) (lobbyResult : outcome LobbyV3)
  : M ExcaliburHathoraClient LobbyV3 :=
  logged_in;;
  let! lobbyResult := await lobbyResult in
  match config_visibility lobbyConfig with
  | Private | Local =>
      modify (fun c => set__privateLobbies (_privateLobbies c ++ [lobbyResult])%list c)
  | Public => ret tt
  end;;
  ret lobbyResult.

Definition fetchPublicLobbies (lobbies : outcome (list LobbyV3))
  : M ExcaliburHathoraClient (list LobbyV3) :=
  logged_in;;
  let! l := await lobbies in
  modify (set__publicLobbies l);;
  ret l.

Definition fetchPrivateLocalLobbies : M ExcaliburHathoraClient (list LobbyV3) :=
  logged_in;;
  gets _privateLobbies.

Definition getLobbyInfo (roomId : string) (info : outcome LobbyV3)
  : M ExcaliburHathoraClient LobbyV3 :=
  logged_in;;
  await info.

(** [joinLobby(room)]: [exposedPort] is the [exposedPort] of what the room
    service answers (it may be undefined), [connect] the outcome of
    [connection.connect(token)]. *)
Definition joinLobby (room : LobbyV3) (exposedPort : outcome (option unit))
    (connect : outcome unit) : M ExcaliburHathoraClient unit :=
  logged_in;;
  let! connectionInfo :=
    match visibility room with
    | Local => ret (Some tt)          (* [this._connectionDetails] *)
    | _ => await exposedPort
    end in
  match connectionInfo with
  | Some _ =>
      modify (set__roomId (Some (roomId room)));;
      modify (set__connection (Some (mkHathoraConnection (roomId room) [] false)));;
      await connect
  | None => ret tt
  end.

(** The [onClose] callback that [joinLobby] installs on the connection. *)
Definition onClose : M ExcaliburHathoraClient unit :=
  modify (set__connection None);;
  modify (set__roomId None);;
  modify (set__connectionInfo None).

(** A string or null that is truthy. *)
Definition nonempty (s : option string) : bool :=
  match s with
  | Some s => negb (String.eqb s "")
  | None => false
  end.

Definition leaveLobby : M ExcaliburHathoraClient unit :=
  fun c =>
    match _connectionStatus c with
    | Connected =>
        match _loginResponse c with
        | None => (Throw (JsError "No user logged in"), c)
        | Some _ =>
            if negb (nonempty (_connectionInfo c)) then (Ret tt, c)
            else if negb (nonempty (_roomId c)) then (Ret tt, c)
            else
              let c :=
                match _connection c with
                | Some k =>
                    set__connection
                      (Some (mkHathoraConnection (connection_room k) (written k) true)) c
                | None => c
                end in
              (Ret tt, set__roomId None c)
        end
    | _ => (Throw (JsError "User not connected to room"), c)
    end.

(** The body shared by [send], [sendString] and [sendJson]. *)
Definition write (kind : WriteKind) (data : string) : M ExcaliburHathoraClient unit :=
  fun c =>
    match _connection c with
    | None => (Ret tt, c)
    | Some k =>
        if negb (nonempty (_roomId c)) then (Ret tt, c)
        else (Ret tt,
              set__connection
                (Some (mkHathoraConnection (connection_room k)
                         (written k ++ [(kind, data)])%list (disconnected k))) c)
    end.

Definition send := write Raw.
Definition sendString := write Str.
Definition sendJson := write Json.

(** What can happen to a client: a call of one of its methods, with the
    answers of the services it awaits, or the close of its connection. *)
Inductive Op :=
| LoginAnonymous (response : outcome PlayerTokenObject) (user : outcome string)
| LoginGoogle (googleId : string) (response : outcome PlayerTokenObject) (user : outcome string)
| LoginNickName (nickName : string) (response : outcome PlayerTokenObject) (user : outcome string)
| Logout
| CreateLobby (lobbyConfig : HathoraLobbyConfig) (lobbyResult : outcome LobbyV3)
| FetchPublicLobbies (lobbies : outcome (list LobbyV3))
| FetchPrivateLocalLobbies
| GetLobbyInfo (roomId : string) (info : outcome LobbyV3)
| JoinLobby (room : LobbyV3) (exposedPort : outcome (option unit)) (connect : outcome unit)
| Closed
| LeaveLobby
| Send (data : string)
| SendString (data : string)
| SendJson (data : string).

(** The client after the operation, whether it returned or threw. *)
Definition after (op : Op) (c : ExcaliburHathoraClient) : ExcaliburHathoraClient :=
  match op with
  | LoginAnonymous r u => snd (loginAnonymous r u c)
  | LoginGoogle g r u => snd (loginGoogle g r u c)
  | LoginNickName n r u => snd (loginNickName n r u c)
  | Logout => snd (logout c)
  | CreateLobby cfg l => snd (createLobby cfg l c)
  | FetchPublicLobbies l => snd (fetchPublicLobbies l c)
  | FetchPrivateLocalLobbies => snd (fetchPrivateLocalLobbies c)
  | GetLobbyInfo r i => snd (getLobbyInfo r i c)
  | JoinLobby room p k => snd (joinLobby room p k c)
  | Closed => snd (onClose c)
  | LeaveLobby => snd (leaveLobby c)
  | Send d => snd (send d c)
  | SendString d => snd (sendString d c)
  | SendJson d => snd (sendJson d c)
  end.

Definition history (ops : list Op) : ExcaliburHathoraClient := foldl (fun c op => after op c) new ops.

End Hathora.

(** What a snapshot or a collision reads of an actor. *)
Definition placement (a : Actor) : string * string * Quat.t * Vector.t :=
  (uuid a, name a, position a, pos a).

(** The scene objects of [s] are all still there in [s'], each of the same
    class, holding the same entities at the same places and the same
    timers. *)
Definition same_population (s s' : Stage) : Prop :=
  forall r sc, heap s !! r = Some sc ->
    exists sc', heap s' !! r = Some sc' /\ ctor sc' = ctor sc
      /\ map placement (entities sc') = map placement (entities sc)
      /\ _timers sc' = _timers sc /\ _cancelQueue sc' = _cancelQueue sc.

(** * Properties *)

Open Scope list_scope.

(** ** The fixed-step loop *)

Import EngineLoop.

Section EngineLoopFacts.
Local Open Scope Q_scope.

Lemma Qnat_S n : Qnat (S n) == Qnat n + 1.
Proof. unfold Qnat. rewrite Nat2Z.inj_succ, <- Z.add_1_r, inject_Z_plus. reflexivity. Qed.

Lemma Qnat_0 : Qnat 0 == 0.
Proof. reflexivity. Qed.

Lemma Qnat_nonneg n : 0 <= Qnat n.
Proof. unfold Qnat. change 0 with (inject_Z 0). rewrite <- Zle_Qle. lia. Qed.

Lemma Qnat_le n m : Qnat n <= Qnat m -> (n <= m)%nat.
Proof. unfold Qnat. rewrite <- Zle_Qle. lia. Qed.


(** Two multiples of a positive step that lie less than a step apart
    are ordered like their factors. *)
Lemma steps_lt (ts : Q) (m n : nat) :
  0 < ts -> Qnat m * ts < (Qnat n + 1) * ts -> (m <= n)%nat.
Proof.
  intros Hts H.
  destruct (Nat.le_gt_cases m n) as [|Hgt]; [assumption|exfalso].
  assert (Hq : Qnat n + 1 <= Qnat m).
  { rewrite <- Qnat_S. unfold Qnat. rewrite <- Zle_Qle. lia. }
  apply (Qmult_le_compat_r _ _ ts) in Hq; [|lra]. lra.
Qed.



Lemma floor_step_interval (ts x : Q) :
  0 < ts -> 0 <= x ->
  Qnat (Z.to_nat (Qfloor (x / ts))) * ts <= x
  /\ x < (Qnat (Z.to_nat (Qfloor (x / ts))) + 1) * ts.
Proof.
  intros Hts Hx.
  assert (Hne : ~ ts == 0) by lra.
  assert (Hdiv : 0 <= x / ts) by (apply Qle_shift_div_l; lra).
  assert (Hfl : (0 <= Qfloor (x / ts))%Z).
  { rewrite <- (Qfloor_Z 0). apply Qfloor_resp_le. exact Hdiv. }
  unfold Qnat. rewrite Z2Nat.id by exact Hfl.
  pose proof (Qfloor_le (x / ts)) as Hlo.
  pose proof (Qlt_floor (x / ts)) as Hhi.
  rewrite inject_Z_plus in Hhi.
  assert (Hback : x / ts * ts == x) by (field; exact Hne).
  split.
  - apply (Qmult_le_compat_r _ _ ts) in Hlo; [|lra]. rewrite Hback in Hlo. exact Hlo.
  - apply (Qmult_lt_compat_r _ _ ts) in Hhi; [|lra]. rewrite Hback in Hhi. exact Hhi.
Qed.

End EngineLoopFacts.

(** ** Doubles and the numbers they stand for *)

Section Doubles.
Import PrimFloat SpecFloat FloatOps FloatAxioms EngineLoop64.

Lemma digits2_pos_bounds (m : positive) :
  (2 ^ (Zpos (digits2_pos m) - 1) <= Zpos m < 2 ^ Zpos (digits2_pos m))%Z.
Proof.
  induction m as [p IH|p IH|]; cbn [digits2_pos].
  - rewrite Pos2Z.inj_succ, Z.pow_succ_r by lia.
    replace (Z.succ (Zpos (digits2_pos p)) - 1)%Z
      with (Z.succ (Zpos (digits2_pos p) - 1)) by lia.
    rewrite Z.pow_succ_r by lia. lia.
  - rewrite Pos2Z.inj_succ, Z.pow_succ_r by lia.
    replace (Z.succ (Zpos (digits2_pos p)) - 1)%Z
      with (Z.succ (Zpos (digits2_pos p) - 1)) by lia.
    rewrite Z.pow_succ_r by lia. lia.
  - cbn. lia.
Qed.

(** A canonical mantissa has at most 53 bits, and exactly 53 above the
    least exponent. *)
Lemma canonical_mantissa_bounds (m : positive) (e : Z) :
  canonical_mantissa prec emax m e = true ->
  (-1074 <= e)%Z /\ (Zpos m < 2 ^ 53)%Z /\ (e = (-1074)%Z \/ (2 ^ 52 <= Zpos m)%Z).
Proof.
  unfold canonical_mantissa, fexp, emin, prec, emax. intros H.
  apply Z.eqb_eq in H.
  pose proof (digits2_pos_bounds m) as [Hlo Hhi].
  set (d := Zpos (digits2_pos m)) in *.
  assert (Hd : (d <= 53)%Z) by lia.
  split; [lia|]. split.
  - eapply Z.lt_le_trans; [exact Hhi|]. apply Z.pow_le_mono_r; lia.
  - destruct (Z.eq_dec e (-1074)%Z) as [|Hne]; [left; assumption|right].
    assert (d = 53%Z) by lia. subst d. rewrite H0 in Hlo. exact Hlo.
Qed.


(** Canonical mantissas are ordered by exponent first. *)
Lemma canonical_compare (m1 m2 : positive) (e1 e2 : Z) :
  canonical_mantissa prec emax m1 e1 = true ->
  canonical_mantissa prec emax m2 e2 = true ->
  (Zpos m1 * 2 ^ (e1 + 1074) ?= Zpos m2 * 2 ^ (e2 + 1074))%Z
  = match (e1 ?= e2)%Z with
    | Lt => Lt
    | Gt => Gt
    | Eq => Pos.compare_cont Eq m1 m2
    end.
Proof.
  intros H1 H2.
  destruct (canonical_mantissa_bounds m1 e1 H1) as (He1 & Hm1 & Hn1).
  destruct (canonical_mantissa_bounds m2 e2 H2) as (He2 & Hm2 & Hn2).
  assert (Hstep : forall e e', (-1074 <= e)%Z -> (e < e')%Z ->
            (0 < 2 ^ (e + 1074) /\ 2 * 2 ^ (e + 1074) <= 2 ^ (e' + 1074))%Z).
  { intros e e' He Hlt. split; [apply Z.pow_pos_nonneg; lia|].
    rewrite <- Z.pow_succ_r by lia. apply Z.pow_le_mono_r; lia. }
  change (2 ^ 53)%Z with 9007199254740992%Z in *.
  change (2 ^ 52)%Z with 4503599627370496%Z in *.
  destruct (Z.compare_spec e1 e2) as [Heq|Hlt|Hgt].
  - subst e2. assert (Hpos : (0 < 2 ^ (e1 + 1074))%Z) by (apply Z.pow_pos_nonneg; lia).
    change (Pos.compare_cont Eq m1 m2) with (Pos.compare m1 m2).
    set (A := (2 ^ (e1 + 1074))%Z) in *.
    destruct (Pos.compare_spec m1 m2) as [->|Hlt|Hgt].
    + apply Z.compare_refl.
    + apply Z.compare_lt_iff. nia.
    + apply Z.compare_gt_iff. nia.
  - apply Z.compare_lt_iff.
    destruct (Hstep e1 e2 He1 Hlt) as [Hpos Hdouble].
    destruct Hn2 as [Hn2|Hn2]; [lia|].
    set (A := (2 ^ (e1 + 1074))%Z) in *. set (B := (2 ^ (e2 + 1074))%Z) in *. nia.
  - apply Z.compare_gt_iff.
    destruct (Hstep e2 e1 He2 Hgt) as [Hpos Hdouble].
    destruct Hn1 as [Hn1|Hn1]; [lia|].
    set (A := (2 ^ (e1 + 1074))%Z) in *. set (B := (2 ^ (e2 + 1074))%Z) in *. nia.
Qed.

(** Comparing doubles is comparing the numbers they stand for. *)
Lemma quanta_compare (f1 f2 : spec_float) (n1 n2 : Z) :
  valid_binary f1 = true -> valid_binary f2 = true ->
  quanta f1 = Some n1 -> quanta f2 = Some n2 ->
  SFcompare f1 f2 = Some (n1 ?= n2)%Z.
Proof.
  intros V1 V2 Q1 Q2.
  destruct f1 as [s1|s1| |s1 m1 e1]; try discriminate;
    destruct f2 as [s2|s2| |s2 m2 e2]; try discriminate;
    cbn [quanta] in Q1, Q2; inversion Q1; inversion Q2; subst n1 n2; clear Q1 Q2;
    cbn [SFcompare].
  - reflexivity.
  - cbn [valid_binary] in V2. unfold bounded in V2. apply andb_true_iff in V2 as [V2 _].
    destruct (canonical_mantissa_bounds m2 e2 V2) as (He2 & _).
    assert (0 < Zpos m2 * 2 ^ (e2 + 1074))%Z
      by (apply Z.mul_pos_pos; [lia|apply Z.pow_pos_nonneg; lia]).
    f_equal. symmetry. destruct s2.
    + apply Z.compare_gt_iff. lia.
    + apply Z.compare_lt_iff. lia.
  - cbn [valid_binary] in V1. unfold bounded in V1. apply andb_true_iff in V1 as [V1 _].
    destruct (canonical_mantissa_bounds m1 e1 V1) as (He1 & _).
    assert (0 < Zpos m1 * 2 ^ (e1 + 1074))%Z
      by (apply Z.mul_pos_pos; [lia|apply Z.pow_pos_nonneg; lia]).
    f_equal. symmetry. destruct s1.
    + apply Z.compare_lt_iff. lia.
    + apply Z.compare_gt_iff. lia.
  - cbn [valid_binary] in V1, V2. unfold bounded in V1, V2.
    apply andb_true_iff in V1 as [V1 _]. apply andb_true_iff in V2 as [V2 _].
    destruct (canonical_mantissa_bounds m1 e1 V1) as (He1 & _).
    destruct (canonical_mantissa_bounds m2 e2 V2) as (He2 & _).
    assert (P1 : (0 < Zpos m1 * 2 ^ (e1 + 1074))%Z)
      by (apply Z.mul_pos_pos; [lia|apply Z.pow_pos_nonneg; lia]).
    assert (P2 : (0 < Zpos m2 * 2 ^ (e2 + 1074))%Z)
      by (apply Z.mul_pos_pos; [lia|apply Z.pow_pos_nonneg; lia]).
    pose proof (canonical_compare m1 m2 e1 e2 V1 V2) as Hc.
    pose proof (canonical_compare m2 m1 e2 e1 V2 V1) as Hc'.
    f_equal. destruct s1, s2.
    + replace (-1 * Zpos m1 * 2 ^ (e1 + 1074))%Z with (- (Zpos m1 * 2 ^ (e1 + 1074)))%Z by lia.
      replace (-1 * Zpos m2 * 2 ^ (e2 + 1074))%Z with (- (Zpos m2 * 2 ^ (e2 + 1074)))%Z by lia.
      rewrite Z.compare_opp, Hc'. rewrite (Z.compare_antisym e1 e2).
      destruct (e1 ?= e2)%Z; cbn [CompOpp]; try reflexivity.
      rewrite Pos.compare_cont_antisym. reflexivity.
    + symmetry. apply Z.compare_lt_iff. lia.
    + symmetry. apply Z.compare_gt_iff. lia.
    + replace (1 * Zpos m1 * 2 ^ (e1 + 1074))%Z with (Zpos m1 * 2 ^ (e1 + 1074))%Z by lia.
      replace (1 * Zpos m2 * 2 ^ (e2 + 1074))%Z with (Zpos m2 * 2 ^ (e2 + 1074))%Z by lia.
      symmetry. exact Hc.
Qed.

Lemma value_quanta (x : float) (q : Q) :
  value x = Some q ->
  exists n, quanta (Prim2SF x) = Some n
            /\ (q == inject_Z n / inject_Z (2 ^ 1074))%Q.
Proof.
  unfold value. pose proof (Prim2SF_valid x) as V.
  destruct (Prim2SF x) as [s|s| |s m e]; try discriminate; intros H; inversion H; subst q.
  - exists 0%Z. split; [reflexivity|]. unfold Qdiv. rewrite Qmult_0_l. reflexivity.
  - cbn [SpecFloat.valid_binary] in V. unfold bounded in V. apply andb_true_iff in V as [V _].
    destruct (canonical_mantissa_bounds m e V) as (He & _).
    eexists. split; [reflexivity|].
    assert (Hc : (inject_Z (2 ^ 1074) == 2 ^ 1074)%Q) by (apply Zpower_Qpower; lia).
    assert (Hpow : (2 ^ e == inject_Z (2 ^ (e + 1074)) / inject_Z (2 ^ 1074))%Q).
    { rewrite Hc, (Zpower_Qpower 2 (e + 1074)) by lia.
      change (inject_Z 2) with 2%Q.
      rewrite Qpower_plus by discriminate.
      unfold Qdiv. rewrite <- Qmult_assoc, Qmult_inv_r, Qmult_1_r; [reflexivity|].
      rewrite <- Hc. intros Hz.
      assert (Hp : (0 < inject_Z (2 ^ 1074))%Q).
      { change 0%Q with (inject_Z 0). rewrite <- Zlt_Qlt. apply Z.pow_pos_nonneg; lia. }
      rewrite Hz in Hp. exact (Qlt_irrefl 0 Hp). }
    rewrite Hpow, !inject_Z_mult. unfold Qdiv. destruct s; ring.
Qed.

Lemma quanta_order (n1 n2 : Z) :
  (inject_Z n1 / inject_Z (2 ^ 1074) <= inject_Z n2 / inject_Z (2 ^ 1074))%Q
  <-> (n1 <= n2)%Z.
Proof.
  assert (Hc : (0 < inject_Z (2 ^ 1074))%Q).
  { change 0%Q with (inject_Z 0). rewrite <- Zlt_Qlt. apply Z.pow_pos_nonneg; lia. }
  set (c := inject_Z (2 ^ 1074)) in *.
  assert (Hi : (0 < / c)%Q) by (apply Qinv_lt_0_compat; exact Hc).
  unfold Qdiv. rewrite (Qmult_le_r _ _ _ Hi), <- Zle_Qle. reflexivity.
Qed.

(** [x <= y] on doubles that are numbers is the order of the numbers. *)
Lemma leb_reads (x y : float) (a b : Q) :
  reads x a -> reads y b -> ((x <=? y)%float = true <-> (a <= b)%Q).
Proof.
  intros (a' & Ha & Haa) (b' & Hb & Hbb).
  destruct (value_quanta x a' Ha) as (n1 & Hn1 & Hq1).
  destruct (value_quanta y b' Hb) as (n2 & Hn2 & Hq2).
  rewrite leb_spec. unfold SFleb.
  rewrite (quanta_compare _ _ n1 n2 (Prim2SF_valid x) (Prim2SF_valid y) Hn1 Hn2).
  rewrite <- Haa, <- Hbb, Hq1, Hq2, quanta_order.
  destruct (Z.compare_spec n1 n2); split; intros; try reflexivity; try lia; discriminate.
Qed.

Lemma reads_fun (x : float) (a b : Q) : reads x a -> reads x b -> (a == b)%Q.
Proof.
  intros (a' & Ha & Haa) (b' & Hb & Hbb). rewrite Ha in Hb. inversion Hb; subst b'.
  rewrite <- Haa, <- Hbb. reflexivity.
Qed.

Lemma reads_eq (x : float) (a b : Q) : reads x a -> (a == b)%Q -> reads x b.
Proof. intros (a' & Ha & Haa) Hab. exists a'. split; [exact Ha|]. rewrite Haa. exact Hab. Qed.

(** An operation that did not round reads as the exact result. *)
Lemma exact_Times (x y : float) (a b : Q) :
  is_exact (Times x y) = true -> reads x a -> reads y b -> reads (x * y)%float (a * b)%Q.
Proof.
  unfold is_exact. intros H (a' & Ha & Haa) (b' & Hb & Hbb). rewrite Ha, Hb in H.
  destruct (value (x * y)%float) as [c|] eqn:E; [|discriminate].
  apply Qeq_bool_iff in H. exists c. split; [exact E|]. rewrite H, Haa, Hbb. reflexivity.
Qed.

Lemma exact_Plus (x y : float) (a b : Q) :
  is_exact (Plus x y) = true -> reads x a -> reads y b -> reads (x + y)%float (a + b)%Q.
Proof.
  unfold is_exact. intros H (a' & Ha & Haa) (b' & Hb & Hbb). rewrite Ha, Hb in H.
  destruct (value (x + y)%float) as [c|] eqn:E; [|discriminate].
  apply Qeq_bool_iff in H. exists c. split; [exact E|]. rewrite H, Haa, Hbb. reflexivity.
Qed.

Lemma exact_Minus (x y : float) (a b : Q) :
  is_exact (Minus x y) = true -> reads x a -> reads y b -> reads (x - y)%float (a - b)%Q.
Proof.
  unfold is_exact. intros H (a' & Ha & Haa) (b' & Hb & Hbb). rewrite Ha, Hb in H.
  destruct (value (x - y)%float) as [c|] eqn:E; [|discriminate].
  apply Qeq_bool_iff in H. exists c. split; [exact E|]. rewrite H, Haa, Hbb. reflexivity.
Qed.

(** [x == y] on doubles that are numbers is equality of the numbers. *)
Lemma eqb_reads (x y : float) (a b : Q) :
  reads x a -> reads y b -> ((x =? y)%float = true <-> (a == b)%Q).
Proof.
  intros (a' & Ha & Haa) (b' & Hb & Hbb).
  destruct (value_quanta x a' Ha) as (n1 & Hn1 & Hq1).
  destruct (value_quanta y b' Hb) as (n2 & Hn2 & Hq2).
  rewrite eqb_spec. unfold SFeqb.
  rewrite (quanta_compare _ _ n1 n2 (Prim2SF_valid x) (Prim2SF_valid y) Hn1 Hn2).
  rewrite <- Haa, <- Hbb, Hq1, Hq2.
  assert (Horder : forall n m,
            (inject_Z n / inject_Z (2 ^ 1074) == inject_Z m / inject_Z (2 ^ 1074))%Q
            <-> n = m).
  { intros n m. split; [|intros ->; reflexivity]. intros H.
    apply Z.le_antisymm; apply quanta_order; rewrite H; apply Qle_refl. }
  rewrite Horder.
  destruct (Z.compare_spec n1 n2); split; intros; try reflexivity; try lia; discriminate.
Qed.

Lemma reads_zero : reads zero 0.
Proof. exists 0%Q. split; reflexivity. Qed.


(** A double that stands for a positive number is truthy. *)
Lemma positive_truthy (x : float) (q : Q) :
  reads x q -> (0 < q)%Q -> truthy (Some x) = true.
Proof.
  intros Hx Hq. unfold truthy, is_zero, is_nan.
  assert (Hz : (x =? zero)%float = false).
  { apply not_true_is_false. intros H. apply (eqb_reads x zero q 0 Hx reads_zero) in H.
    rewrite H in Hq. exact (Qlt_irrefl 0 Hq). }
  assert (Hn : (x =? x)%float = true).
  { apply (eqb_reads x x q q Hx Hx). reflexivity. }
  rewrite Hz, Hn. reflexivity.
Qed.

Lemma exact_all (ws : list Operation) :
  forallb is_exact ws = true -> Forall (fun op => is_exact op = true) ws.
Proof.
  induction ws as [|op ws IH]; cbn [forallb]; intros H; constructor;
    apply andb_true_iff in H as [H1 H2]; [exact H1|apply IH; exact H2].
Qed.

End Doubles.

(** ** The fixed-step loop on doubles *)

Section Mainloop64.
Import PrimFloat EngineLoop64.
Local Open Scope Q_scope.
Context {W : Type} (_update : float -> M W unit).

Lemma since_app (e e' : Engine (W:=W)) (ws : list Operation) :
  operations e' = operations e ++ ws -> since e e' = ws.
Proof. intros H. unfold since. rewrite H. apply drop_app_length. Qed.

(** The ghost record only grows. *)
Lemma catchUp_operations (fuel : nat) : forall (ts : float) (e : Engine),
  exists ws, operations (snd (catchUp _update fuel ts e)) = operations e ++ ws.
Proof.
  induction fuel as [|fuel IH]; intros ts e; cbn [catchUp].
  - exists []. rewrite app_nil_r. reflexivity.
  - destruct (ts <=? _lagMs e)%float; [|exists []; rewrite app_nil_r; reflexivity].
    unfold call_update. destruct (_update ts (world e)) as [[[]|err] w'].
    + match goal with |- context [catchUp _ fuel ts ?e2] =>
        destruct (IH ts e2) as [ws Hws]
      end.
      rewrite Hws. cbn [operations note set_lag]. rewrite <- app_assoc. eexists. reflexivity.
    + exists []. rewrite app_nil_r. reflexivity.
Qed.





Hypothesis update_returns : forall el w, exists w', _update el w = (Ret tt, w').

Lemma catchUp_steps (m : nat) : forall (fuel : nat) (ts : float) (T L : Q) (e : Engine),
  reads ts T -> 0 < T -> reads (_lagMs e) L ->
  Qnat m * T <= L -> L < (Qnat m + 1) * T ->
  (m < fuel)%nat ->
  Forall (fun op => is_exact op = true) (since e (snd (catchUp _update fuel ts e))) ->
  fst (catchUp _update fuel ts e) = Some (Ret tt)
  /\ reads (_lagMs (snd (catchUp _update fuel ts e))) (L - Qnat m * T)
  /\ updateCalls (snd (catchUp _update fuel ts e)) = updateCalls e ++ repeat ts m
  /\ fixedUpdateTimestep (snd (catchUp _update fuel ts e)) = fixedUpdateTimestep e
  /\ _timescale (snd (catchUp _update fuel ts e)) = _timescale e.
Proof.
  induction m as [|m IH]; intros fuel ts T L e Hts HT HL Hlo Hhi Hfuel Hexact.
  - destruct fuel as [|fuel]; [lia|]. cbn [catchUp] in *.
    assert (Hb : (ts <=? _lagMs e)%float = false).
    { apply not_true_is_false. intros Hb. apply (leb_reads ts (_lagMs e) T L Hts HL) in Hb.
      rewrite Qnat_0 in Hhi. lra. }
    rewrite Hb. cbn [fst snd]. rewrite app_nil_r. repeat split; try reflexivity.
    apply (reads_eq _ L); [exact HL|]. rewrite Qnat_0. lra.
  - destruct fuel as [|fuel]; [lia|]. cbn [catchUp] in *.
    rewrite Qnat_S in Hlo, Hhi.
    pose proof (Qnat_nonneg m) as Hm.
    assert (Hmts : 0 <= Qnat m * T) by (apply Qmult_le_0_compat; lra).
    assert (Hb : (ts <=? _lagMs e)%float = true).
    { apply (leb_reads ts (_lagMs e) T L Hts HL). lra. }
    rewrite Hb in *. unfold call_update in *.
    destruct (update_returns ts (world e)) as [w' Hw]. rewrite Hw in *.
    cbn [fixedUpdateTimestep _timescale _lagMs currentFrameElapsedMs currentFrameLagMs
         updateCalls operations world] in *.
    match goal with |- context [catchUp _ fuel ts ?x] => set (e2 := x) in * end.
    destruct (catchUp_operations fuel ts e2) as [ws Hws].
    assert (Hops : operations (snd (catchUp _update fuel ts e2))
                   = operations e ++ Minus (_lagMs e) ts :: ws).
    { rewrite Hws. subst e2. cbn [operations note set_lag]. rewrite <- app_assoc. reflexivity. }
    rewrite (since_app e _ _ Hops) in Hexact.
    inversion Hexact as [|op ops Hop Hrest]; subst op ops.
    assert (HL2 : reads (_lagMs e2) (L - T)).
    { subst e2. cbn [_lagMs note set_lag]. apply exact_Minus; assumption. }
    destruct (IH fuel ts T (L - T) e2) as (Hret & Hlag & Hcalls & Hc1 & Hc2);
      try assumption; try lra; [lia| |].
    { rewrite (since_app e2 _ ws Hws). exact Hrest. }
    split; [exact Hret|]. split.
    { apply (reads_eq _ _ _ Hlag). rewrite Qnat_S. lra. }
    split.
    { rewrite Hcalls. subst e2. cbn [updateCalls note set_lag]. rewrite <- app_assoc. reflexivity. }
    split; [rewrite Hc1; reflexivity|rewrite Hc2; reflexivity].
Qed.

Lemma mainloop_steps (m fuel : nat) (ts el : float) (T L D S : Q) (e : Engine) :
  fixedUpdateTimestep e = Some ts -> reads ts T -> 0 < T ->
  reads (_lagMs e) L -> reads el D -> reads (_timescale e) S ->
  Qnat m * T <= L + D * S -> L + D * S < (Qnat m + 1) * T ->
  (m < fuel)%nat ->
  Forall (fun op => is_exact op = true) (since e (snd (_mainloop _update fuel el e))) ->
  fst (_mainloop _update fuel el e) = Some (Ret tt)
  /\ reads (_lagMs (snd (_mainloop _update fuel el e))) (L + D * S - Qnat m * T)
  /\ updateCalls (snd (_mainloop _update fuel el e)) = updateCalls e ++ repeat ts m
  /\ fixedUpdateTimestep (snd (_mainloop _update fuel el e)) = fixedUpdateTimestep e
  /\ _timescale (snd (_mainloop _update fuel el e)) = _timescale e
  /\ currentFrameLagMs (snd (_mainloop _update fuel el e))
     = _lagMs (snd (_mainloop _update fuel el e)).
Proof.
  intros Hfix Hts HT HL HD HS Hlo Hhi Hfuel Hexact.
  unfold _mainloop in *. cbn [fixedUpdateTimestep note set_frameElapsed] in *.
  rewrite Hfix in *. rewrite (positive_truthy ts T Hts HT) in *.
  cbn [_lagMs _timescale note set_frameElapsed] in *.
  match goal with |- context [catchUp _ fuel ts ?x] => set (e1 := x) in * end.
  destruct (catchUp_operations fuel ts e1) as [ws Hws].
  assert (Hops : operations (snd (catchUp _update fuel ts e1))
                 = operations e ++ Times el (_timescale e)
                     :: Plus (_lagMs e) (el * _timescale e)%float :: ws).
  { rewrite Hws. subst e1. cbn [operations note set_lag set_frameElapsed].
    rewrite <- !app_assoc. reflexivity. }
  assert (Hexact1 : Forall (fun op => is_exact op = true)
                      (Times el (_timescale e)
                         :: Plus (_lagMs e) (el * _timescale e)%float :: ws)).
  { rewrite <- (since_app e _ _ Hops).
    destruct (catchUp _update fuel ts e1) as [[[[]|err]|] e']; exact Hexact. }
  inversion Hexact1 as [|op1 ops1 Htimes Hrest1]; subst op1 ops1.
  inversion Hrest1 as [|op2 ops2 Hplus Hrest2]; subst op2 ops2.
  pose proof (exact_Times _ _ D S Htimes HD HS) as Hel.
  pose proof (exact_Plus _ _ L (D * S) Hplus HL Hel) as Hlag1.
  destruct (catchUp_steps m fuel ts T (L + D * S) e1) as (Hret & Hlag & Hcalls & Hc1 & Hc2);
    try assumption.
  { rewrite (since_app e1 _ ws Hws). exact Hrest2. }
  destruct (catchUp _update fuel ts e1) as [[[[]|err]|] e']; cbn [fst snd] in *;
    try discriminate.
  cbn [_lagMs updateCalls fixedUpdateTimestep _timescale currentFrameLagMs set_frameLag].
  repeat split; try assumption.
  rewrite Hc1. exact Hfix.
Qed.



(** X4: in fixed-step mode with a positive timestep [ts], one [_mainloop]
    call on a non-negative lag makes floor((lag + elapsed * timescale) / ts)
    calls of [_update(ts)] and leaves the remainder as the new lag, which it
    also publishes as [currentFrameLagMs], provided that no arithmetic
    operation of the call rounds; with a timescale of 0 and a lag below
    [ts] it makes none. *)
Theorem mainloop_fixed_step_count
    (fuel : nat) (ts el : float) (T L D S : Q) (e : Engine) :
  fixedUpdateTimestep e = Some ts -> reads ts T -> 0 < T ->
  reads (_lagMs e) L -> reads el D -> reads (_timescale e) S ->
  0 <= L + D * S ->
  let n := Z.to_nat (Qfloor ((L + D * S) / T)) in
  (n < fuel)%nat ->
  Forall (fun op => is_exact op = true) (since e (snd (_mainloop _update fuel el e))) ->
  fst (_mainloop _update fuel el e) = Some (Ret tt)
  /\ updateCalls (snd (_mainloop _update fuel el e)) = updateCalls e ++ repeat ts n
  /\ (exists l, reads (_lagMs (snd (_mainloop _update fuel el e))) l
                /\ l == L + D * S - Qnat n * T /\ 0 <= l /\ l < T)
  /\ currentFrameLagMs (snd (_mainloop _update fuel el e))
     = _lagMs (snd (_mainloop _update fuel el e))
  /\ (S == 0 -> L < T -> n = 0%nat).
Proof.
  intros Hfix Hts HT HL HD HS Hnn n Hfuel Hexact.
  destruct (floor_step_interval T (L + D * S) HT Hnn) as [Hlo Hhi]. fold n in Hlo, Hhi.
  destruct (mainloop_steps n fuel ts el T L D S e)
    as (Hret & Hlag & Hcalls & _ & _ & Hframe); try assumption.
  split; [exact Hret|]. split; [exact Hcalls|]. split.
  { eexists. split; [exact Hlag|]. split; [reflexivity|]. split; lra. }
  split; [exact Hframe|].
  intros Hzero Hsmall.
  assert (Hle : (n <= 0)%nat); [|lia].
  apply (steps_lt T); [exact HT|]. rewrite Qnat_0. rewrite Hzero in Hlo. lra.
Qed.

End Mainloop64.

(** *** The loop on doubles, run *)

Section Mainloop64Runs.
Import PrimFloat EngineLoop64.
Local Open Scope Q_scope.



(** Six steps of 12.5 ms out of a 40 ms sample at double speed, 5 ms left. *)
Lemma mainloop_fixed_step_count_witness :
  let _update : float -> M nat unit := fun _ => modify S in
  let ts := 12.5%float in
  let e := mkEngine (Some ts) 2%float zero zero zero [] [] 0%nat in
  let r := _mainloop _update 7 40%float e in
  fst r = Some (Ret tt)
  /\ updateCalls (snd r) = repeat ts 6
  /\ reads (_lagMs (snd r)) 5
  /\ currentFrameLagMs (snd r) = _lagMs (snd r).
Proof.
  intros _update ts e r.
  destruct (mainloop_fixed_step_count _update (fun el w => ex_intro _ (S w) eq_refl)
              7 ts 40%float (25 # 2) 0 40 2 e) as (H1 & H2 & (l & H3 & H4 & _) & H5 & _).
  - reflexivity.
  - eexists. split; vm_compute; reflexivity.
  - reflexivity.
  - exact reads_zero.
  - eexists. split; vm_compute; reflexivity.
  - eexists. split; vm_compute; reflexivity.
  - discriminate.
  - vm_compute. lia.
  - apply exact_all. vm_compute. reflexivity.
  - split; [exact H1|]. split; [exact H2|]. split; [|exact H5].
    apply (reads_eq _ _ _ H3). rewrite H4. reflexivity.
Defined.

(** At the default rate of 60 updates a second the subtractions do round:
    with [ts = 1000 / 60], a double slightly above 50/3, a 200 ms sample
    makes 12 calls of [_update] although 200 ms is less than 12 timesteps. *)
Lemma mainloop_sixty_hertz_extra_step :
  let _update : float -> M nat unit := fun _ => modify S in
  let ts := (1000 / 60)%float in
  let e := mkEngine (Some ts) one zero zero zero [] [] 0%nat in
  let r := _mainloop _update 20 200%float e in
  fst r = Some (Ret tt)
  /\ updateCalls (snd r) = repeat ts 12
  /\ (exists T, reads ts T /\ 200 < 12 * T)
  /\ forallb is_exact (since e (snd r)) = false.
Proof.
  intros _update ts e r.
  split; [vm_compute; reflexivity|]. split; [vm_compute; reflexivity|].
  split; [|vm_compute; reflexivity].
  eexists. split; [eexists; split; [vm_compute; reflexivity|reflexivity]|].
  vm_compute. reflexivity.
Qed.

End Mainloop64Runs.
(** ** The object heap *)

Lemma Heap_lookup_unfold (h : Heap) (r : nat) :
  h !! r = match cells h !! r with
           | Some (SceneCell sc) => Some sc
           | Some PlainObject | None => None
           end.
Proof. reflexivity. Qed.

Lemma Heap_alter_unfold (f : Scene -> Scene) (r : nat) (h : Heap) :
  cells (alter f r h)
  = alter (fun c => match c with
                    | SceneCell sc => SceneCell (f sc)
                    | PlainObject => PlainObject
                    end) r (cells h).
Proof. reflexivity. Qed.

Lemma Heap_insert_unfold (sc : Scene) (r : nat) (h : Heap) :
  cells (<[r := sc]> h)
  = alter (fun c => match c with
                    | SceneCell _ => SceneCell sc
                    | PlainObject => PlainObject
                    end) r (cells h).
Proof. reflexivity. Qed.

Lemma Heap_lookup_Some (h : Heap) (r : nat) (sc : Scene) :
  h !! r = Some sc <-> cells h !! r = Some (SceneCell sc).
Proof.
  rewrite Heap_lookup_unfold.
  destruct (cells h !! r) as [[sc'|]|]; split; intros H; congruence.
Qed.

Lemma Heap_lookup_lt (h : Heap) (r : nat) (sc : Scene) :
  h !! r = Some sc -> (r < length h)%nat.
Proof. intros H. apply Heap_lookup_Some in H. eapply lookup_lt_Some. exact H. Qed.

Lemma Heap_lookup_alter (f : Scene -> Scene) (r : nat) (h : Heap) :
  alter f r h !! r = f <$> h !! r.
Proof.
  rewrite !Heap_lookup_unfold, Heap_alter_unfold.
  rewrite list_lookup_alter, decide_True by reflexivity.
  destruct (cells h !! r) as [[sc|]|]; reflexivity.
Qed.

Lemma Heap_lookup_alter_ne (f : Scene -> Scene) (r r' : nat) (h : Heap) :
  r <> r' -> alter f r h !! r' = h !! r'.
Proof.
  intros Hne. rewrite !Heap_lookup_unfold, Heap_alter_unfold.
  rewrite list_lookup_alter_ne by exact Hne. reflexivity.
Qed.

Lemma Heap_length_alter (f : Scene -> Scene) (r : nat) (h : Heap) :
  length (alter f r h) = length h.
Proof. rewrite Heap_alter_unfold. apply length_alter. Qed.

Lemma Heap_lookup_insert_eq (h : Heap) (r : nat) (sc sc' : Scene) :
  h !! r = Some sc -> <[r := sc']> h !! r = Some sc'.
Proof.
  intros H. apply Heap_lookup_Some in H.
  rewrite Heap_lookup_unfold, Heap_insert_unfold.
  rewrite list_lookup_alter, decide_True by reflexivity.
  rewrite H. reflexivity.
Qed.

Lemma Heap_lookup_insert_ne (h : Heap) (r r' : nat) (sc' : Scene) :
  r <> r' -> <[r := sc']> h !! r' = h !! r'.
Proof.
  intros Hne. rewrite !Heap_lookup_unfold, Heap_insert_unfold.
  rewrite list_lookup_alter_ne by exact Hne. reflexivity.
Qed.

Lemma Heap_lookup_push (h : Heap) (c : Cell) (r : nat) (sc : Scene) :
  h !! r = Some sc -> mkHeap (h ++ [c]) !! r = Some sc.
Proof.
  intros H. apply Heap_lookup_Some. cbn [cells].
  apply lookup_app_l_Some. apply Heap_lookup_Some. exact H.
Qed.

Lemma Heap_lookup_fresh (h : Heap) (c : Cell) :
  mkHeap (h ++ [c]) !! length h
  = match c with SceneCell sc => Some sc | PlainObject => None end.
Proof.
  rewrite Heap_lookup_unfold. cbn [cells].
  rewrite list_lookup_middle by reflexivity. reflexivity.
Qed.

Lemma Heap_length_push (h : Heap) (c : Cell) :
  length (mkHeap (h ++ [c])) = S (length h).
Proof. cbn [cells]. rewrite length_app. cbn. lia. Qed.

Lemma layout_alter (f : Scene -> Scene) (r : nat) (h : Heap) :
  layout (alter f r h) = layout h.
Proof.
  unfold layout. rewrite Heap_alter_unfold.
  rewrite (list_fmap_alter _ _ id); [apply list_alter_id; reflexivity|].
  apply Forall_forall. intros [sc|] _; reflexivity.
Qed.

Lemma layout_insert (sc : Scene) (r : nat) (h : Heap) :
  layout (<[r := sc]> h) = layout h.
Proof.
  unfold layout. rewrite Heap_insert_unfold.
  rewrite (list_fmap_alter _ _ id); [apply list_alter_id; reflexivity|].
  apply Forall_forall. intros [sc'|] _; reflexivity.
Qed.

Lemma layout_lookup (h h' : Heap) (r : nat) (sc : Scene) :
  layout h' = layout h -> h !! r = Some sc -> exists sc', h' !! r = Some sc'.
Proof.
  intros Hl H. apply Heap_lookup_Some in H.
  apply (f_equal (fun l => l !! r)) in Hl. unfold layout in Hl.
  rewrite !list_lookup_fmap, H in Hl. rewrite Heap_lookup_unfold.
  destruct (cells h' !! r) as [[sc'|]|]; [eauto|discriminate|discriminate].
Qed.


(** ** Scenes and the Director *)

Section Frames.
(** A frame relation: what a piece of code may change, whatever its
    outcome. *)
Context {S : Type}.
Variable R : S -> S -> Prop.
Hypothesis R_refl : forall s, R s s.
Hypothesis R_trans : forall a b c, R a b -> R b c -> R a c.

Lemma bind_frame {A B} (m : M S A) (k : A -> M S B) (s : S) :
  R s (snd (m s)) ->
  (forall a, fst (m s) = Ret a -> R (snd (m s)) (snd (k a (snd (m s))))) ->
  R s (snd (bind m k s)).
Proof.
  intros Hm Hk. unfold bind. destruct (m s) as [[a|e] s1] eqn:E; cbn in *.
  - eapply R_trans; [exact Hm|]. apply Hk. reflexivity.
  - exact Hm.
Qed.

Lemma for_each_frame {A} (body : A -> M S unit) (xs : list A) :
  (forall x s, R s (snd (body x s))) ->
  forall s, R s (snd (for_each xs body s)).
Proof.
  intros Hbody. induction xs as [|x xs IH]; intros s; cbn [for_each].
  - apply R_refl.
  - apply bind_frame; [apply Hbody|]. intros _ _. apply IH.
Qed.

Lemma try_rethrow_frame {A} (m : M S A) (h : M S unit) (s : S) :
  R s (snd (m s)) -> (forall s1, R s1 (snd (h s1))) ->
  R s (snd (try_rethrow m h s)).
Proof.
  intros Hm Hh. unfold try_rethrow. destruct (m s) as [[a|e] s1]; cbn in *.
  - exact Hm.
  - eapply R_trans; [exact Hm|apply Hh].
Qed.
End Frames.

Lemma quiet_refl P s : quiet P s s.
Proof. repeat split. exists []. rewrite app_nil_r. split; [reflexivity|constructor]. Qed.

Lemma quiet_trans P a b c : quiet P a b -> quiet P b c -> quiet P a c.
Proof.
  intros (Hd1 & Hh1 & evs1 & Ht1 & Hp1) (Hd2 & Hh2 & evs2 & Ht2 & Hp2).
  repeat split; [congruence|congruence|].
  exists (evs1 ++ evs2). rewrite Ht2, Ht1, app_assoc. split; [reflexivity|].
  apply Forall_app; split; assumption.
Qed.

Lemma quiet_weaken (P Q : Event -> Prop) s s' :
  (forall ev, P ev -> Q ev) -> quiet P s s' -> quiet Q s s'.
Proof.
  intros HPQ (Hd & Hh & evs & Ht & Hp). repeat split; try assumption.
  exists evs. split; [assumption|]. eapply Forall_impl; eassumption.
Qed.

Lemma quiet_logger P lvl msg s : quiet P s (snd (logger lvl msg s)).
Proof.
  cbn. repeat split. exists []. rewrite app_nil_r. split; [reflexivity|constructor].
Qed.

Lemma quiet_record (P : Event -> Prop) ev s : P ev -> quiet P s (snd (record ev s)).
Proof.
  intros Hev. cbn. repeat split. exists [ev]. split; [reflexivity|].
  constructor; [assumption|constructor].
Qed.

Lemma quiet_update_scene P r f s : quiet P s (snd (update_scene r f s)).
Proof.
  cbn. repeat split.
  - apply layout_alter.
  - exists []. rewrite app_nil_r. split; [reflexivity|constructor].
Qed.

Lemma quiet_getSceneName P this s : quiet P s (snd (Director_getSceneName this s)).
Proof.
  unfold Director_getSceneName, bind, deref, gets, ret.
  destruct (heap s !! this); cbn; [|apply quiet_refl].
  destruct (js_find _ _); cbn; apply quiet_refl.
Qed.

Lemma bind_eq {S A B} (m : M S A) (k : A -> M S B) (s : S) :
  bind m k s = match m s with
               | (Ret a, s') => k a s'
               | (Throw e, s') => (Throw e, s')
               end.
Proof. reflexivity. Qed.

Lemma deref_some r s sc : heap s !! r = Some sc -> deref r s = (Ret sc, s).
Proof. intros H. unfold deref. rewrite H. reflexivity. Qed.

Lemma quiet_deref P r s : quiet P s (snd (deref r s)).
Proof. unfold deref. destruct (heap s !! r); apply quiet_refl. Qed.

Lemma quiet_onInitialize (P : Event -> Prop) this s :
  P (OnInitialize this (observed s)) -> quiet P s (snd (Scene_onInitialize this s)).
Proof.
  intros HP. unfold Scene_onInitialize. rewrite bind_eq. unfold deref.
  destruct (heap s !! this) as [sc|]; [|apply quiet_refl].
  cbn. destruct (onInitialize_throws _); cbn;
    (repeat split; exists [OnInitialize this (observed s)];
     split; [reflexivity|constructor; [exact HP|constructor]]).
Qed.

Lemma quiet_onActivate (P : Event -> Prop) this ctx s :
  P (OnActivate this ctx (observed s)) -> quiet P s (snd (Scene_onActivate this ctx s)).
Proof.
  intros HP. unfold Scene_onActivate. rewrite bind_eq. unfold deref.
  destruct (heap s !! this) as [sc|]; [|apply quiet_refl].
  assert (Hev : quiet P s (set_trace (trace s ++ [OnActivate this ctx (observed s)]) s)).
  { repeat split. eexists. split; [reflexivity|]. constructor; [exact HP|constructor]. }
  cbn. destruct (ctor sc); cbn; try destruct (data ctx); try destruct (onActivate_throws _);
    cbn; try exact Hev.
  eapply quiet_trans; [exact Hev|]. refine (quiet_update_scene P _ _ _).
Qed.

Lemma quiet_onDeactivate (P : Event -> Prop) this ctx s :
  P (OnDeactivate this ctx (observed s)) -> quiet P s (snd (Scene_onDeactivate this ctx s)).
Proof.
  intros HP. unfold Scene_onDeactivate. rewrite bind_eq. unfold deref.
  destruct (heap s !! this) as [sc|]; [|apply quiet_refl].
  cbn. destruct (onDeactivate_throws _); cbn;
    (repeat split; eexists; split; [reflexivity|constructor; [exact HP|constructor]]).
Qed.

Lemma quiet_Entity__initialize (P : Event -> Prop) scene i s :
  (forall a, P (ActorOnInitialize scene a)) ->
  quiet P s (snd (Entity__initialize scene i s)).
Proof.
  intros HP. unfold Entity__initialize. rewrite bind_eq. unfold deref at 1.
  destruct (heap s !! scene) as [sc|]; [|apply quiet_refl].
  destruct (entities sc !! i) as [child|]; [|apply quiet_refl].
  destruct (isInitialized child); [apply quiet_refl|].
  apply bind_frame; [apply quiet_trans|apply quiet_record, HP|]. intros _ _.
  apply bind_frame; [apply quiet_trans|apply quiet_refl|]. intros cur _.
  apply bind_frame; [apply quiet_trans|apply quiet_deref|]. intros curScene _.
  apply quiet_update_scene.
Qed.

Lemma quiet_initializeChildren (P : Event -> Prop) this s :
  (forall a, P (ActorOnInitialize this a)) ->
  quiet P s (snd (Scene__initializeChildren this s)).
Proof.
  intros HP. unfold Scene__initializeChildren.
  apply bind_frame; [apply quiet_trans|apply quiet_deref|]. intros sc _.
  apply for_each_frame; [apply quiet_refl|apply quiet_trans|].
  intros i s'. apply quiet_Entity__initialize, HP.
Qed.

(** What [_initialize] does after the user hook has returned. *)
Lemma quiet_finish_initialize (P : Event -> Prop) this s :
  (forall a, P (ActorOnInitialize this a)) -> P (SceneEmit this "initialize") ->
  quiet P s (snd ((Scene__initializeChildren this;;
                   logger Debug "Scene.onInitialize";;
                   record (SceneEmit this "initialize")) s)).
Proof.
  intros HPa HPe.
  apply bind_frame; [apply quiet_trans|apply quiet_initializeChildren, HPa|]. intros _ _.
  apply bind_frame; [apply quiet_trans|apply quiet_logger|]. intros _ _.
  apply quiet_record, HPe.
Qed.

Lemma quiet_Scene__initialize (P : Event -> Prop) this s :
  P (OnInitialize this (observed s)) ->
  (forall a, P (ActorOnInitialize this a)) -> P (SceneEmit this "initialize") ->
  quiet P s (snd (Scene__initialize this s)).
Proof.
  intros HPi HPa HPe. unfold Scene__initialize.
  apply bind_frame; [apply quiet_trans|apply quiet_deref|]. intros sc _.
  destruct (deref this s) as [r s0] eqn:E.
  assert (s0 = s) as ->.
  { unfold deref in E. destruct (heap s !! this); inversion E; reflexivity. }
  cbn [snd]. destruct (negb (_isInitialized sc)); [|apply quiet_refl].
  apply bind_frame; [apply quiet_trans| |intros _ _; apply quiet_update_scene].
  apply try_rethrow_frame; [apply quiet_trans| |].
  - apply bind_frame; [apply quiet_trans|apply quiet_onInitialize, HPi|]. intros _ _.
    apply (quiet_finish_initialize P this); assumption.
  - intros s1. apply bind_frame; [apply quiet_trans|apply quiet_getSceneName|].
    intros n _. apply quiet_logger.
Qed.

Lemma quiet_Scene__activate (P : Event -> Prop) this ctx s :
  P (OnActivate this ctx (observed s)) ->
  quiet P s (snd (Scene__activate this ctx s)).
Proof.
  intros HP. unfold Scene__activate.
  apply try_rethrow_frame; [apply quiet_trans| |].
  - apply bind_frame; [apply quiet_trans|apply quiet_logger|]. intros _ _.
    apply quiet_onActivate. exact HP.
  - intros s1. apply bind_frame; [apply quiet_trans|apply quiet_getSceneName|].
    intros n _. apply quiet_logger.
Qed.

Lemma quiet_Scene__deactivate (P : Event -> Prop) this ctx s :
  P (OnDeactivate this ctx (observed s)) ->
  quiet P s (snd (Scene__deactivate this ctx s)).
Proof.
  intros HP. unfold Scene__deactivate.
  apply bind_frame; [apply quiet_trans|apply quiet_logger|]. intros _ _.
  apply quiet_onDeactivate. exact HP.
Qed.

Lemma count_onInitialize_app this t1 t2 :
  count_onInitialize this (t1 ++ t2)
  = (count_onInitialize this t1 + count_onInitialize this t2)%nat.
Proof. unfold count_onInitialize. rewrite filter_app, length_app. reflexivity. Qed.

Lemma count_onInitialize_none this evs :
  Forall (fun ev => is_lifecycle ev = false) evs -> count_onInitialize this evs = 0%nat.
Proof.
  induction 1 as [|ev evs Hev _ IH]; [reflexivity|].
  unfold count_onInitialize in *. rewrite filter_cons.
  destruct ev; cbn in Hev; try discriminate; cbn; exact IH.
Qed.

Lemma count_onInitialize_one this o :
  count_onInitialize this [OnInitialize this o] = 1%nat.
Proof.
  unfold count_onInitialize. rewrite filter_cons, filter_nil.
  cbn [is_onInitialize]. rewrite bool_decide_eq_true_2 by reflexivity.
  rewrite decide_True by reflexivity. reflexivity.
Qed.

(** The first [_initialize] of a scene that returns normally: the user hook
    ran once, observing the Director as it stood, and the scene is marked. *)
Lemma Scene__initialize_first this s sc s1 :
  heap s !! this = Some sc -> _isInitialized sc = false ->
  Scene__initialize this s = (Ret tt, s1) ->
  director s1 = director s
  /\ (exists evs, trace s1 = trace s ++ OnInitialize this (observed s) :: evs
                  /\ Forall (fun ev => is_lifecycle ev = false) evs)
  /\ (exists sc', heap s1 !! this = Some sc' /\ _isInitialized sc' = true).
Proof.
  intros Hsc Hfresh Hrun. unfold Scene__initialize in Hrun.
  rewrite bind_eq, (deref_some _ _ _ Hsc), Hfresh in Hrun. cbn [negb] in Hrun.
  rewrite bind_eq in Hrun. unfold try_rethrow in Hrun. rewrite bind_eq in Hrun.
  assert (Hhook : exists r, Scene_onInitialize this s
            = (r, set_trace (trace s ++ [OnInitialize this (observed s)]) s)).
  { unfold Scene_onInitialize. rewrite bind_eq, (deref_some _ _ _ Hsc). cbn.
    destruct (onInitialize_throws _); eexists; reflexivity. }
  destruct Hhook as [r Hhook]. rewrite Hhook in Hrun.
  destruct r as [[]|e]; [|discriminate].
  set (sa := set_trace (trace s ++ [OnInitialize this (observed s)]) s) in *.
  pose proof (quiet_finish_initialize (fun ev => is_lifecycle ev = false) this sa
                (fun _ => eq_refl) eq_refl) as Hq.
  destruct ((Scene__initializeChildren this;;
             logger Debug "Scene.onInitialize";;
             record (SceneEmit this "initialize")) sa) as [[[]|e] sb]; [|discriminate].
  cbn [snd] in Hq. destruct Hq as (Hd & Hh & evs & Ht & Hp).
  cbn in Hrun. inversion Hrun; subst s1; clear Hrun. cbn.
  split; [rewrite Hd; reflexivity|]. split.
  - exists evs. rewrite Ht. cbn. rewrite <- app_assoc. split; [reflexivity|exact Hp].
  - destruct (layout_lookup (heap sa) (heap sb) this sc Hh Hsc) as [scb Hscb].
    exists (set__isInitialized true scb). split; [|reflexivity].
    rewrite Heap_lookup_alter, Hscb. reflexivity.
Qed.

(** [_initialize] on an initialized scene does nothing. *)
Lemma Scene__initialize_again this s sc :
  heap s !! this = Some sc -> _isInitialized sc = true ->
  Scene__initialize this s = (Ret tt, s).
Proof.
  intros Hsc Hinit. unfold Scene__initialize.
  rewrite bind_eq, (deref_some _ _ _ Hsc), Hinit. reflexivity.
Qed.

(** C7: when [_initialize] is called on a scene instance that is not yet
    initialized and the call completes without an exception, the user
    override [onInitialize] has run exactly once; a second call, and every
    later one, returns without running it again and leaves the whole state
    (scenes, director, trace and log) unchanged. *)
Theorem Scene__initialize_idempotent (this : SceneRef) (s s1 : Stage) (sc : Scene) :
  heap s !! this = Some sc -> _isInitialized sc = false ->
  Scene__initialize this s = (Ret tt, s1) ->
  count_onInitialize this (trace s1) = S (count_onInitialize this (trace s))
  /\ Scene__initialize this s1 = (Ret tt, s1)
  /\ forall n, for_each (replicate n tt) (fun _ => Scene__initialize this) s1 = (Ret tt, s1).
Proof.
  intros Hsc Hfresh Hrun.
  destruct (Scene__initialize_first this s sc s1 Hsc Hfresh Hrun)
    as (_ & (evs & Ht & Hp) & (sc' & Hsc' & Hinit')).
  pose proof (Scene__initialize_again this s1 sc' Hsc' Hinit') as Hagain.
  split; [|split].
  - rewrite Ht, count_onInitialize_app.
    change (OnInitialize this (observed s) :: evs)
      with ([OnInitialize this (observed s)] ++ evs).
    rewrite count_onInitialize_app, (count_onInitialize_none this evs Hp).
    rewrite count_onInitialize_one. lia.
  - exact Hagain.
  - induction n as [|n IH]; [reflexivity|].
    cbn [replicate for_each]. rewrite bind_eq, Hagain. exact IH.
Qed.

(** *** Navigation *)

Lemma getSceneInstance_unknown name s :
  obj_get name (scenes (director s)) = None -> name <> "constructor" ->
  Director_getSceneInstance name s = (Ret None, s).
Proof.
  intros H Hne. unfold Director_getSceneInstance, Director_getSceneDefinition.
  rewrite bind_eq. cbn. rewrite H.
  rewrite (proj2 (String.eqb_neq _ _) Hne). reflexivity.
Qed.

(** A registered name resolves to an instance; resolving touches nothing
    but the instance cache and, for a class, allocates the instance. *)
Lemma getSceneInstance_registered dest s v :
  Director_getSceneDefinition dest (director s) = Some v ->
  exists Y s0, Director_getSceneInstance dest s = (Ret (Some Y), s0)
    /\ trace s0 = trace s /\ log s0 = log s /\ observed s0 = observed s
    /\ _initialized (director s0) = _initialized (director s)
    /\ scenes (director s0) = scenes (director s)
    /\ (forall r sc, heap s !! r = Some sc -> heap s0 !! r = Some sc).
Proof.
  intros H. unfold Director_getSceneInstance. rewrite bind_eq. cbn [gets].
  rewrite H. destruct (_sceneToInstance (director s) !! dest) as [inst|].
  - exists inst, s. repeat split; auto.
  - destruct v as [r|c].
    + eexists r, _. cbn. repeat split; auto.
    + eexists _, _. cbn. repeat split; auto.
      intros r sc Hr. apply Heap_lookup_push. exact Hr.
Qed.

Lemma emits_refl P s : emits P s s.
Proof. exists []. rewrite app_nil_r. split; [reflexivity|constructor]. Qed.

Lemma emits_trans P a b c : emits P a b -> emits P b c -> emits P a c.
Proof.
  intros (evs1 & Ht1 & Hp1) (evs2 & Ht2 & Hp2).
  exists (evs1 ++ evs2). rewrite Ht2, Ht1, app_assoc. split; [reflexivity|].
  apply Forall_app; split; assumption.
Qed.

Lemma quiet_emits P s s' : quiet P s s' -> emits P s s'.
Proof. intros (_ & _ & H). exact H. Qed.

Lemma emits_same_trace P s s' : trace s' = trace s -> emits P s s'.
Proof. intros H. exists []. rewrite app_nil_r. split; [exact H|constructor]. Qed.

Lemma emits_getSceneInstance P dest s :
  emits P s (snd (Director_getSceneInstance dest s)).
Proof.
  apply emits_same_trace. unfold Director_getSceneInstance. rewrite bind_eq. cbn [gets].
  destruct (Director_getSceneDefinition dest (director s)) as [[r|c]|];
    destruct (_sceneToInstance (director s) !! dest); reflexivity.
Qed.

Lemma emits_swapScene dest d s :
  emits (activated_with d) s (snd (Director_swapScene dest d s)).
Proof.
  set (P := activated_with d). unfold Director_swapScene.
  apply (bind_frame (emits P) (emits_trans P)); [apply emits_refl|]. intros dir _. cbn [gets snd].
  destruct (negb (_initialized dir)); [apply emits_same_trace; reflexivity|].
  apply (bind_frame (emits P) (emits_trans P)); [apply emits_getSceneInstance|].
  intros [nextScene|] _; [|apply emits_same_trace; reflexivity].
  apply (bind_frame (emits P) (emits_trans P)); [apply emits_refl|]. intros previousScene _.
  apply (bind_frame (emits P) (emits_trans P)); [apply emits_same_trace; reflexivity|]. intros _ _.
  apply (bind_frame (emits P) (emits_trans P)); [apply emits_refl|]. intros cur _.
  apply (bind_frame (emits P) (emits_trans P)); [ |intros _ _].
  { destruct cur; [|apply emits_refl].
    apply (bind_frame (emits P) (emits_trans P)); [ |intros _ _].
    - apply quiet_emits, quiet_Scene__deactivate. exact I.
    - apply (bind_frame (emits P) (emits_trans P)); [apply emits_refl|]. intros c _.
      apply quiet_emits, quiet_record. exact I. }
  apply (bind_frame (emits P) (emits_trans P)); [apply emits_same_trace; reflexivity|]. intros _ _.
  apply (bind_frame (emits P) (emits_trans P)); [apply emits_same_trace; reflexivity|]. intros _ _.
  apply (bind_frame (emits P) (emits_trans P)); [ |intros _ _].
  { apply (bind_frame (emits P) (emits_trans P)); [apply emits_refl|]. intros c _.
    apply quiet_emits, quiet_Scene__initialize; try intros; exact I. }
  apply (bind_frame (emits P) (emits_trans P)); [ |intros _ _].
  { apply (bind_frame (emits P) (emits_trans P)); [apply emits_refl|]. intros c _.
    apply quiet_emits, quiet_Scene__activate. reflexivity. }
  apply (bind_frame (emits P) (emits_trans P)); [apply emits_refl|]. intros c _.
  apply quiet_emits, quiet_record. exact I.
Qed.


(** *** Removal *)

Lemma obj_get_delete_ne {V} (k k' : string) (o : list (string * V)) :
  k <> k' -> obj_get k (obj_delete k' o) = obj_get k o.
Proof.
  intros Hne. unfold obj_delete. induction o as [|[k0 v0] o IH]; [reflexivity|].
  rewrite filter_cons. cbn [fst obj_get]. destruct (decide (k0 <> k')) as [Hk|Hk].
  - cbn [obj_get]. destruct (String.eqb k k0); [reflexivity|exact IH].
  - assert (k0 = k') as -> by (destruct (decide (k0 = k')); [assumption|contradiction]).
    destruct (String.eqb_spec k k'); [contradiction|exact IH].
Qed.






(** *** Order of a navigation *)

Lemma quiet_bind {A B} P (m : M Stage A) (k : A -> M Stage B) (s : Stage) :
  quiet P s (snd (m s)) ->
  (forall a, fst (m s) = Ret a -> director (snd (m s)) = director s ->
             quiet P (snd (m s)) (snd (k a (snd (m s))))) ->
  quiet P s (snd (bind m k s)).
Proof.
  intros Hm Hk. apply (bind_frame (quiet P) (quiet_trans P)); [exact Hm|].
  intros a Ha. apply Hk; [exact Ha|]. destruct Hm as (Hd & _). exact Hd.
Qed.

Lemma Scene__deactivate_run this ctx s sc :
  heap s !! this = Some sc ->
  Scene__deactivate this ctx s
  = (if onDeactivate_throws (overrides (ctor sc))
     then Throw (JsError "onDeactivate") else Ret tt,
     set_trace (trace s ++ [OnDeactivate this ctx (observed s)])
       (set_log (log s ++ [(Debug, "Scene.onDeactivate")]) s)).
Proof.
  intros Hsc. unfold Scene__deactivate. rewrite bind_eq. cbn [logger modify].
  unfold Scene_onDeactivate. rewrite bind_eq.
  rewrite (deref_some this _ sc) by exact Hsc.
  cbn. destruct (onDeactivate_throws _); reflexivity.
Qed.

Lemma Scene__activate_ret this ctx s s' :
  Scene__activate this ctx s = (Ret tt, s') ->
  trace s' = trace s ++ [OnActivate this ctx (observed s)]
  /\ director s' = director s.
Proof.
  unfold Scene__activate, try_rethrow. rewrite bind_eq. cbn [logger modify].
  unfold Scene_onActivate. rewrite bind_eq. unfold deref. cbn [heap set_log].
  destruct (heap s !! this) as [sc|]; [|discriminate].
  cbn. destruct (ctor sc); cbn; try destruct (data ctx); try destruct (onActivate_throws _);
    cbn; intros H; inversion H; subst; split; reflexivity.
Qed.

(** The part of [swapScene] that runs once the pointers are on [Y]. *)
Lemma quiet_after_switch X Y dest data s :
  observed s = mkObserved Y dest ->
  quiet (after_switch Y dest) s
    (snd (((let! c := current in Scene__initialize c);;
           (let! c := current in Scene__activate c (mkContext X Y data));;
           let! c := current in record (SceneEmit c "activate")) s)).
Proof.
  intros Hobs. set (P := after_switch Y dest).
  assert (Hcur : forall s1, director s1 = director s -> currentScene (director s1) = Y
                            /\ observed s1 = mkObserved Y dest).
  { intros s1 Hd. unfold observed in *. rewrite Hd. inversion Hobs. repeat split; congruence. }
  apply quiet_bind.
  - rewrite bind_eq. cbn [current gets]. destruct (Hcur s eq_refl) as [-> Ho].
    apply quiet_Scene__initialize; try (intros; exact I). cbn. rewrite Ho. split; reflexivity.
  - intros _ _ Hd1.
    set (s1 := snd ((let! c := current in Scene__initialize c) s)) in *. clearbody s1.
    apply quiet_bind.
    + rewrite bind_eq. cbn [current gets]. destruct (Hcur _ Hd1) as [-> Ho].
      apply quiet_Scene__activate. cbn. rewrite Ho. split; reflexivity.
    + intros _ _ Hd2.
      set (s2 := snd ((let! c := current in Scene__activate c (mkContext X Y data)) s1)) in *.
      clearbody s2. rewrite bind_eq. cbn [current gets].
      apply quiet_record. exact I.
Qed.

(** When that part returns normally, it ends with [Y]'s [onActivate] and
    the activate event. *)
Lemma after_switch_returns X Y dest data sw :
  observed sw = mkObserved Y dest ->
  fst (((let! c := current in Scene__initialize c);;
        (let! c := current in Scene__activate c (mkContext X Y data));;
        let! c := current in record (SceneEmit c "activate")) sw) = Ret tt ->
  exists mid,
    trace (snd (((let! c := current in Scene__initialize c);;
                 (let! c := current in Scene__activate c (mkContext X Y data));;
                 let! c := current in record (SceneEmit c "activate")) sw))
    = trace sw ++ mid ++ [OnActivate Y (mkContext X Y data) (mkObserved Y dest);
                          SceneEmit Y "activate"].
Proof.
  intros Hobsw Hret.
  assert (HcurY : currentScene (director sw) = Y)
    by (unfold observed in Hobsw; injection Hobsw; intros; assumption).
  rewrite bind_eq in Hret. rewrite bind_eq.
  destruct ((let! c := current in Scene__initialize c) sw) as [[[]|e] si] eqn:Ei;
    [|discriminate].
  assert (Hqi : quiet (after_switch Y dest) sw si).
  { replace si with (snd ((let! c := current in Scene__initialize c) sw)) by (rewrite Ei; reflexivity).
    rewrite bind_eq. cbn [current gets]. rewrite HcurY.
    apply quiet_Scene__initialize; try (intros; exact I).
    cbn. rewrite Hobsw. split; reflexivity. }
  destruct Hqi as (Hdi & _ & evi & Hti & _).
  rewrite bind_eq in Hret. rewrite bind_eq.
  rewrite (bind_eq current) in Hret. rewrite (bind_eq current).
  cbn [current gets] in Hret. cbn [current gets].
  destruct (Scene__activate (currentScene (director si)) (mkContext X Y data) si)
    as [[[]|e] sa] eqn:Ea; [|discriminate].
  apply Scene__activate_ret in Ea. destruct Ea as [Hta Hda].
  rewrite bind_eq. cbn [current gets record modify snd trace set_trace].
  exists evi. rewrite Hda, Hdi, HcurY, Hta, Hti. unfold observed. rewrite Hdi.
  change (mkObserved (currentScene (director sw)) (currentSceneName (director sw)))
    with (observed sw).
  rewrite Hobsw, HcurY, <- !app_assoc. reflexivity.
Qed.

(** C3, as the code has it: a navigation by [swapScene] on an initialized
    Director, from the current, initialized scene [X] to a registered
    destination resolving to [Y].  The first thing that happens is [X]'s
    [onDeactivate], which sees [currentScene] and [currentSceneName] still
    at [X]; if it throws, nothing else happens and the pointers stay at [X].
    Otherwise the deactivate event is emitted, the pointers are set to [Y],
    and only then [Y] is initialized and activated: every [onInitialize] and
    [onActivate] that follows belongs to [Y] and sees the pointers already
    at [Y], and no further deactivation runs.  When the navigation returns
    normally it ends with [Y]'s [onActivate] and the activate event. *)
Theorem swapScene_deactivates_then_switches
    (s : Stage) (dest : string) (data : option ActivationData)
    (scx : Scene) (v : SceneOrCtor) :
  let X := currentScene (director s) in
  let nameX := currentSceneName (director s) in
  _initialized (director s) = true ->
  heap s !! X = Some scx -> _isInitialized scx = true ->
  Director_getSceneDefinition dest (director s) = Some v ->
  exists Y evs,
    fst (Director_getSceneInstance dest s) = Ret (Some Y)
    /\ trace (snd (Director_swapScene dest data s))
       = trace s ++ OnDeactivate X (mkContext X Y None) (mkObserved X nameX) :: evs
    /\ Forall (after_switch Y dest) evs
    /\ (if onDeactivate_throws (overrides (ctor scx))
        then evs = [] /\ observed (snd (Director_swapScene dest data s)) = mkObserved X nameX
        else observed (snd (Director_swapScene dest data s)) = mkObserved Y dest
             /\ exists evs', evs = SceneEmit X "deactivate" :: evs'
                /\ (fst (Director_swapScene dest data s) = Ret tt ->
                    exists mid, evs' = mid ++ [OnActivate Y (mkContext X Y data) (mkObserved Y dest);
                                               SceneEmit Y "activate"])).
Proof.
  intros X nameX Hinit Hscx HscxInit Hdef.
  destruct (getSceneInstance_registered dest s v Hdef)
    as (Y & s0 & Hget & Ht0 & Hl0 & Hobs0 & Hi0 & Hsc0 & Hheap0).
  exists Y.
  assert (HX0 : currentScene (director s0) = X).
  { unfold observed in Hobs0. injection Hobs0; intros; assumption. }
  assert (HN0 : currentSceneName (director s0) = nameX).
  { unfold observed in Hobs0. injection Hobs0; intros; assumption. }
  unfold Director_swapScene. rewrite bind_eq. cbn [gets]. rewrite Hinit. cbn [negb].
  rewrite bind_eq, Hget. rewrite bind_eq. cbn [current gets]. rewrite HX0.
  rewrite bind_eq. cbn [logger modify].
  set (sl := set_log (log s0 ++ [(Debug, ("Going to scene: " ++ dest)%string)]) s0).
  assert (Hscl : heap sl !! X = Some scx) by (apply Hheap0; exact Hscx).
  rewrite bind_eq. cbn [gets]. rewrite Hscl, HscxInit.
  rewrite bind_eq. rewrite (bind_eq (Scene__deactivate _ _)).
  rewrite (Scene__deactivate_run X _ sl scx Hscl).
  assert (Hobsl : observed sl = mkObserved X nameX).
  { unfold observed. cbn. congruence. }
  rewrite Hobsl.
  destruct (onDeactivate_throws (overrides (ctor scx))).
  - exists []. cbn. rewrite Ht0. repeat split; try reflexivity; try constructor.
    unfold observed. cbn. congruence.
  - rewrite bind_eq. cbn [current gets director set_trace set_log].
    change (currentScene (director sl)) with (currentScene (director s0)). rewrite HX0.
    cbn [record modify]. rewrite bind_eq. cbn [update_director modify].
    rewrite bind_eq. cbn [update_director modify].
    match goal with
    | |- context [bind _ _ ?st] => set (sw := st)
    end.
    assert (Hobsw : observed sw = mkObserved Y dest) by reflexivity.
    pose proof (quiet_after_switch X Y dest data sw Hobsw) as Hq.
    destruct Hq as (Hd & _ & evs2 & Ht2 & Hp2).
    exists (SceneEmit X "deactivate" :: evs2).
    split; [reflexivity|]. split.
    { rewrite Ht2. subst sw sl. cbn [trace set_trace set_log set_director].
      rewrite Ht0, <- !app_assoc. reflexivity. }
    split; [constructor; [exact I|exact Hp2]|].
    split; [unfold observed; rewrite Hd; exact Hobsw|].
    exists evs2. split; [reflexivity|]. intros Hret.
    destruct (after_switch_returns X Y dest data sw Hobsw Hret) as [mid Hmid].
    exists mid. apply (app_inv_head (trace sw)). rewrite <- Ht2. exact Hmid.
Qed.

(** *** Navigation to a name that is not registered *)

(** A name that is neither registered nor "constructor": [goToScene] logs
    one warning and returns; nothing else changes. *)
Lemma goToScene_unregistered_name (s : Stage) (name : string) (options : option GoToOptions) :
  obj_get name (scenes (director s)) = None -> name <> "constructor" ->
  exists s', Director_goToScene name options s = (Ret tt, s')
    /\ Engine_goToScene name options s = (Ret tt, s')
    /\ log s' = log s ++ [(Warn, ("Scene " ++ name
               ++ " does not exist! Check the name, are you sure you added it?")%string)]
    /\ trace s' = trace s
    /\ director s' = director s
    /\ heap s' = heap s.
Proof.
  intros H Hne. unfold Engine_goToScene, Director_goToScene.
  rewrite bind_eq, (getSceneInstance_unknown _ _ H Hne). cbn.
  eexists. repeat split.
Qed.

(** The first lookup of the unregistered name "constructor": [new Object()]
    is allocated and cached. *)
Lemma getSceneInstance_constructor s :
  obj_get "constructor" (scenes (director s)) = None ->
  _sceneToInstance (director s) !! "constructor" = None ->
  Director_getSceneInstance "constructor" s
  = (Ret (Some (length (heap s))),
     set_director
       (set__sceneToInstance (<["constructor" := length (heap s)]> (_sceneToInstance (director s)))
                             (director s))
       (set_heap (mkHeap (heap s ++ [PlainObject])) s)).
Proof.
  intros Hown Hcache. unfold Director_getSceneInstance, Director_getSceneDefinition.
  rewrite bind_eq. cbn [gets]. rewrite Hown. cbn [String.eqb Ascii.eqb Bool.eqb].
  rewrite Hcache. reflexivity.
Qed.

(** C6 fails for the name "constructor", which no one registered: on a
    started Director whose current scene [X] is a live scene (with an
    [onDeactivate] that returns, if [X] is initialized), [goToScene] and
    [Engine.goToScene] log no warning.  They emit "navigationstart",
    deactivate [X] when it is initialized, move [currentScene] to a new
    object that is not a scene and [currentSceneName] to "constructor", and
    throw a TypeError. *)
Theorem goToScene_constructor_throws
    (s : Stage) (options : option GoToOptions) (scx : Scene) :
  let X := currentScene (director s) in
  let nameX := currentSceneName (director s) in
  let Y := length (heap s) in
  let r := Director_goToScene "constructor" options s in
  _initialized (director s) = true ->
  obj_get "constructor" (scenes (director s)) = None ->
  _sceneToInstance (director s) !! "constructor" = None ->
  heap s !! X = Some scx ->
  (_isInitialized scx = true -> onDeactivate_throws (overrides (ctor scx)) = false) ->
  (exists msg, fst r = Throw (TypeError msg))
  /\ Engine_goToScene "constructor" options s = r
  /\ log (snd r)
     = log s ++ (Debug, "Going to scene: constructor")
          :: (if _isInitialized scx then [(Debug, "Scene.onDeactivate")] else [])
  /\ trace (snd r)
     = trace s ++ DirectorEmit "navigationstart" nameX "constructor"
          :: (if _isInitialized scx
              then [OnDeactivate X (mkContext X Y None) (mkObserved X nameX);
                    SceneEmit X "deactivate"]
              else [])
  /\ observed (snd r) = mkObserved Y "constructor"
  /\ cells (heap (snd r)) !! Y = Some PlainObject
  /\ heap (snd r) !! Y = None.
Proof.
  intros X nameX Y r Hinit Hown Hcache Hscx Hquiet.
  assert (Hrun :
    exists msg st,
      Director_goToScene "constructor" options s = (Throw (TypeError msg), st)
      /\ log st = log s ++ (Debug, "Going to scene: constructor")
                     :: (if _isInitialized scx then [(Debug, "Scene.onDeactivate")] else [])
      /\ trace st = trace s ++ DirectorEmit "navigationstart" nameX "constructor"
                      :: (if _isInitialized scx
                          then [OnDeactivate X (mkContext X Y None) (mkObserved X nameX);
                                SceneEmit X "deactivate"]
                          else [])
      /\ observed st = mkObserved Y "constructor"
      /\ heap st = mkHeap (heap s ++ [PlainObject])).
  2:{ destruct Hrun as (msg & st & Hrun & Hlog & Htrace & Hobs & Hheap).
      subst r. unfold Engine_goToScene. rewrite Hrun. cbn [fst snd].
      split; [exists msg; reflexivity|]. split; [reflexivity|].
      split; [exact Hlog|]. split; [exact Htrace|]. split; [exact Hobs|].
      rewrite Hheap.
      split; [cbn [cells]; apply list_lookup_middle; reflexivity
             |apply (Heap_lookup_fresh (heap s) PlainObject)]. }
  unfold Director_goToScene.
  rewrite bind_eq, (getSceneInstance_constructor s Hown Hcache).
  rewrite bind_eq. cbn [gets]. rewrite bind_eq.
  unfold Director__emitEvent at 1. cbn [record modify].
  match goal with |- context [bind (Director_swapScene _ _) _ ?st] => set (s0 := st) end.
  assert (Hswap :
    exists msg st,
      Director_swapScene "constructor"
        match options with Some o => sceneActivationData o | None => None end s0
      = (Throw (TypeError msg), st)
      /\ log st = log s0 ++ (Debug, "Going to scene: constructor")
                     :: (if _isInitialized scx then [(Debug, "Scene.onDeactivate")] else [])
      /\ trace st = trace s0
                    ++ (if _isInitialized scx
                        then [OnDeactivate X (mkContext X Y None) (mkObserved X nameX);
                              SceneEmit X "deactivate"]
                        else [])
      /\ director st = set_currentSceneName "constructor" (set_currentScene Y (director s0))
      /\ heap st = heap s0).
  { unfold Director_swapScene. rewrite bind_eq. cbn [gets].
    change (_initialized (director s0)) with (_initialized (director s)). rewrite Hinit.
    cbn [negb]. rewrite bind_eq.
    assert (Hget : Director_getSceneInstance "constructor" s0 = (Ret (Some Y), s0)).
    { unfold Director_getSceneInstance, Director_getSceneDefinition.
      rewrite bind_eq. cbn [gets].
      change (scenes (director s0)) with (scenes (director s)). rewrite Hown.
      cbn [String.eqb Ascii.eqb Bool.eqb].
      change (_sceneToInstance (director s0))
        with (<["constructor" := Y]> (_sceneToInstance (director s))).
      rewrite lookup_insert_eq. reflexivity. }
    rewrite Hget. rewrite bind_eq. cbn [current gets].
    change (currentScene (director s0)) with X.
    rewrite bind_eq. cbn [logger modify].
    set (sl := set_log (log s0 ++ [(Debug, ("Going to scene: " ++ "constructor")%string)]) s0).
    assert (Hscl : heap sl !! X = Some scx).
    { change (heap sl) with (mkHeap (heap s ++ [PlainObject])).
      apply Heap_lookup_push. exact Hscx. }
    assert (HY : forall st, heap st = heap sl -> heap st !! Y = None).
    { intros st ->. change (heap sl) with (mkHeap (heap s ++ [PlainObject])).
      apply (Heap_lookup_fresh (heap s) PlainObject). }
    rewrite bind_eq. cbn [gets]. rewrite Hscl.
    destruct (_isInitialized scx) eqn:Ex.
    - rewrite bind_eq. rewrite (bind_eq (Scene__deactivate _ _)).
      rewrite (Scene__deactivate_run X _ sl scx Hscl), (Hquiet eq_refl).
      rewrite bind_eq. cbn [current gets director set_trace set_log].
      cbn [record modify]. rewrite bind_eq. cbn [update_director modify].
      rewrite bind_eq. cbn [update_director modify].
      rewrite bind_eq, (bind_eq current). cbn [current gets].
      match goal with |- context [Scene__initialize ?c ?st] =>
        assert (Hi : Scene__initialize c st
                     = (Throw (TypeError "not a scene"), st))
      end.
      { unfold Scene__initialize. rewrite bind_eq. unfold deref.
        rewrite HY by reflexivity. reflexivity. }
      rewrite Hi. eexists _, _. split; [reflexivity|]. subst sl.
      cbn [log trace heap director set_director set_trace set_log set_heap].
      rewrite <- !app_assoc. repeat split.
    - rewrite bind_eq. cbn [ret]. rewrite bind_eq. cbn [update_director modify].
      rewrite bind_eq. cbn [update_director modify].
      rewrite bind_eq, (bind_eq current). cbn [current gets].
      match goal with |- context [Scene__initialize ?c ?st] =>
        assert (Hi : Scene__initialize c st
                     = (Throw (TypeError "not a scene"), st))
      end.
      { unfold Scene__initialize. rewrite bind_eq. unfold deref.
        rewrite HY by reflexivity. reflexivity. }
      rewrite Hi. eexists _, _. split; [reflexivity|]. subst sl.
      cbn [log trace heap director set_director set_trace set_log set_heap].
      rewrite ?app_nil_r. repeat split. }
  destruct Hswap as (msg & st & Hswap & Hlog & Htrace & Hdir & Hheap).
  rewrite bind_eq, Hswap. cbv beta iota.
  exists msg, st. split; [reflexivity|].
  unfold observed. rewrite Hlog, Htrace, Hdir, Hheap.
  cbn [log trace heap director set_director set_trace set_log set_heap s0
       currentScene currentSceneName set_currentScene set_currentSceneName].
  rewrite <- !app_assoc. repeat split.
Qed.

(** *** A navigation asked for before the Director is initialized *)

(** What [getSceneInstance] answers depends on the registry, the instance
    cache and the next free address only. *)
Lemma getSceneInstance_result name s s' :
  scenes (director s') = scenes (director s) ->
  _sceneToInstance (director s') = _sceneToInstance (director s) ->
  length (heap s') = length (heap s) ->
  fst (Director_getSceneInstance name s') = fst (Director_getSceneInstance name s).
Proof.
  intros Hs Hc Hl. unfold Director_getSceneInstance, Director_getSceneDefinition.
  rewrite !bind_eq. cbn [gets]. rewrite Hs, Hc.
  destruct (obj_get name (scenes (director s))) as [[[r|c]|[r|c]]|];
    [| | | |destruct (String.eqb name "constructor")];
    destruct (_sceneToInstance (director s) !! name); try reflexivity;
    cbn; rewrite Hl; reflexivity.
Qed.

(** A navigation by [swapScene] on an initialized Director to a registered
    destination that returns normally ends with the destination's
    [onActivate], called with the data [swapScene] was given, and the
    activate event. *)
Lemma swapScene_returns_activated dest data s v :
  _initialized (director s) = true ->
  Director_getSceneDefinition dest (director s) = Some v ->
  fst (Director_swapScene dest data s) = Ret tt ->
  exists Y mid,
    fst (Director_getSceneInstance dest s) = Ret (Some Y)
    /\ trace (snd (Director_swapScene dest data s))
       = trace s ++ mid ++ [OnActivate Y (mkContext (currentScene (director s)) Y data)
                                         (mkObserved Y dest);
                            SceneEmit Y "activate"].
Proof.
  intros Hinit Hdef Hret.
  destruct (getSceneInstance_registered dest s v Hdef)
    as (Y & s0 & Hget & Ht0 & Hl0 & Hobs0 & Hi0 & Hsc0 & Hheap0).
  exists Y.
  assert (HX0 : currentScene (director s0) = currentScene (director s)).
  { unfold observed in Hobs0. injection Hobs0; intros; assumption. }
  unfold Director_swapScene in Hret |- *.
  rewrite bind_eq in Hret |- *. cbn [gets] in Hret |- *.
  rewrite Hinit in Hret |- *. cbn [negb] in Hret |- *.
  rewrite bind_eq, Hget in Hret |- *.
  rewrite bind_eq in Hret |- *. cbn [current gets] in Hret |- *.
  rewrite HX0 in Hret |- *.
  rewrite bind_eq in Hret |- *. cbn [logger modify] in Hret |- *.
  set (sl := set_log (log s0 ++ [(Debug, ("Going to scene: " ++ dest)%string)]) s0) in *.
  rewrite bind_eq in Hret |- *. cbn [gets] in Hret |- *.
  set (X := currentScene (director s)) in *.
  set (pre := (if match heap sl !! X with
                  | Some cur => _isInitialized cur
                  | None => false
                  end
               then
                 Scene__deactivate X (mkContext X Y None);;
                 let! c := current in record (SceneEmit c "deactivate")
               else ret tt) : M Stage unit) in *.
  assert (Hq : quiet (fun _ => True) sl (snd (pre sl))).
  { subst pre. destruct (match heap sl !! X with
                         | Some cur => _isInitialized cur
                         | None => false
                         end); [|apply quiet_refl].
    apply (bind_frame _ (quiet_trans _)); [apply quiet_Scene__deactivate; exact I|].
    intros _ _. rewrite bind_eq. cbn [current gets]. apply quiet_record. exact I. }
  rewrite bind_eq in Hret |- *.
  destruct (pre sl) as [[[]|e] sp]; [|discriminate Hret].
  cbn [snd] in Hq. destruct Hq as (Hdp & _ & mid1 & Htp & _).
  rewrite bind_eq in Hret |- *. cbn [update_director modify] in Hret |- *.
  rewrite bind_eq in Hret |- *. cbn [update_director modify] in Hret |- *.
  match type of Hret with
  | fst (_ ?st) = _ => set (sw := st) in *
  end.
  assert (Hobsw : observed sw = mkObserved Y dest) by reflexivity.
  destruct (after_switch_returns X Y dest data sw Hobsw Hret) as [mid Hmid].
  exists (mid1 ++ mid). split; [reflexivity|].
  rewrite Hmid. subst sw. cbn [trace set_director]. rewrite Htp.
  subst sl. cbn [trace set_log]. rewrite Ht0, <- !app_assoc. reflexivity.
Qed.

(** C10: [Director.swapScene(destination, data)] on a Director that is not
    yet initialized only stores the destination name: no lifecycle hook runs
    and the result does not depend on [data].  The navigation that
    [Director.onInitialize] performs afterwards is [swapScene] without
    data (to ["root"] when the stored name is the empty string), so every
    [onActivate] it runs receives a context whose data is undefined.  In
    particular, when the destination is registered and that navigation
    returns normally, it ends with the [onActivate] of the destination
    scene, called with undefined data, and the activate event. *)
Theorem swapScene_deferred_drops_data
    (s : Stage) (destination : string) (data : option ActivationData) :
  _initialized (director s) = false ->
  let s1 := set_director (set__deferredGoto (Some destination) (director s)) s in
  Director_swapScene destination data s = (Ret tt, s1)
  /\ Director_swapScene destination data s = Director_swapScene destination None s
  /\ trace s1 = trace s
  /\ (exists target s2,
        target = (if String.eqb destination "" then "root" else destination)
        /\ _initialized (director s2) = true
        /\ trace s2 = trace s
        /\ Director_onInitialize s1 = Director_swapScene target None s2)
  /\ (exists evs, trace (snd (Director_onInitialize s1)) = trace s ++ evs
                  /\ Forall (activated_with None) evs)
  /\ (let target := if String.eqb destination "" then "root" else destination in
      forall v, Director_getSceneDefinition target (director s) = Some v ->
        fst (Director_onInitialize s1) = Ret tt ->
        exists Y mid,
          fst (Director_getSceneInstance target s) = Ret (Some Y)
          /\ trace (snd (Director_onInitialize s1))
             = trace s ++ mid
                 ++ [OnActivate Y (mkContext (currentScene (director s)) Y None)
                                  (mkObserved Y target);
                     SceneEmit Y "activate"]).
Proof.
  intros Huninit s1.
  assert (Hswap : forall d, Director_swapScene destination d s = (Ret tt, s1)).
  { intros d. unfold Director_swapScene. rewrite bind_eq. cbn [gets].
    rewrite Huninit. reflexivity. }
  assert (Hinit : exists target s2,
        target = (if String.eqb destination "" then "root" else destination)
        /\ _initialized (director s2) = true
        /\ trace s2 = trace s
        /\ Director_onInitialize s1 = Director_swapScene target None s2
        /\ scenes (director s2) = scenes (director s)
        /\ _sceneToInstance (director s2) = _sceneToInstance (director s)
        /\ currentScene (director s2) = currentScene (director s)
        /\ heap s2 = heap s).
  { unfold Director_onInitialize. rewrite bind_eq. cbn [gets].
    subst s1. cbn [director set_director _initialized set__deferredGoto _deferredGoto].
    rewrite Huninit. cbn [negb]. rewrite bind_eq. cbn [update_director modify].
    destruct (String.eqb destination "") eqn:E.
    - eexists _, _. split; [reflexivity|].
      split; [|split; [|split; [reflexivity|]]]; repeat split.
    - rewrite bind_eq. cbn [update_director modify].
      eexists _, _. split; [reflexivity|].
      split; [|split; [|split; [reflexivity|]]]; repeat split. }
  split; [apply Hswap|]. split; [rewrite !Hswap; reflexivity|].
  split; [reflexivity|].
  destruct Hinit as (target & s2 & Htarget & Hi2 & Ht & Hrun & Hsc2 & Hc2 & HX2 & Hh2).
  split; [exists target, s2; auto|].
  split.
  - rewrite Hrun. destruct (emits_swapScene target None s2) as (evs & Hevs & HP).
    exists evs. rewrite Hevs, Ht. split; [reflexivity|exact HP].
  - cbv zeta. rewrite <- Htarget, Hrun. intros v Hdef Hret.
    assert (Hdef2 : Director_getSceneDefinition target (director s2) = Some v).
    { unfold Director_getSceneDefinition in *. rewrite Hsc2. exact Hdef. }
    destruct (swapScene_returns_activated target None s2 v Hi2 Hdef2 Hret)
      as (Y & mid & HY & Htrace).
    exists Y, mid. split.
    + rewrite <- HY. symmetry. apply getSceneInstance_result; congruence.
    + rewrite Htrace, Ht, HX2. reflexivity.
Qed.

(** ** The room glue *)

(** *** Movement *)

Lemma direction_block_snapshot dir side move a r a' :
  direction_block dir side move a = (r, a') -> snapshot_of a' = snapshot_of a.
Proof.
  unfold direction_block. destruct (js_includes dir (directions a)).
  - destruct (getIsColliding a) as [c|e]; [|intros H; inversion H; reflexivity].
    destruct (isColliding c && Side_eqb (collisionDirection c) side);
      intros H; inversion H; reflexivity.
  - intros H; inversion H; reflexivity.
Qed.

Lemma and_then_snapshot (m k : M Actor flow) :
  (forall a r a', m a = (r, a') -> snapshot_of a' = snapshot_of a) ->
  (forall a r a', k a = (r, a') -> snapshot_of a' = snapshot_of a) ->
  forall a r a', and_then m k a = (r, a') -> snapshot_of a' = snapshot_of a.
Proof.
  intros Hm Hk a r a'. unfold and_then. rewrite bind_eq.
  destruct (m a) as [[f|e] a1] eqn:E.
  - destruct f.
    + intros H. rewrite (Hk _ _ _ H). eapply Hm; exact E.
    + intros H. inversion H; subst. eapply Hm; exact E.
  - intros H. inversion H; subst. eapply Hm; exact E.
Qed.

(** The movement pass writes [position] only: name, uuid and the transform
    [pos], which is all a snapshot reads, stay as they are. *)
Lemma move_entity_snapshot a r a' :
  move_entity a = (r, a') -> snapshot_of a' = snapshot_of a.
Proof.
  unfold move_entity. destruct (0 <? length (directions a))%nat.
  - revert a r a'. repeat apply and_then_snapshot; intros a r a';
      apply direction_block_snapshot.
  - intros H. inversion H. reflexivity.
Qed.

Lemma updateEntities_loop_snapshot players :
  forall ents r ents',
    updateEntities_loop players ents = (r, ents') ->
    map snapshot_of ents' = map snapshot_of ents.
Proof.
  induction players as [|player rest IH]; intros ents r ents'; cbn [updateEntities_loop].
  - intros H. inversion H. reflexivity.
  - destruct (find_pos _ ents) as [i|]; [|intros H; inversion H; reflexivity].
    destruct (ents !! i) as [pEnt|] eqn:Ei; [|intros H; inversion H; reflexivity].
    destruct (move_entity pEnt) as [[f|e] pEnt'] eqn:Em.
    all: assert (Hins : map snapshot_of (<[i := pEnt']> ents) = map snapshot_of ents)
      by (rewrite list_fmap_insert, (move_entity_snapshot _ _ _ Em);
          apply list_insert_id; rewrite list_lookup_fmap, Ei; reflexivity).
    + destruct f.
      * intros H. rewrite (IH _ _ _ H). exact Hins.
      * intros H. inversion H; subst. exact Hins.
    + intros H. inversion H; subst. exact Hins.
Qed.

(** A player who holds "up" while blocked at the top makes
    [updateEntities] return on the spot: neither that player's other
    directions nor any later player is processed. *)
Lemma updateEntities_loop_returns_when_blocked player rest ents i pEnt :
  find_pos (fun entity => String.eqb (uuid entity) (ServerTransmitEntities.id player)) ents = Some i ->
  ents !! i = Some pEnt ->
  class pEnt = ClientActor ->
  js_includes "up" (directions pEnt) = true ->
  isColliding (collisionData pEnt) = true ->
  collisionDirection (collisionData pEnt) = Top ->
  updateEntities_loop (player :: rest) ents = (Ret tt, ents).
Proof.
  intros Hfind Hi Hclass Hup Hcol Hdir. cbn [updateEntities_loop].
  rewrite Hfind, Hi.
  assert (Hmove : move_entity pEnt = (Ret Returned, pEnt)).
  { unfold move_entity.
    assert (Hlen : (0 <? length (directions pEnt))%nat = true).
    { destruct (directions pEnt); [discriminate|reflexivity]. }
    rewrite Hlen. unfold and_then at 1. rewrite bind_eq.
    unfold direction_block at 1. rewrite Hup. unfold getIsColliding.
    rewrite Hclass, Hcol, Hdir. reflexivity. }
  rewrite Hmove, list_insert_id by exact Hi. reflexivity.
Qed.

(** C1, on the code: in a room where Alice holds "up" and "left" while
    blocked at the top, and Bob, processed after her, holds "right", the
    movement pass returns at Alice's blocked "up": Alice does not move up,
    but her "left" is not applied either, and Bob is not moved.  In the
    same room with Alice touching nothing, she moves up and left and Bob
    moves right, each by [playerSpeed]. *)
Theorem updateEntities_blocked_up_returns_early :
  let after := snd (updateEntities (Some "room-1") blocked_room) in
  let free := snd (updateEntities (Some "room-1") free_room) in
  fst (updateEntities (Some "room-1") blocked_room) = Ret tt
  /\ room_entities "room-1" after = Some [npc_above; alice_blocked; bob]
  /\ (map position <$> room_entities "room-1" after)
     = Some [Quat.mk 100 76 0 0; Quat.mk 100 100 0 0; Quat.mk 300 300 0 0]
  /\ (map position <$> room_entities "room-1" free)
     = Some [Quat.mk 100 76 0 0; Quat.mk 96 96 0 0; Quat.mk 304 300 0 0].
Proof. vm_compute. repeat split. Qed.

(** *** Collision resolution *)

(** After [onCollisionStart] with the contact on its bottom side, an actor
    whose transform was in step with [position] sits exactly on top of the
    other actor. *)
Lemma onCollisionStart_bottom_adjacent (this otherActor : Actor) :
  Vector.y (pos this) = Quat.y (position this) ->
  let resolved := ClientActor_onCollisionStart otherActor Bottom this in
  (Vector.y (pos resolved) + height resolved = Vector.y (pos otherActor))%Z
  /\ Quat.y (position resolved) = Vector.y (pos resolved)
  /\ Quat.x (position resolved) = Quat.x (position this).
Proof. intros H. cbn. rewrite H. repeat split; lia. Qed.

(** C5: a [ClientActor] with a box of height 24 at (100, 100) holding
    "down" is moved by [playerSpeed] to y = 104 in the movement pass; with
    another actor at (100, 124), one run of [onCollisionStart] for the
    contact on its bottom side puts its [position.y] and its transform back
    at exactly 100, so that its lower edge coincides with the other actor's
    y = 124. *)
Theorem passive_actor_snaps_back_adjacent (a b : Actor) :
  class a = ClientActor ->
  pos a = Vector.mk 100 100 -> position a = Quat.mk 100 100 0 0 -> height a = 24%Z ->
  directions a = ["down"] -> isColliding (collisionData a) = false ->
  pos b = Vector.mk 100 124 ->
  exists moved, move_entity a = (Ret Continue, moved)
    /\ Quat.y (position moved) = 104%Z
    /\ let resolved := ClientActor_onCollisionStart b Bottom (ClientActor_onPreUpdate moved) in
       Quat.y (position resolved) = 100%Z
       /\ Vector.y (pos resolved) = 100%Z
       /\ (Vector.y (pos resolved) + height resolved = Vector.y (pos b))%Z
       /\ Quat.x (position resolved) = 100%Z
       /\ isColliding (collisionData resolved) = true.
Proof.
  intros Hclass Hpos Hposition Hh Hdirs Hfree Hb.
  destruct a as [cl nm uu ps wd ht ct pn dirs sp [col side oth] np ini act].
  destruct b as [cl' nm' uu' ps' wd' ht' ct' pn' dirs' sp' cd' np' ini' act'].
  cbn in Hclass, Hpos, Hposition, Hh, Hdirs, Hfree, Hb. subst.
  eexists. split; [reflexivity|]. cbn. repeat split.
Qed.

Lemma passive_actor_snaps_back_adjacent_witness :
  exists moved, move_entity dave = (Ret Continue, moved)
    /\ Quat.y (position moved) = 104%Z
    /\ let resolved := ClientActor_onCollisionStart npc_below Bottom (ClientActor_onPreUpdate moved) in
       Quat.y (position resolved) = 100%Z
       /\ Vector.y (pos resolved) = 100%Z
       /\ (Vector.y (pos resolved) + height resolved = Vector.y (pos npc_below))%Z
       /\ Quat.x (position resolved) = 100%Z
       /\ isColliding (collisionData resolved) = true.
Proof.
  apply (passive_actor_snaps_back_adjacent dave npc_below); reflexivity.
Defined.

(** *** Leaving a room *)

Lemma find_pos_lt {A} (p : A -> bool) (l : list A) i :
  find_pos p l = Some i -> (i < length l)%nat.
Proof.
  revert i. induction l as [|a l IH]; intros i; cbn; [discriminate|].
  destruct (p a); [intros H; inversion H; lia|].
  destruct (find_pos p l) as [j|]; cbn; [|discriminate].
  intros H. inversion H. specialize (IH j eq_refl). lia.
Qed.

(** [splice(-1, 1)] drops the last element, if there is one. *)
Lemma js_splice_last {A} (l : list A) : js_splice (-1) 1 l = removelast l.
Proof.
  unfold js_splice. cbn [Z.ltb Z.compare].
  destruct l as [|a l'] eqn:E; [reflexivity|]. rewrite <- E.
  assert (Hlen : (1 <= Z.of_nat (length l))%Z) by (subst l; cbn [length]; lia).
  rewrite Z.max_l by lia. rewrite Z.max_l by lia. rewrite Z.min_l by lia.
  replace (Z.to_nat (Z.of_nat (length l) + -1) + Z.to_nat 1)%nat with (length l) by lia.
  rewrite drop_all, app_nil_r.
  replace (Z.to_nat (Z.of_nat (length l) + -1)) with (pred (length l)) by lia.
  symmetry. apply removelast_firstn_len.
Qed.

(** [splice(i, 1)] with [i] inside the array drops the element at [i]. *)
Lemma js_splice_at {A} (l : list A) (i : nat) :
  (i < length l)%nat -> js_splice (Z.of_nat i) 1 l = delete i l.
Proof.
  intros Hi. unfold js_splice.
  assert (Hnn : (Z.of_nat i <? 0)%Z = false) by (apply Z.ltb_ge; lia).
  rewrite Hnn. rewrite Z.min_l by lia. rewrite Z.max_l by lia. rewrite Z.min_l by lia.
  rewrite Nat2Z.id. replace (i + Z.to_nat 1)%nat with (S i) by lia.
  symmetry. apply delete_take_drop.
Qed.

Lemma js_splice_findIndex {A} (p : A -> bool) (l : list A) :
  js_splice (js_findIndex p l) 1 l
  = match find_pos p l with
    | Some i => delete i l
    | None => removelast l
    end.
Proof.
  unfold js_findIndex. destruct (find_pos p l) as [i|] eqn:E.
  - apply js_splice_at. eapply find_pos_lt. exact E.
  - apply js_splice_last.
Qed.

Lemma in_engine_run {A} (e : RoomId) (m : M Stage A) (sv : Server) ws :
  rooms sv !! e = Some ws ->
  in_engine e m sv
  = (fst (m (WorldState.gameEngine ws)),
     set_rooms (<[e := WorldState.set_gameEngine (snd (m (WorldState.gameEngine ws))) ws]>
                  (rooms sv)) sv).
Proof.
  intros H. unfold in_engine. rewrite H. destruct (m _). reflexivity.
Qed.

Lemma in_currentScene_run {A} (m : M (list Actor) A) (st : Stage) sc :
  heap st !! currentScene (director st) = Some sc ->
  in_currentScene m st
  = (fst (m (entities sc)),
     set_heap (<[currentScene (director st) := set_entities (snd (m (entities sc))) sc]> (heap st)) st).
Proof.
  intros H. unfold in_currentScene. rewrite bind_eq. cbn [current gets].
  unfold in_scene. rewrite H. destruct (m _). reflexivity.
Qed.

(** C9, as the code has it: [unsubscribeUser] on an existing room removes
    from the room's [players] list what [splice(findIndex(...), 1)] removes:
    the first entry whose [networkId] is the user id when there is one, and
    otherwise, [findIndex] giving -1, the last entry of the list; on an
    empty list nothing is removed. *)
Theorem unsubscribeUser_splices_players
    (sv : Server) (roomId userId : string) (ws : WorldState.t) (sc : Scene) :
  rooms sv !! roomId = Some ws ->
  heap (WorldState.gameEngine ws) !! currentScene (director (WorldState.gameEngine ws)) = Some sc ->
  exists sv' players',
    unsubscribeUser roomId userId sv = (Ret tt, sv')
    /\ room_players roomId sv' = Some players'
    /\ (forall i, find_pos (is_user userId) (WorldState.players ws) = Some i ->
          players' = delete i (WorldState.players ws))
    /\ (find_pos (is_user userId) (WorldState.players ws) = None ->
          (forall init last, WorldState.players ws = init ++ [last] -> players' = init)
          /\ (WorldState.players ws = [] -> players' = [])).
Proof.
  intros Hroom Hsc. unfold unsubscribeUser. rewrite Hroom.
  rewrite (in_engine_run roomId _ sv ws Hroom).
  rewrite (in_currentScene_run _ _ sc Hsc). cbn [fst snd modify].
  eexists _, _. split; [reflexivity|]. split.
  { unfold room_players. cbn [rooms set_rooms].
    rewrite lookup_alter_eq, lookup_insert_eq. cbn. reflexivity. }
  fold (is_user userId). rewrite js_splice_findIndex. split.
  - intros i ->. reflexivity.
  - intros ->. split.
    + intros init last ->. apply removelast_last.
    + intros ->. reflexivity.
Qed.

(** With no entry for "ghost" in the room of Alice and Bob, Bob's entry,
    the last one, is removed. *)
Lemma unsubscribeUser_splices_players_witness :
  let ws := room_state "room-1" [npc_above; alice_blocked; bob] in
  exists sv' players',
    unsubscribeUser "room-1" "ghost" blocked_room = (Ret tt, sv')
    /\ room_players "room-1" sv' = Some players'
    /\ (forall i, find_pos (is_user "ghost") (WorldState.players ws) = Some i ->
          players' = delete i (WorldState.players ws))
    /\ (find_pos (is_user "ghost") (WorldState.players ws) = None ->
          (forall init last, WorldState.players ws = init ++ [last] -> players' = init)
          /\ (WorldState.players ws = [] -> players' = [])).
Proof.
  intros ws.
  apply (unsubscribeUser_splices_players blocked_room "room-1" "ghost" ws
           (mkScene MainScene true [npc_above; alice_blocked; bob] [] [] (Some "room-1"))).
  - vm_compute. reflexivity.
  - vm_compute. reflexivity.
Defined.

(** C9 as stated fails once the [players] list is empty, which three
    calls for an unknown user bring about in the room of the NPC, Alice and
    Bob: no entry matches, and the fourth call removes nothing. *)
Lemma unsubscribeUser_empty_room_removes_nothing :
  let sv' := snd (unsubscribeUser "room-1" "ghost" drained_room) in
  room_players "room-1" drained_room = Some []
  /\ fst (unsubscribeUser "room-1" "ghost" drained_room) = Ret tt
  /\ ~ (exists before after,
          room_players "room-1" drained_room = Some before
          /\ room_players "room-1" sv' = Some after
          /\ length before = S (length after)).
Proof.
  split; [vm_compute; reflexivity|]. split; [vm_compute; reflexivity|].
  intros (before & after & Hb & Ha & Hlen).
  vm_compute in Hb, Ha. inversion Hb; inversion Ha; subst. discriminate.
Qed.

(** *** The per-tick snapshot *)

Lemma room_entities_inv key sv ents :
  room_entities key sv = Some ents ->
  exists ws sc, rooms sv !! key = Some ws
    /\ heap (WorldState.gameEngine ws) !! currentScene (director (WorldState.gameEngine ws)) = Some sc
    /\ entities sc = ents.
Proof.
  unfold room_entities. destruct (rooms sv !! key) as [ws|] eqn:E1; [|discriminate]. cbn.
  destruct (heap _ !! _) as [sc|] eqn:E2; [|discriminate]. cbn.
  intros H. inversion H. exists ws, sc. repeat split. exact E2.
Qed.

Lemma in_engine_outbox {A} e (m : M Stage A) sv :
  outbox (snd (in_engine e m sv)) = outbox sv.
Proof.
  unfold in_engine. destruct (rooms sv !! e); [|reflexivity].
  destruct (m _). reflexivity.
Qed.

(** Engine code that leaves the director and the scenes alone does not
    change the entities of any room. *)
Lemma in_engine_room_entities {A} e (m : M Stage A) sv key :
  (forall st, director (snd (m st)) = director st /\ heap (snd (m st)) = heap st) ->
  room_entities key (snd (in_engine e m sv)) = room_entities key sv.
Proof.
  intros Hm. unfold in_engine. destruct (rooms sv !! e) as [ws|] eqn:E; [|reflexivity].
  destruct (m (WorldState.gameEngine ws)) as [r st] eqn:Em. cbn [snd].
  unfold room_entities. cbn [rooms set_rooms].
  destruct (decide (e = key)) as [->|Hne].
  - rewrite lookup_insert_eq, E. cbn.
    destruct (Hm (WorldState.gameEngine ws)) as [Hd Hh]. rewrite Em in Hd, Hh. cbn in Hd, Hh.
    rewrite Hd, Hh. reflexivity.
  - rewrite lookup_insert_ne by exact Hne. reflexivity.
Qed.

Lemma updateEntities_outbox room sv : outbox (snd (updateEntities room sv)) = outbox sv.
Proof.
  unfold updateEntities. destruct (rooms sv !! room_key room); [|reflexivity].
  apply in_engine_outbox.
Qed.

(** The movement pass keeps, entity by entity, what a snapshot reads. *)
Lemma updateEntities_snapshot room sv ents :
  room_entities (room_key room) sv = Some ents ->
  exists ents', room_entities (room_key room) (snd (updateEntities room sv)) = Some ents'
    /\ map snapshot_of ents' = map snapshot_of ents.
Proof.
  intros Hents. destruct (room_entities_inv _ _ _ Hents) as (ws & sc & Hws & Hsc & <-).
  unfold updateEntities. rewrite Hws, (in_engine_run _ _ sv ws Hws).
  rewrite (in_currentScene_run _ _ sc Hsc). cbn [fst snd].
  destruct (updateEntities_loop (WorldState.players ws) (entities sc)) as [r ents'] eqn:El.
  exists ents'. split; [|eapply updateEntities_loop_snapshot; exact El].
  unfold room_entities. cbn [rooms set_rooms snd]. rewrite lookup_insert_eq. cbn.
  rewrite (Heap_lookup_insert_eq _ _ sc) by exact Hsc. reflexivity.
Qed.

Lemma MainScene_onPreUpdate_broadcast room sv sv' ents :
  room_entities (room_key room) sv = Some ents ->
  MainScene_onPreUpdate room sv = (Ret tt, sv') ->
  outbox sv' = outbox sv ++ [(room, mkUpdate (map snapshot_of ents) room)].
Proof.
  intros Hents. unfold MainScene_onPreUpdate. rewrite bind_eq.
  destruct (updateEntities_snapshot room sv ents Hents) as (ents1 & Hents1 & Hsnap).
  pose proof (updateEntities_outbox room sv) as Hout.
  destruct (updateEntities room sv) as [[[]|e] sv1]; [|discriminate]. cbn [snd] in *.
  destruct (room_entities_inv _ _ _ Hents1) as (ws1 & sc1 & Hws1 & Hsc1 & <-).
  rewrite bind_eq, (in_engine_run _ _ sv1 ws1 Hws1), (in_currentScene_run _ _ sc1 Hsc1).
  cbn. intros H. inversion H; subst. cbn. rewrite Hout, Hsnap. reflexivity.
Qed.

Section TickFacts.
Variable World_update : Q -> M Scene unit.

(** C2, as the code has it: the snapshot that one [Scene.update] of an
    initialized [MainScene] broadcasts is built in [onPreUpdate], before
    the world update of that call (timers, entity updates, motion and
    collision): whatever the world update does, the broadcast holds each
    entity's name, uuid and transform position [pos] as they stood in the
    scene of [rooms[this.room]] when the call began, that is, as the
    previous tick left them. *)
Theorem snapshot_precedes_world_update
    (sv sv' : Server) (e : RoomId) (this : SceneRef) (elapsed : Q)
    (ws : WorldState.t) (sc : Scene) (ents : list Actor) :
  rooms sv !! e = Some ws ->
  heap (WorldState.gameEngine ws) !! this = Some sc ->
  ctor sc = MainScene -> _isInitialized sc = true ->
  room_entities (room_key (room sc)) sv = Some ents ->
  Scene_update World_update e this elapsed sv = (Ret tt, sv') ->
  outbox sv' = outbox sv ++ [(room sc, mkUpdate (map snapshot_of ents) (room sc))].
Proof.
  intros Hws Hsc Hctor Hinit Hents. unfold Scene_update.
  rewrite bind_eq, (in_engine_run _ _ sv ws Hws), (deref_some _ _ _ Hsc).
  cbn [fst snd]. rewrite Hinit. cbn [negb]. rewrite bind_eq.
  set (sv0 := set_rooms _ sv).
  assert (Hws0 : rooms sv0 !! e = Some (WorldState.set_gameEngine (WorldState.gameEngine ws) ws)).
  { subst sv0. cbn. apply lookup_insert_eq. }
  rewrite (in_engine_run _ _ sv0 _ Hws0). cbn [fst snd record modify WorldState.gameEngine WorldState.set_gameEngine].
  set (sv1 := set_rooms _ sv0).
  assert (Hout1 : outbox sv1 = outbox sv) by reflexivity.
  assert (Hents1 : room_entities (room_key (room sc)) sv1 = Some ents).
  { rewrite <- Hents. subst sv1 sv0. unfold room_entities. cbn [rooms set_rooms].
    destruct (decide (e = room_key (room sc))) as [<-|Hne].
    - rewrite !lookup_insert_eq, Hws. reflexivity.
    - rewrite !lookup_insert_ne by exact Hne. reflexivity. }
  rewrite bind_eq. unfold Scene_onPreUpdate at 1. rewrite bind_eq.
  assert (Hws1 : exists ws1, rooms sv1 !! e = Some ws1
                   /\ heap (WorldState.gameEngine ws1) !! this = Some sc).
  { subst sv1. cbn. rewrite lookup_insert_eq. eexists. split; [reflexivity|exact Hsc]. }
  destruct Hws1 as (ws1 & Hws1 & Hsc1).
  rewrite (in_engine_run _ _ sv1 ws1 Hws1), (deref_some _ _ _ Hsc1). cbn [fst snd].
  rewrite Hctor.
  set (sv2 := set_rooms _ sv1).
  assert (Hout2 : outbox sv2 = outbox sv) by reflexivity.
  assert (Hents2 : room_entities (room_key (room sc)) sv2 = Some ents).
  { rewrite <- Hents1. subst sv2. unfold room_entities. cbn [rooms set_rooms].
    destruct (decide (e = room_key (room sc))) as [<-|Hne].
    - rewrite lookup_insert_eq, Hws1. destruct ws1; reflexivity.
    - rewrite lookup_insert_ne by exact Hne. reflexivity. }
  destruct (MainScene_onPreUpdate (room sc) sv2) as [[[]|err] sv3] eqn:Epre; [|discriminate].
  pose proof (MainScene_onPreUpdate_broadcast _ _ _ _ Hents2 Epre) as Hout3.
  intros Hrun.
  assert (Htail : outbox sv' = outbox sv3).
  { replace sv' with (snd ((in_engine e (in_scene this (modify (Scene_updateTimers elapsed)));;
                            in_engine e (in_scene this (World_update elapsed));;
                            in_engine e (record (SceneEmit this "postupdate"))) sv3))
      by (rewrite Hrun; reflexivity).
    set (R := fun a b : Server => outbox b = outbox a).
    assert (Rtrans : forall a b c, R a b -> R b c -> R a c) by (unfold R; congruence).
    apply (bind_frame R Rtrans); [apply in_engine_outbox|]. intros _ _.
    apply (bind_frame R Rtrans); [apply in_engine_outbox|]. intros _ _.
    apply in_engine_outbox. }
  rewrite Htail, Hout3, Hout2. reflexivity.
Qed.
End TickFacts.

(** Carol, at (100, 98), holds "down" and runs into the NPC at (100, 124)
    during the tick. *)
Lemma snapshot_precedes_world_update_witness :
  let World_update := World_update_contacts [("uuid-carol", "npc-2", Bottom)] in
  let sv' := snd (Scene_update World_update "room-2" 1 (50 # 3) collision_room) in
  outbox sv' = outbox collision_room
               ++ [(Some "room-2", mkUpdate (map snapshot_of [carol; npc_below]) (Some "room-2"))].
Proof.
  intros World_update sv'.
  apply (snapshot_precedes_world_update World_update collision_room sv' "room-2" 1 (50 # 3)
           (room_state "room-2" [carol; npc_below])
           (mkScene MainScene true [carol; npc_below] [] [] (Some "room-2"))
           [carol; npc_below]).
  - vm_compute. reflexivity.
  - vm_compute. reflexivity.
  - reflexivity.
  - reflexivity.
  - vm_compute. reflexivity.
  - vm_compute. reflexivity.
Defined.

(** C2 as stated fails in that tick: Carol collides, the collision pass
    resolves her to y = 100, and the snapshot broadcast by the same
    [Scene.update] call shows her at y = 98, which is neither her
    post-resolution position nor the position she was moved to. *)
Lemma snapshot_is_not_post_resolution :
  let World_update := World_update_contacts [("uuid-carol", "npc-2", Bottom)] in
  let sv' := snd (Scene_update World_update "room-2" 1 (50 # 3) collision_room) in
  fst (Scene_update World_update "room-2" 1 (50 # 3) collision_room) = Ret tt
  /\ (map (fun a => (uuid a, isColliding (collisionData a), Vector.y (pos a)))
        <$> room_entities "room-2" sv')
     = Some [("uuid-carol", true, 100%Z); ("npc-2", false, 124%Z)]
  /\ ~ (forall room u resolved,
          last (outbox sv') = Some (room, u) ->
          room_entities "room-2" sv' = Some resolved ->
          map PlayerSnapshot.position (snapshot u)
          = map (fun a => Quat.mk (Vector.x (pos a)) (Vector.y (pos a)) 0 0) resolved).
Proof.
  split; [vm_compute; reflexivity|]. split; [vm_compute; reflexivity|].
  intros H. specialize (H _ _ _ eq_refl eq_refl). vm_compute in H. discriminate.
Qed.

(** ** The properties on the server's own configuration *)

Lemma goToScene_constructor_throws_witness :
  let r := Director_goToScene "constructor" None started_stage in
  (exists msg, fst r = Throw (TypeError msg))
  /\ Engine_goToScene "constructor" None started_stage = r
  /\ log (snd r)
     = log started_stage ++ [(Debug, "Going to scene: constructor");
                             (Debug, "Scene.onDeactivate")]
  /\ trace (snd r)
     = trace started_stage
         ++ [DirectorEmit "navigationstart" "root" "constructor";
             OnDeactivate 0 (mkContext 0 1 None) (mkObserved 0 "root");
             SceneEmit 0 "deactivate"]
  /\ observed (snd r) = mkObserved 1 "constructor"
  /\ cells (heap (snd r)) !! 1%nat = Some PlainObject
  /\ heap (snd r) !! 1%nat = None.
Proof.
  intros r.
  refine (goToScene_constructor_throws started_stage None
            (mkScene SceneClass true [] [] [] None) _ _ _ _ _);
    vm_compute; reflexivity.
Defined.

Lemma Scene__initialize_idempotent_witness :
  let s1 := snd (Scene__initialize 0 lobby_stage) in
  count_onInitialize 0 (trace s1) = S (count_onInitialize 0 (trace lobby_stage))
  /\ Scene__initialize 0 s1 = (Ret tt, s1)
  /\ forall n, for_each (replicate n tt) (fun _ => Scene__initialize 0) s1 = (Ret tt, s1).
Proof.
  intros s1.
  apply (Scene__initialize_idempotent 0 lobby_stage s1
           (mkScene (UserScene 7 no_overrides) false [npc_above; alice_free] [] [] None)).
  - vm_compute. reflexivity.
  - reflexivity.
  - vm_compute. reflexivity.
Defined.

Lemma swapScene_deferred_drops_data_witness :
  let data := Some (mkActivationData "room-1") in
  let s1 := set_director (set__deferredGoto (Some "main") (director fresh_stage)) fresh_stage in
  Director_swapScene "main" data fresh_stage = (Ret tt, s1)
  /\ Director_swapScene "main" data fresh_stage = Director_swapScene "main" None fresh_stage
  /\ trace s1 = trace fresh_stage
  /\ (exists target s2,
        target = (if String.eqb "main" "" then "root" else "main")
        /\ _initialized (director s2) = true
        /\ trace s2 = trace fresh_stage
        /\ Director_onInitialize s1 = Director_swapScene target None s2)
  /\ (exists evs, trace (snd (Director_onInitialize s1)) = trace fresh_stage ++ evs
                  /\ Forall (activated_with None) evs)
  /\ (exists mid,
        trace (snd (Director_onInitialize s1))
        = trace fresh_stage ++ mid
            ++ [OnActivate 1 (mkContext 0 1 None) (mkObserved 1 "main");
                SceneEmit 1 "activate"])
  /\ trace (snd (Director_onInitialize s1))
     = [OnInitialize 1 (mkObserved 1 "main"); SceneEmit 1 "initialize";
        OnActivate 1 (mkContext 0 1 None) (mkObserved 1 "main");
        SceneEmit 1 "activate"].
Proof.
  intros data s1.
  destruct (swapScene_deferred_drops_data fresh_stage "main" data eq_refl)
    as (H1 & H2 & H3 & H4 & H5 & H6).
  split; [exact H1|]. split; [exact H2|]. split; [exact H3|].
  split; [exact H4|]. split; [exact H5|]. split; [|vm_compute; reflexivity].
  destruct (H6 (Ctor MainScene) eq_refl eq_refl) as (Y & mid & HY & Htrace).
  exists mid. vm_compute in HY. injection HY as <-. exact Htrace.
Defined.



Lemma swapScene_deactivates_then_switches_witness :
  let s := started_stage in
  let data := Some (mkActivationData "room-1") in
  exists Y evs,
    fst (Director_getSceneInstance "main" s) = Ret (Some Y)
    /\ trace (snd (Director_swapScene "main" data s))
       = trace s ++ OnDeactivate 0 (mkContext 0 Y None) (mkObserved 0 "root") :: evs
    /\ Forall (after_switch Y "main") evs
    /\ (if onDeactivate_throws (overrides SceneClass)
        then evs = [] /\ observed (snd (Director_swapScene "main" data s)) = mkObserved 0 "root"
        else observed (snd (Director_swapScene "main" data s)) = mkObserved Y "main"
             /\ exists evs', evs = SceneEmit 0 "deactivate" :: evs'
                /\ (fst (Director_swapScene "main" data s) = Ret tt ->
                    exists mid, evs' = mid ++ [OnActivate Y (mkContext 0 Y data) (mkObserved Y "main");
                                               SceneEmit Y "activate"])).
Proof.
  intros s data.
  apply (swapScene_deactivates_then_switches s "main" data
           (mkScene SceneClass true [] [] [] None) (Ctor MainScene)).
  - reflexivity.
  - vm_compute. reflexivity.
  - reflexivity.
  - vm_compute. reflexivity.
Defined.

(** C3 as stated fails on the pointers: in the navigation from the root
    scene (address 0) to the main scene (address 1), the main scene's
    [onInitialize] and [onActivate] already see [currentScene] at the main
    scene. *)
Lemma swapScene_switches_before_activation :
  let s := started_stage in
  let s' := snd (Director_swapScene "main" None s) in
  let during := drop (length (trace s)) (trace s') in
  currentScene (director s) = 0%nat
  /\ fst (Director_swapScene "main" None s) = Ret tt
  /\ during = [OnDeactivate 0 (mkContext 0 1 None) (mkObserved 0 "root");
               SceneEmit 0 "deactivate";
               OnInitialize 1 (mkObserved 1 "main");
               SceneEmit 1 "initialize";
               OnActivate 1 (mkContext 0 1 None) (mkObserved 1 "main");
               SceneEmit 1 "activate"]
  /\ ~ Forall (sees_previous 0) during.
Proof.
  intros s s' during.
  assert (Hd : during = [OnDeactivate 0 (mkContext 0 1 None) (mkObserved 0 "root");
               SceneEmit 0 "deactivate";
               OnInitialize 1 (mkObserved 1 "main");
               SceneEmit 1 "initialize";
               OnActivate 1 (mkContext 0 1 None) (mkObserved 1 "main");
               SceneEmit 1 "activate"]) by (vm_compute; reflexivity).
  split; [vm_compute; reflexivity|]. split; [vm_compute; reflexivity|].
  split; [exact Hd|].
  rewrite Hd. intros H.
  inversion H as [|? ? _ H1]; subst. inversion H1 as [|? ? _ H2]; subst.
  inversion H2 as [|? ? Hsee _]; subst. cbn in Hsee. discriminate.
Qed.

(** * Further properties *)

(** ** The main loop outside the lossless case *)

Section MainloopEdges.
Local Open Scope Q_scope.
Context {W : Type} (_update : Q -> M W unit).

(** X1: without a usable [fixedUpdateTimestep] (undefined or 0), every
    [_mainloop] call makes exactly one [_update] call, with the elapsed time
    scaled by the timescale, whatever that time is; the lag is not touched
    and the outcome is that of [_update]. *)
Theorem mainloop_variable_step (fuel : nat) (el : Q) (e : Engine) :
  truthy (fixedUpdateTimestep e) = false ->
  exists e',
    _mainloop _update fuel el e = Some (fst (_update (el * _timescale e) (world e)), e')
    /\ updateCalls e' = updateCalls e ++ [el * _timescale e]
    /\ world e' = snd (_update (el * _timescale e) (world e))
    /\ _lagMs e' = _lagMs e
    /\ currentFrameElapsedMs e' = el * _timescale e.
Proof.
  intros Hfalsy. unfold _mainloop. cbn [fixedUpdateTimestep set_frameElapsed _timescale].
  assert (Hbranch :
    match fixedUpdateTimestep e with
    | Some fixedTimestepMs =>
        if truthy (fixedUpdateTimestep e)
        then catchUp _update fuel fixedTimestepMs
               (set_lag (_lagMs (set_frameElapsed (el * _timescale e) e) + el * _timescale e)
                  (set_frameElapsed (el * _timescale e) e))
        else Some (call_update _update (el * _timescale e) (set_frameElapsed (el * _timescale e) e))
    | None => Some (call_update _update (el * _timescale e) (set_frameElapsed (el * _timescale e) e))
    end = Some (call_update _update (el * _timescale e) (set_frameElapsed (el * _timescale e) e))).
  { rewrite Hfalsy. destruct (fixedUpdateTimestep e); reflexivity. }
  unfold set_frameElapsed in *. cbn [fixedUpdateTimestep _timescale _lagMs] in *.
  rewrite Hbranch. unfold call_update. cbn [world].
  destruct (_update (el * _timescale e) (world e)) as [[[]|err] w']; cbn;
    eexists; repeat split.
Qed.


Hypothesis update_returns : forall el w, exists w', _update el w = (Ret tt, w').



End MainloopEdges.

Lemma mainloop_variable_step_witness :
  let _update : Q -> M nat unit := fun _ => modify S in
  let e := mkEngine None 1 0 0 0 [] 0%nat in
  exists e',
    _mainloop _update 0 (-3) e = Some (fst (_update (-3 * _timescale e)%Q (world e)), e')
    /\ updateCalls e' = updateCalls e ++ [(-3 * _timescale e)%Q]
    /\ world e' = snd (_update (-3 * _timescale e)%Q (world e))
    /\ _lagMs e' = _lagMs e
    /\ currentFrameElapsedMs e' = (-3 * _timescale e)%Q.
Proof.
  intros _update e. apply (mainloop_variable_step _update 0 (-3) e). reflexivity.
Defined.



(** ** The scene registry *)

Lemma obj_get_replace_eq {V} (k : string) (v : V) (o : list (string * V)) :
  obj_get k o <> None -> obj_get k (obj_replace k v o) = Some v.
Proof.
  induction o as [|[k0 v0] o IH]; cbn; [congruence|].
  destruct (String.eqb k k0) eqn:E; cbn.
  - rewrite String.eqb_refl. reflexivity.
  - rewrite E. exact IH.
Qed.

Lemma obj_get_replace_ne {V} (k k' : string) (v : V) (o : list (string * V)) :
  k' <> k -> obj_get k' (obj_replace k v o) = obj_get k' o.
Proof.
  intros Hne. induction o as [|[k0 v0] o IH]; cbn; [reflexivity|].
  destruct (String.eqb_spec k k0) as [->|Hk]; cbn.
  - destruct (String.eqb_spec k' k0); [contradiction|reflexivity].
  - destruct (String.eqb k' k0); [reflexivity|exact IH].
Qed.

Lemma obj_get_insert_eq {V} (k : string) (v : V) (o : list (string * V)) :
  obj_get k o = None -> obj_get k (obj_insert k v o) = Some v.
Proof.
  induction o as [|[k0 v0] o IH]; cbn.
  - rewrite String.eqb_refl. reflexivity.
  - destruct (String.eqb k k0) eqn:E; [discriminate|]. intros H.
    destruct (enumerated_before k k0); cbn.
    + rewrite String.eqb_refl. reflexivity.
    + rewrite E. apply IH. exact H.
Qed.

Lemma obj_get_insert_ne {V} (k k' : string) (v : V) (o : list (string * V)) :
  k' <> k -> obj_get k' (obj_insert k v o) = obj_get k' o.
Proof.
  intros Hne. induction o as [|[k0 v0] o IH]; cbn.
  - destruct (String.eqb_spec k' k); [contradiction|reflexivity].
  - destruct (enumerated_before k k0); cbn.
    + destruct (String.eqb_spec k' k); [contradiction|reflexivity].
    + destruct (String.eqb k' k0); [reflexivity|exact IH].
Qed.

Lemma obj_get_set_eq {V} (k : string) (v : V) (o : list (string * V)) :
  obj_get k (obj_set k v o) = Some v.
Proof.
  unfold obj_set. destruct (obj_get k o) eqn:E.
  - apply obj_get_replace_eq. congruence.
  - apply obj_get_insert_eq. exact E.
Qed.

Lemma obj_get_set_ne {V} (k k' : string) (v : V) (o : list (string * V)) :
  k' <> k -> obj_get k' (obj_set k v o) = obj_get k' o.
Proof.
  intros Hne. unfold obj_set. destruct (obj_get k o).
  - apply obj_get_replace_ne. exact Hne.
  - apply obj_get_insert_ne. exact Hne.
Qed.

Lemma obj_keys_replace {V} (k : string) (v : V) (o : list (string * V)) :
  obj_keys (obj_replace k v o) = obj_keys o.
Proof.
  unfold obj_keys. induction o as [|[k0 v0] o IH]; cbn; [reflexivity|].
  destruct (String.eqb_spec k k0) as [->|Hk]; cbn; [reflexivity|].
  rewrite IH. reflexivity.
Qed.

(** Where a new property lands in the enumeration order. *)
Lemma obj_keys_insert {V} (k : string) (v : V) (o : list (string * V)) :
  exists l1 l2,
    obj_keys o = l1 ++ l2
    /\ obj_keys (obj_insert k v o) = l1 ++ k :: l2
    /\ Forall (fun k' => enumerated_before k k' = false) l1
    /\ match l2 with
       | [] => True
       | k' :: _ => enumerated_before k k' = true
       end.
Proof.
  unfold obj_keys. induction o as [|[k0 v0] o IH]; cbn.
  - exists [], []. repeat split. constructor.
  - destruct (enumerated_before k k0) eqn:E; cbn.
    + exists [], (k0 :: map fst o). repeat split; [constructor|exact E].
    + destruct IH as (l1 & l2 & H1 & H2 & H3 & H4).
      exists (k0 :: l1), l2. cbn. rewrite H1, H2.
      repeat split; [constructor; assumption|exact H4].
Qed.

Lemma obj_keys_insert_last {V} (k : string) (v : V) (o : list (string * V)) :
  array_index k = None -> obj_keys (obj_insert k v o) = obj_keys o ++ [k].
Proof.
  intros Hk. unfold obj_keys. induction o as [|[k0 v0] o IH]; cbn; [reflexivity|].
  unfold enumerated_before. rewrite Hk. cbn. rewrite IH. reflexivity.
Qed.

Lemma obj_get_delete_eq {V} (k : string) (o : list (string * V)) :
  obj_get k (obj_delete k o) = None.
Proof.
  unfold obj_delete. induction o as [|[k0 v0] o IH]; [reflexivity|].
  rewrite filter_cons. cbn [fst]. destruct (decide (k0 <> k)) as [Hk|Hk]; [|exact IH].
  cbn [obj_get]. destruct (String.eqb_spec k k0); [congruence|exact IH].
Qed.

(** X5: [Director.add] returns; afterwards the name resolves to the new
    definition and every other name resolves as before.  A name that was
    already registered keeps its place in the enumeration order; a new name
    is enumerated after the array indices not above it and before every
    other name if it is an array index, and last otherwise.  The overwrite
    warning is logged when the name was registered, and also for a new name
    that the registry object inherits from [Object.prototype], such as
    "constructor" or "toString".  The instance cache, the current-scene
    pointers, the scenes and the trace are not touched.  (The name
    "__proto__", whose assignment would replace the prototype of the
    registry object, is left out.) *)
Theorem Director_add_registers (s : Stage) (name : string) (def : SceneDef) :
  name <> "__proto__" ->
  let s' := snd (Director_add name def s) in
  let known := obj_get name (scenes (director s)) in
  fst (Director_add name def s) = Ret tt
  /\ Director_getSceneDefinition name (director s') = Some (registered_value def)
  /\ (forall k, k <> name ->
        obj_get k (scenes (director s')) = obj_get k (scenes (director s)))
  /\ match known with
     | Some _ => obj_keys (scenes (director s')) = obj_keys (scenes (director s))
     | None =>
         (exists l1 l2,
            obj_keys (scenes (director s)) = l1 ++ l2
            /\ obj_keys (scenes (director s')) = l1 ++ name :: l2
            /\ Forall (fun k => enumerated_before name k = false) l1
            /\ match l2 with
               | [] => True
               | k :: _ => enumerated_before name k = true
               end)
         /\ (array_index name = None ->
             obj_keys (scenes (director s')) = obj_keys (scenes (director s)) ++ [name])
     end
  /\ log s' = log s
       ++ (if bool_decide (is_Some known) || js_includes name Object_prototype
           then [(Warn, ("Scene " ++ name ++ " already exists overwriting")%string)]
           else [])
  /\ _sceneToInstance (director s') = _sceneToInstance (director s)
  /\ observed s' = observed s /\ heap s' = heap s /\ trace s' = trace s.
Proof.
  intros _ s' known. subst s' known. unfold Director_add. rewrite !bind_eq. cbn [gets].
  unfold Director_getSceneDefinition.
  destruct (obj_get name (scenes (director s))) as [old|] eqn:E.
  - cbn -[obj_keys obj_set obj_get js_includes Object_prototype].
    rewrite obj_get_set_eq. unfold obj_set at 2. rewrite E, obj_keys_replace.
    repeat split; try (destruct def; reflexivity).
    intros k Hk. apply obj_get_set_ne. exact Hk.
  - rewrite bool_decide_eq_false_2 by (intros [x Hx]; discriminate). cbn [orb].
    destruct (js_includes name Object_prototype);
      cbn -[obj_keys obj_set obj_get];
      rewrite obj_get_set_eq; unfold obj_set at 2 3; rewrite E, ?app_nil_r;
      (repeat split; try (destruct def; reflexivity);
       [intros k Hk; apply obj_get_set_ne; exact Hk
       |apply obj_keys_insert
       |apply obj_keys_insert_last]).
Qed.

(** X6: once [getSceneInstance] has produced an instance for a name, asking
    again gives the same instance and changes nothing: a scene registered
    by its class is constructed once, and at most one scene object is
    created by a call. *)
Theorem getSceneInstance_is_cached (s s1 : Stage) (name : string) (Y : SceneRef) :
  Director_getSceneInstance name s = (Ret (Some Y), s1) ->
  Director_getSceneInstance name s1 = (Ret (Some Y), s1)
  /\ _sceneToInstance (director s1) !! name = Some Y
  /\ (length (heap s1) <= S (length (heap s)))%nat.
Proof.
  unfold Director_getSceneInstance. rewrite !bind_eq. cbn [gets].
  destruct (Director_getSceneDefinition name (director s)) as [v|] eqn:Ed; [|discriminate].
  destruct (_sceneToInstance (director s) !! name) as [inst|] eqn:Ec.
  - intros H. inversion H; subst. rewrite Ed, Ec.
    split; [reflexivity|]. split; [reflexivity|lia].
  - assert (Hdef : forall c, Director_getSceneDefinition name
                               (set__sceneToInstance c (director s)) = Some v)
      by (intros c; exact Ed).
    destruct v as [r|c]; cbn -[Director_getSceneDefinition]; intros H; inversion H; subst;
      cbn -[Director_getSceneDefinition]; rewrite Hdef, lookup_insert_eq;
      (split; [reflexivity|]; split; [reflexivity|rewrite ?length_app; cbn; lia]).
Qed.

(** X7: registering a name again does not replace an instance that has
    already been produced for it: [add] overwrites the registry entry but
    leaves the instance cache alone, so [getSceneInstance] keeps returning
    the old instance. *)
Theorem add_does_not_replace_instance
    (s s1 : Stage) (name : string) (Y : SceneRef) (def : SceneDef) :
  Director_getSceneInstance name s = (Ret (Some Y), s1) ->
  let s2 := snd (Director_add name def s1) in
  Director_getSceneDefinition name (director s2) = Some (registered_value def)
  /\ Director_getSceneInstance name s2 = (Ret (Some Y), s2).
Proof.
  intros Hget s2.
  assert (Hc : _sceneToInstance (director s1) !! name = Some Y).
  { revert Hget. unfold Director_getSceneInstance. rewrite !bind_eq. cbn [gets].
    destruct (Director_getSceneDefinition name (director s)) as [v|]; [|discriminate].
    destruct (_sceneToInstance (director s) !! name) as [inst|] eqn:Ec.
    - intros H. inversion H; subst. exact Ec.
    - destruct v; cbn; intros H; inversion H; subst; cbn; apply lookup_insert_eq. }
  assert (Hd : Director_getSceneDefinition name (director s2) = Some (registered_value def)).
  { subst s2. unfold Director_add. rewrite !bind_eq. cbn [gets].
    unfold Director_getSceneDefinition.
    destruct (obj_get name (scenes (director s1)));
      [|destruct (js_includes name Object_prototype)];
      cbn -[obj_set obj_get]; rewrite obj_get_set_eq; destruct def; reflexivity. }
  split; [exact Hd|].
  unfold Director_getSceneInstance. rewrite bind_eq. cbn [gets]. rewrite Hd.
  assert (Hc2 : _sceneToInstance (director s2) !! name = Some Y).
  { subst s2. unfold Director_add. rewrite !bind_eq. cbn [gets].
    destruct (obj_get name (scenes (director s1)));
      [|destruct (js_includes name Object_prototype)]; cbn; exact Hc. }
  rewrite Hc2. reflexivity.
Qed.

(** X8: [Director.remove] called with a name other than the current scene's
    returns; the name then has no registry entry and no cached instance,
    while every other name, the current-scene pointers and the scene objects
    are as before.  [getSceneInstance] then treats the name as unknown,
    except for "constructor", which the registry object still inherits: for
    that name it answers a new object that is not a scene. *)
Theorem remove_by_name_unregisters (s : Stage) (name : string) :
  name <> currentSceneName (director s) ->
  let s' := snd (Director_remove (ByName name) s) in
  fst (Director_remove (ByName name) s) = Ret tt
  /\ obj_get name (scenes (director s')) = None
  /\ _sceneToInstance (director s') !! name = None
  /\ (if String.eqb name "constructor"
      then fst (Director_getSceneInstance name s') = Ret (Some (length (heap s)))
           /\ heap (snd (Director_getSceneInstance name s')) !! length (heap s) = None
      else Director_getSceneInstance name s' = (Ret None, s'))
  /\ (forall k, k <> name ->
        obj_get k (scenes (director s')) = obj_get k (scenes (director s))
        /\ _sceneToInstance (director s') !! k = _sceneToInstance (director s) !! k)
  /\ observed s' = observed s /\ heap s' = heap s /\ trace s' = trace s.
Proof.
  intros Hne s'. subst s'. unfold Director_remove. rewrite bind_eq. cbn [gets].
  destruct (String.eqb_spec name (currentSceneName (director s))); [contradiction|].
  unfold unregister, update_director, modify. cbn [fst snd].
  match goal with |- context [obj_get name (scenes (director ?st))] => set (s' := st) end.
  assert (Hown : obj_get name (scenes (director s')) = None)
    by (subst s'; cbn; apply obj_get_delete_eq).
  assert (Hcache : _sceneToInstance (director s') !! name = None)
    by (subst s'; cbn; apply lookup_delete_eq).
  split; [reflexivity|]. split; [exact Hown|]. split; [exact Hcache|]. split.
  { destruct (String.eqb_spec name "constructor") as [->|Hc].
    - rewrite (getSceneInstance_constructor s' Hown Hcache). cbn [fst snd heap set_director set_heap].
      split; [reflexivity|]. apply (Heap_lookup_fresh (heap s) PlainObject).
    - apply getSceneInstance_unknown; assumption. }
  subst s'. cbn. split; [|repeat split].
  intros k Hk. split.
  - apply obj_get_delete_ne. exact Hk.
  - apply lookup_delete_ne. congruence.
Qed.

Lemma js_find_some {A} (p : A -> bool) (l : list A) x :
  js_find p l = Some x -> In x l /\ p x = true.
Proof.
  induction l as [|a l IH]; cbn; [discriminate|].
  destruct (p a) eqn:E.
  - intros H. inversion H; subst. split; [left; reflexivity|exact E].
  - intros H. destruct (IH H). split; [right; assumption|assumption].
Qed.

Lemma js_find_none {A} (p : A -> bool) (l : list A) :
  js_find p l = None -> forall x, In x l -> p x = false.
Proof.
  induction l as [|a l IH]; cbn; [intros _ x []|].
  destruct (p a) eqn:E; [discriminate|].
  intros H x [<-|Hx]; [exact E|apply IH; assumption].
Qed.

(** X9: [Director.getSceneName] changes nothing.  The name it returns is a
    registered one whose entry is this very scene instance or the class of
    the scene; it returns null only when no entry is the instance or its
    class. *)
Theorem getSceneName_finds_registration (s : Stage) (scene : SceneRef) (sc : Scene) :
  heap s !! scene = Some sc ->
  exists result, Director_getSceneName scene s = (Ret result, s)
    /\ match result with
       | Some n =>
           exists def, In (n, def) (scenes (director s))
             /\ (registered_value def = Instance scene
                 \/ registered_value def = Ctor (ctor sc))
       | None =>
           forall n def, In (n, def) (scenes (director s)) ->
             registered_value def <> Instance scene
             /\ registered_value def <> Ctor (ctor sc)
       end.
Proof.
  intros Hsc. unfold Director_getSceneName. rewrite bind_eq, (deref_some _ _ _ Hsc).
  rewrite bind_eq. cbn [gets].
  destruct (js_find _ (scenes (director s))) as [[n def]|] eqn:E1.
  - eexists. split; [reflexivity|]. cbn [fst].
    apply js_find_some in E1 as [Hin Hp]. exists def. split; [exact Hin|]. left.
    cbn in Hp. destruct def as [[r|c]|v]; cbn in *; try discriminate.
    + apply bool_decide_eq_true in Hp. congruence.
    + apply bool_decide_eq_true in Hp. congruence.
  - destruct (js_find _ (scenes (director s))) as [[n def]|] eqn:E2 in |- *.
    + eexists. split; [reflexivity|]. cbn [fst fmap option_fmap option_map].
      apply js_find_some in E2 as [Hin Hp]. exists def. split; [exact Hin|]. right.
      cbn in Hp. destruct def as [[r|c]|v]; cbn in *; try discriminate.
      * apply bool_decide_eq_true in Hp. congruence.
      * apply bool_decide_eq_true in Hp. congruence.
    + eexists. split; [reflexivity|]. cbn.
      intros n def Hin.
      pose proof (js_find_none _ _ E1 _ Hin) as H1.
      pose proof (js_find_none _ _ E2 _ Hin) as H2.
      cbn in H1, H2. destruct def as [[r|c]|v]; cbn in *.
      * apply bool_decide_eq_false in H1. split; congruence.
      * apply bool_decide_eq_false in H2. split; congruence.
      * apply bool_decide_eq_false in H1. apply bool_decide_eq_false in H2.
        split; congruence.
Qed.

(** ** Navigation *)

Lemma getSceneName_state this s : snd (Director_getSceneName this s) = s.
Proof.
  unfold Director_getSceneName, bind, deref, gets, ret.
  destruct (heap s !! this); cbn; [|reflexivity].
  destruct (js_find _ _); reflexivity.
Qed.

Lemma getSceneName_returns this s sc :
  heap s !! this = Some sc ->
  exists n, Director_getSceneName this s = (Ret n, s).
Proof.
  intros H. unfold Director_getSceneName. rewrite bind_eq, (deref_some _ _ _ H).
  rewrite bind_eq. cbn [gets]. destruct (js_find _ _); eexists; reflexivity.
Qed.

Lemma count_onInitialize_skip this ev t :
  is_onInitialize this ev = false ->
  count_onInitialize this (ev :: t) = count_onInitialize this t.
Proof.
  intros H. unfold count_onInitialize. rewrite filter_cons, H.
  destruct (decide (false = true)); [discriminate|reflexivity].
Qed.

(** Resolving a name to an instance touches nothing but the instance cache
    and, for a class, the end of the heap. *)
Lemma getSceneInstance_some name s Y s0 :
  Director_getSceneInstance name s = (Ret (Some Y), s0) ->
  trace s0 = trace s /\ log s0 = log s /\ observed s0 = observed s
  /\ _initialized (director s0) = _initialized (director s)
  /\ scenes (director s0) = scenes (director s)
  /\ (forall r sc, heap s !! r = Some sc -> heap s0 !! r = Some sc).
Proof.
  unfold Director_getSceneInstance. rewrite bind_eq. cbn [gets].
  destruct (Director_getSceneDefinition name (director s)) as [v|]; [|discriminate].
  destruct (_sceneToInstance (director s) !! name) as [inst|].
  - intros H. inversion H; subst. repeat split; auto.
  - destruct v as [r|c]; cbn; intros H; inversion H; subst; cbn; repeat split; auto.
    intros r sc Hr. apply Heap_lookup_push. exact Hr.
Qed.

(** Whatever its outcome, [_activate] runs [onActivate] once and leaves the
    director and the other scenes alone. *)
Lemma Scene__activate_any this ctx s sc :
  heap s !! this = Some sc ->
  exists r s', Scene__activate this ctx s = (r, s')
    /\ trace s' = trace s ++ [OnActivate this ctx (observed s)]
    /\ director s' = director s.
Proof.
  intros H. unfold Scene__activate, try_rethrow. rewrite bind_eq. cbn [logger modify].
  unfold Scene_onActivate. rewrite bind_eq, (deref_some this _ sc) by exact H.
  rewrite bind_eq. cbn [observe gets]. rewrite bind_eq. cbn [record modify].
  match goal with |- context [throw _ ?st] => set (s1 := st) | |- context [ret tt ?st] => set (s1 := st) | _ => idtac end.
  destruct (ctor sc) as [| |tag o|]; cbn [overrides no_overrides onActivate_throws].
  - cbn. eexists _, _. split; [reflexivity|]. split; reflexivity.
  - destruct (data ctx); cbn; eexists _, _; (split; [reflexivity|]); split; reflexivity.
  - destruct (onActivate_throws o); cbn -[Director_getSceneName].
    + eexists _, _. split; [reflexivity|].
      rewrite bind_eq.
      match goal with |- context [Director_getSceneName this ?st] =>
        pose proof (getSceneName_state this st) as Hst;
        destruct (Director_getSceneName this st) as [[n|e] s2]
      end; cbn in Hst; subst s2; cbn; split; reflexivity.
    + eexists _, _. split; [reflexivity|]. split; reflexivity.
  - cbn. eexists _, _. split; [reflexivity|]. split; reflexivity.
Qed.

(** A scene whose [onInitialize] throws: the hook has run, the error is
    logged under the scene's name, and the scene is not marked
    initialized. *)
Lemma Scene__initialize_throws this s sc :
  heap s !! this = Some sc -> _isInitialized sc = false ->
  onInitialize_throws (overrides (ctor sc)) = true ->
  exists n,
    Scene__initialize this s
    = (Throw (JsError "onInitialize"),
       set_log (log s ++ [(ErrorLevel,
                           ("Error during scene initialization for scene "
                            ++ show_name n ++ "!")%string)])
         (set_trace (trace s ++ [OnInitialize this (observed s)]) s)).
Proof.
  intros H Hi Ht. unfold Scene__initialize. rewrite bind_eq, (deref_some _ _ _ H), Hi.
  cbn [negb]. rewrite bind_eq. unfold try_rethrow.
  rewrite bind_eq. unfold Scene_onInitialize. rewrite bind_eq, (deref_some _ _ _ H).
  rewrite bind_eq. cbn [observe gets]. rewrite bind_eq. cbn [record modify]. rewrite Ht.
  cbn [throw]. rewrite bind_eq.
  set (s1 := set_trace _ s).
  assert (H1 : heap s1 !! this = Some sc) by exact H.
  destruct (getSceneName_returns this s1 sc H1) as (n & Hn). rewrite Hn.
  exists n. reflexivity.
Qed.

Lemma swapScene_keeps_initialized dest d s :
  _initialized (director (snd (Director_swapScene dest d s))) = _initialized (director s).
Proof.
  set (R := fun a b : Stage => _initialized (director b) = _initialized (director a)).
  assert (Rtrans : forall a b c, R a b -> R b c -> R a c) by (unfold R; congruence).
  assert (Rq : forall a b, quiet (fun _ => True) a b -> R a b).
  { intros a b (H & _). unfold R. rewrite H. reflexivity. }
  change (R s (snd (Director_swapScene dest d s))).
  unfold Director_swapScene.
  apply (bind_frame R Rtrans); [reflexivity|]. intros dir _. cbn [gets snd].
  destruct (negb (_initialized dir)); [reflexivity|].
  apply (bind_frame R Rtrans).
  { unfold R, Director_getSceneInstance. rewrite bind_eq. cbn [gets].
    destruct (Director_getSceneDefinition dest (director s)) as [[r|c]|];
      destruct (_sceneToInstance (director s) !! dest); reflexivity. }
  intros [nextScene|] _; [|reflexivity].
  apply (bind_frame R Rtrans); [reflexivity|]. intros previousScene _.
  apply (bind_frame R Rtrans); [reflexivity|]. intros _ _.
  apply (bind_frame R Rtrans); [apply Rq, quiet_refl|]. intros cur _.
  apply (bind_frame R Rtrans); [ |intros _ _].
  { destruct cur; [|reflexivity].
    apply (bind_frame R Rtrans); [ |intros _ _].
    - apply Rq, quiet_Scene__deactivate. exact I.
    - apply (bind_frame R Rtrans); [reflexivity|]. intros c _.
      apply Rq, quiet_record. exact I. }
  apply (bind_frame R Rtrans); [reflexivity|]. intros _ _.
  apply (bind_frame R Rtrans); [reflexivity|]. intros _ _.
  apply (bind_frame R Rtrans); [ |intros _ _].
  { apply (bind_frame R Rtrans); [reflexivity|]. intros c _.
    apply Rq, quiet_Scene__initialize; try intros; exact I. }
  apply (bind_frame R Rtrans); [ |intros _ _].
  { apply (bind_frame R Rtrans); [reflexivity|]. intros c _.
    apply Rq, quiet_Scene__activate. exact I. }
  apply (bind_frame R Rtrans); [reflexivity|]. intros c _.
  apply Rq, quiet_record. exact I.
Qed.

Lemma emits_swapScene_scene_level dest d s :
  emits scene_level s (snd (Director_swapScene dest d s)).
Proof.
  set (P := scene_level). unfold Director_swapScene.
  apply (bind_frame (emits P) (emits_trans P)); [apply emits_refl|]. intros dir _. cbn [gets snd].
  destruct (negb (_initialized dir)); [apply emits_same_trace; reflexivity|].
  apply (bind_frame (emits P) (emits_trans P)); [apply emits_getSceneInstance|].
  intros [nextScene|] _; [|apply emits_same_trace; reflexivity].
  apply (bind_frame (emits P) (emits_trans P)); [apply emits_refl|]. intros previousScene _.
  apply (bind_frame (emits P) (emits_trans P)); [apply emits_same_trace; reflexivity|]. intros _ _.
  apply (bind_frame (emits P) (emits_trans P)); [apply emits_refl|]. intros cur _.
  apply (bind_frame (emits P) (emits_trans P)); [ |intros _ _].
  { destruct cur; [|apply emits_refl].
    apply (bind_frame (emits P) (emits_trans P)); [ |intros _ _].
    - apply quiet_emits, quiet_Scene__deactivate. exact I.
    - apply (bind_frame (emits P) (emits_trans P)); [apply emits_refl|]. intros c _.
      apply quiet_emits, quiet_record. exact I. }
  apply (bind_frame (emits P) (emits_trans P)); [apply emits_same_trace; reflexivity|]. intros _ _.
  apply (bind_frame (emits P) (emits_trans P)); [apply emits_same_trace; reflexivity|]. intros _ _.
  apply (bind_frame (emits P) (emits_trans P)); [ |intros _ _].
  { apply (bind_frame (emits P) (emits_trans P)); [apply emits_refl|]. intros c _.
    apply quiet_emits, quiet_Scene__initialize; try intros; exact I. }
  apply (bind_frame (emits P) (emits_trans P)); [ |intros _ _].
  { apply (bind_frame (emits P) (emits_trans P)); [apply emits_refl|]. intros c _.
    apply quiet_emits, quiet_Scene__activate. exact I. }
  apply (bind_frame (emits P) (emits_trans P)); [apply emits_refl|]. intros c _.
  apply quiet_emits, quiet_record. exact I.
Qed.

Lemma swapScene_deferred dest d s :
  _initialized (director s) = false ->
  Director_swapScene dest d s
  = (Ret tt, set_director (set__deferredGoto (Some dest) (director s)) s).
Proof.
  intros H. unfold Director_swapScene. rewrite bind_eq. cbn [gets]. rewrite H. reflexivity.
Qed.

(** X10: [Director.onInitialize] takes effect once.  After a first call,
    whatever it did and however its navigation to the start scene ended
    (also when a hook of that scene threw), the Director is marked
    initialized and every further call returns without changing
    anything. *)
Theorem Director_onInitialize_once (s : Stage) :
  let s1 := snd (Director_onInitialize s) in
  _initialized (director s1) = true
  /\ Director_onInitialize s1 = (Ret tt, s1).
Proof.
  intros s1.
  assert (H : _initialized (director s1) = true).
  { subst s1. unfold Director_onInitialize. rewrite bind_eq. cbn [gets].
    destruct (_initialized (director s)) eqn:E; cbn [negb]; [exact E|].
    rewrite bind_eq. cbn [update_director modify].
    destruct (_deferredGoto (director s)) as [g|].
    - destruct (String.eqb g ""); [rewrite swapScene_keeps_initialized; reflexivity|].
      rewrite bind_eq. cbn [update_director modify].
      rewrite swapScene_keeps_initialized. reflexivity.
    - rewrite swapScene_keeps_initialized. reflexivity. }
  split; [exact H|].
  unfold Director_onInitialize. rewrite bind_eq. cbn [gets]. rewrite H. reflexivity.
Qed.

(** X11: [Director.goToScene] to a registered scene brackets the navigation
    with its events: "navigationstart" comes first, carrying the name of
    the scene that was current and the destination; whatever follows until
    the swap is over is emitted by scenes and their actors; "navigation"
    and "navigationend" close the trace exactly when the call returns, and
    are missing when a hook threw.  On a Director that is not initialized
    yet the swap is only deferred: no scene event occurs and the current
    scene is unchanged, yet all three events are emitted. *)
Theorem goToScene_brackets_navigation
    (s : Stage) (dest : string) (options : option GoToOptions) (v : SceneOrCtor) :
  Director_getSceneDefinition dest (director s) = Some v ->
  let src := currentSceneName (director s) in
  let r := fst (Director_goToScene dest options s) in
  let s' := snd (Director_goToScene dest options s) in
  exists evs,
    Forall scene_level evs
    /\ trace s' = trace s ++ DirectorEmit "navigationstart" src dest :: evs
                  ++ match r with
                     | Ret _ => [DirectorEmit "navigation" src dest;
                                 DirectorEmit "navigationend" src dest]
                     | Throw _ => []
                     end
    /\ (_initialized (director s) = false ->
        evs = [] /\ r = Ret tt /\ observed s' = observed s).
Proof.
  intros Hdef src r s'.
  destruct (getSceneInstance_registered dest s v Hdef)
    as (Y & s0 & Hget & Ht0 & Hl0 & Hobs0 & Hi0 & Hsc0 & Hheap0).
  assert (HN0 : currentSceneName (director s0) = src).
  { unfold observed in Hobs0. injection Hobs0; intros; assumption. }
  subst r s'. unfold Director_goToScene. rewrite bind_eq, Hget.
  rewrite bind_eq. cbn [gets]. rewrite HN0.
  unfold Director__emitEvent. rewrite bind_eq. cbn [record modify].
  set (s1 := set_trace _ s0). rewrite bind_eq.
  set (data := match options with Some o => sceneActivationData o | None => None end).
  pose proof (emits_swapScene_scene_level dest data s1) as (evs & Ht & Hall).
  pose proof (swapScene_deferred dest data s1) as Hdeferred.
  destruct (Director_swapScene dest data s1) as [[[]|err] s2]; cbn [snd] in Ht.
  - exists evs. split; [exact Hall|]. split.
    + cbn. rewrite Ht. subst s1. cbn. rewrite Ht0, <- !app_assoc. reflexivity.
    + intros Hun.
      assert (Hun1 : _initialized (director s1) = false) by (subst s1; cbn; congruence).
      specialize (Hdeferred Hun1).
      inversion Hdeferred; subst s2. cbn in Ht.
      assert (evs = []).
      { apply (app_inv_head (trace s0 ++ [DirectorEmit "navigationstart" src dest])).
        rewrite app_nil_r. symmetry. exact Ht. }
      split; [assumption|]. split; [reflexivity|]. exact Hobs0.
  - exists evs. split; [exact Hall|]. split.
    + cbn. rewrite Ht. subst s1. cbn. rewrite Ht0, app_nil_r, <- !app_assoc. reflexivity.
    + intros Hun.
      assert (Hun1 : _initialized (director s1) = false) by (subst s1; cbn; congruence).
      specialize (Hdeferred Hun1). discriminate.
Qed.

(** X12: navigating to the scene that is already current deactivates it and
    activates it again with the new data; its [onInitialize] does not run
    again.  Both hooks get a context whose previous and next scene are the
    scene itself. *)
Theorem swapScene_to_current_scene_reactivates
    (s s0 : Stage) (name : string) (X : SceneRef) (sc : Scene)
    (data : option ActivationData) :
  _initialized (director s) = true ->
  observed s = mkObserved X name ->
  Director_getSceneInstance name s = (Ret (Some X), s0) ->
  heap s !! X = Some sc -> _isInitialized sc = true ->
  onDeactivate_throws (overrides (ctor sc)) = false ->
  let r := fst (Director_swapScene name data s) in
  let s' := snd (Director_swapScene name data s) in
  trace s' = trace s ++ [OnDeactivate X (mkContext X X None) (observed s);
                         SceneEmit X "deactivate";
                         OnActivate X (mkContext X X data) (observed s)]
                     ++ match r with Ret _ => [SceneEmit X "activate"] | Throw _ => [] end
  /\ observed s' = observed s
  /\ count_onInitialize X (trace s') = count_onInitialize X (trace s).
Proof.
  intros Hinit Hobs Hget Hsc HscInit Hde r s'.
  destruct (getSceneInstance_some _ _ _ _ Hget) as (Ht0 & Hl0 & Hobs0 & Hi0 & Hsc0 & Hheap0).
  rewrite Hobs in Hobs0.
  assert (HX0 : currentScene (director s0) = X).
  { unfold observed in Hobs0. injection Hobs0; intros; assumption. }
  assert (HN0 : currentSceneName (director s0) = name).
  { unfold observed in Hobs0. injection Hobs0; intros; assumption. }
  assert (Hrun : exists r1 s1, Director_swapScene name data s = (r1, s1)
            /\ trace s1 = trace s ++ [OnDeactivate X (mkContext X X None) (observed s);
                                      SceneEmit X "deactivate";
                                      OnActivate X (mkContext X X data) (observed s)]
                          ++ match r1 with Ret _ => [SceneEmit X "activate"] | Throw _ => [] end
            /\ observed s1 = observed s).
  { unfold Director_swapScene. rewrite bind_eq. cbn [gets]. rewrite Hinit. cbn [negb].
    rewrite bind_eq, Hget. rewrite bind_eq. cbn [current gets]. rewrite HX0.
    rewrite bind_eq. cbn [logger modify].
    set (sl := set_log (log s0 ++ [(Debug, ("Going to scene: " ++ name)%string)]) s0).
    assert (Hscl : heap sl !! X = Some sc) by (apply Hheap0; exact Hsc).
    rewrite bind_eq. cbn [gets]. rewrite Hscl, HscInit.
    rewrite bind_eq. rewrite (bind_eq (Scene__deactivate _ _)).
    rewrite (Scene__deactivate_run X _ sl sc Hscl), Hde.
    assert (Hobsl : observed sl = mkObserved X name) by exact Hobs0.
    rewrite Hobsl.
    rewrite bind_eq. cbn [current gets director set_trace set_log].
    change (currentScene (director sl)) with (currentScene (director s0)). rewrite HX0.
    cbn [record modify]. rewrite bind_eq. cbn [update_director modify].
    rewrite bind_eq. cbn [update_director modify].
    match goal with
    | |- context [bind _ _ ?st] => set (sw := st)
    end.
    assert (Hscw : heap sw !! X = Some sc) by exact Hscl.
    assert (Hobsw : observed sw = mkObserved X name) by reflexivity.
    assert (Htw : trace sw = trace s ++ [OnDeactivate X (mkContext X X None) (mkObserved X name);
                                         SceneEmit X "deactivate"]).
    { subst sw sl. cbn. rewrite Ht0, <- app_assoc. reflexivity. }
    rewrite bind_eq. rewrite (bind_eq current). cbn [current gets].
    change (currentScene (director sw)) with X.
    rewrite (Scene__initialize_again X sw sc Hscw HscInit).
    rewrite bind_eq. rewrite (bind_eq current). cbn [current gets].
    change (currentScene (director sw)) with X.
    destruct (Scene__activate_any X (mkContext X X data) sw sc Hscw)
      as (ra & sa & Ha & Hta & Hda).
    rewrite Ha. rewrite Hobsw in Hta. rewrite Hobs.
    destruct ra as [[]|err].
    - rewrite bind_eq. cbn [current gets record modify]. eexists _, _.
      split; [reflexivity|]. split.
      + cbn. rewrite Hta, Htw, Hda. change (currentScene (director sw)) with X.
        rewrite <- !app_assoc. reflexivity.
      + unfold observed. cbn. rewrite Hda. reflexivity.
    - eexists _, _. split; [reflexivity|]. split.
      + rewrite Hta, Htw, <- !app_assoc. reflexivity.
      + unfold observed. rewrite Hda. reflexivity. }
  destruct Hrun as (r1 & s1 & Hsw & Ht1 & Hobs1).
  subst r s'. rewrite Hsw. cbn [fst snd].
  split; [exact Ht1|]. split; [exact Hobs1|].
  rewrite Ht1. rewrite !count_onInitialize_app.
  rewrite !count_onInitialize_skip by reflexivity.
  destruct r1 as [[]|err]; rewrite ?count_onInitialize_skip by reflexivity;
    cbn [count_onInitialize filter length list_filter]; lia.
Qed.

(** X13: when the destination scene's [onInitialize] throws, [swapScene]
    throws the same error after the Director has already switched: the
    previous scene has been deactivated, the current-scene pointers
    designate the destination, the destination is still not initialized and
    is never activated, and the error is logged. *)
Theorem swapScene_failed_initialize_leaves_destination_current
    (s s0 : Stage) (dest : string) (data : option ActivationData)
    (X Y : SceneRef) (scx scy : Scene) :
  _initialized (director s) = true ->
  currentScene (director s) = X ->
  heap s !! X = Some scx -> _isInitialized scx = true ->
  onDeactivate_throws (overrides (ctor scx)) = false ->
  Director_getSceneInstance dest s = (Ret (Some Y), s0) ->
  heap s0 !! Y = Some scy -> _isInitialized scy = false ->
  onInitialize_throws (overrides (ctor scy)) = true ->
  let s' := snd (Director_swapScene dest data s) in
  fst (Director_swapScene dest data s) = Throw (JsError "onInitialize")
  /\ observed s' = mkObserved Y dest
  /\ heap s' = heap s0
  /\ trace s' = trace s ++ [OnDeactivate X (mkContext X Y None) (observed s);
                            SceneEmit X "deactivate";
                            OnInitialize Y (mkObserved Y dest)]
  /\ exists n, log s' = log s ++ [(Debug, ("Going to scene: " ++ dest)%string);
                                  (Debug, "Scene.onDeactivate");
                                  (ErrorLevel,
                                   ("Error during scene initialization for scene "
                                    ++ show_name n ++ "!")%string)].
Proof.
  intros Hinit HX Hscx HscxInit Hde Hget Hscy HscyInit Hthrow s'.
  destruct (getSceneInstance_some _ _ _ _ Hget) as (Ht0 & Hl0 & Hobs0 & Hi0 & Hsc0 & Hheap0).
  assert (HX0 : currentScene (director s0) = X).
  { unfold observed in Hobs0. injection Hobs0; intros; congruence. }
  subst s'. unfold Director_swapScene. rewrite bind_eq. cbn [gets]. rewrite Hinit. cbn [negb].
  rewrite bind_eq, Hget. rewrite bind_eq. cbn [current gets]. rewrite HX0.
  rewrite bind_eq. cbn [logger modify].
  set (sl := set_log (log s0 ++ [(Debug, ("Going to scene: " ++ dest)%string)]) s0).
  assert (Hscl : heap sl !! X = Some scx) by (apply Hheap0; exact Hscx).
  rewrite bind_eq. cbn [gets]. rewrite Hscl, HscxInit.
  rewrite bind_eq. rewrite (bind_eq (Scene__deactivate _ _)).
  rewrite (Scene__deactivate_run X _ sl scx Hscl), Hde.
  rewrite bind_eq. cbn [current gets director set_trace set_log].
  change (currentScene (director sl)) with (currentScene (director s0)). rewrite HX0.
  cbn [record modify]. rewrite bind_eq. cbn [update_director modify].
  rewrite bind_eq. cbn [update_director modify].
  match goal with
  | |- context [bind _ _ ?st] => set (sw := st)
  end.
  assert (Hscw : heap sw !! Y = Some scy) by exact Hscy.
  rewrite bind_eq. rewrite (bind_eq current). cbn [current gets].
  change (currentScene (director sw)) with Y.
  destruct (Scene__initialize_throws Y sw scy Hscw HscyInit Hthrow) as (n & Hn).
  rewrite Hn. cbn [fst snd].
  split; [reflexivity|]. split; [reflexivity|]. split; [reflexivity|]. split.
  - subst sw sl. cbn [trace set_trace set_log set_director].
    change (observed (set_log _ s0)) with (observed s0).
    rewrite Hobs0, Ht0, <- !app_assoc. reflexivity.
  - exists n. subst sw sl. cbn. rewrite Hl0, <- !app_assoc. reflexivity.
Qed.

(** ** Scenes that are not initialized *)

Lemma getSceneName_indep this s s' :
  heap s' = heap s -> director s' = director s ->
  fst (Director_getSceneName this s') = fst (Director_getSceneName this s).
Proof.
  intros Hh Hd. unfold Director_getSceneName. rewrite !bind_eq. unfold deref. rewrite Hh.
  destruct (heap s !! this); [|reflexivity].
  rewrite !bind_eq. cbn [gets]. rewrite Hd.
  destruct (js_find _ _); reflexivity.
Qed.

Lemma in_engine_noop {A} (e : RoomId) (m : M Stage A) (sv : Server) ws r :
  rooms sv !! e = Some ws ->
  m (WorldState.gameEngine ws) = (r, WorldState.gameEngine ws) ->
  in_engine e m sv = (r, sv).
Proof.
  intros H Hm. unfold in_engine. rewrite H, Hm. f_equal.
  destruct sv as [rs out], ws as [p g i rn]. cbn in *. unfold set_rooms. cbn. f_equal.
  apply insert_id. exact H.
Qed.

(** X14: a scene whose [onInitialize] throws is not marked initialized, so
    the next [_initialize] runs the hook again (and fails again): each
    attempt throws, runs [onInitialize] once and logs one error, and the
    "initialize" event is never emitted. *)
Theorem Scene__initialize_failure_is_retried (this : SceneRef) (s : Stage) (sc : Scene) :
  heap s !! this = Some sc -> _isInitialized sc = false ->
  onInitialize_throws (overrides (ctor sc)) = true ->
  let s1 := snd (Scene__initialize this s) in
  let s2 := snd (Scene__initialize this s1) in
  fst (Scene__initialize this s) = Throw (JsError "onInitialize")
  /\ fst (Scene__initialize this s1) = Throw (JsError "onInitialize")
  /\ heap s2 = heap s /\ director s2 = director s
  /\ trace s2 = trace s ++ [OnInitialize this (observed s); OnInitialize this (observed s)]
  /\ count_onInitialize this (trace s2) = (2 + count_onInitialize this (trace s))%nat
  /\ length (log s2) = (2 + length (log s))%nat.
Proof.
  intros H Hi Ht s1 s2.
  destruct (Scene__initialize_throws this s sc H Hi Ht) as (n & Hn).
  assert (H1 : heap s1 !! this = Some sc) by (subst s1; rewrite Hn; exact H).
  destruct (Scene__initialize_throws this s1 sc H1 Hi Ht) as (n1 & Hn1).
  assert (Ht2 : trace s2
                = trace s ++ [OnInitialize this (observed s); OnInitialize this (observed s)]).
  { subst s2. rewrite Hn1. cbn [snd trace set_log set_trace].
    replace (observed s1) with (observed s) by (subst s1; rewrite Hn; reflexivity).
    subst s1. rewrite Hn. cbn [snd trace set_log set_trace]. rewrite <- app_assoc. reflexivity. }
  split; [rewrite Hn; reflexivity|]. split; [rewrite Hn1; reflexivity|].
  split; [subst s2 s1; rewrite Hn1, Hn; reflexivity|].
  split; [subst s2 s1; rewrite Hn1, Hn; reflexivity|].
  split; [exact Ht2|]. split.
  - rewrite Ht2, count_onInitialize_app.
    change [OnInitialize this (observed s); OnInitialize this (observed s)]
      with ([OnInitialize this (observed s)] ++ [OnInitialize this (observed s)]).
    rewrite count_onInitialize_app, !count_onInitialize_one. lia.
  - subst s2. rewrite Hn1. cbn [snd log set_log set_trace]. rewrite length_app.
    subst s1. rewrite Hn. cbn [snd log set_log set_trace]. rewrite length_app. cbn. lia.
Qed.

Section TickEdges.
Variable World_update : Q -> M Scene unit.

(** X15: [Scene.update] on a scene that is not initialized returns at once,
    whatever the world update is: no "preupdate" event, no [onPreUpdate]
    (hence no movement and no broadcast), no timer and no world update; the
    scenes, the director and the trace are unchanged.  The warning is
    logged unless the log already holds it, and every later update of the
    scene changes nothing at all. *)
Theorem Scene_update_before_initialize
    (sv : Server) (e : RoomId) (this : SceneRef) (elapsed : Q)
    (ws : WorldState.t) (sc : Scene) :
  rooms sv !! e = Some ws ->
  heap (WorldState.gameEngine ws) !! this = Some sc ->
  _isInitialized sc = false ->
  let g := WorldState.gameEngine ws in
  let sv1 := snd (Scene_update World_update e this elapsed sv) in
  fst (Scene_update World_update e this elapsed sv) = Ret tt
  /\ outbox sv1 = outbox sv
  /\ (exists ws1 n,
        rooms sv1 !! e = Some ws1
        /\ WorldState.players ws1 = WorldState.players ws
        /\ heap (WorldState.gameEngine ws1) = heap g
        /\ director (WorldState.gameEngine ws1) = director g
        /\ trace (WorldState.gameEngine ws1) = trace g
        /\ fst (Director_getSceneName this g) = Ret n
        /\ let msg := ("Scene update called before initialize for scene "
                       ++ show_name n ++ "!")%string in
           log (WorldState.gameEngine ws1)
           = log g ++ (if bool_decide ((Warn, msg) ∈ log g) then [] else [(Warn, msg)]))
  /\ (forall k, k <> e -> rooms sv1 !! k = rooms sv !! k)
  /\ (forall elapsed', Scene_update World_update e this elapsed' sv1 = (Ret tt, sv1)).
Proof.
  intros Hws Hsc Hinit g sv1.
  destruct (getSceneName_returns this g sc Hsc) as (n & Hn).
  set (msg := ("Scene update called before initialize for scene "
               ++ show_name n ++ "!")%string).
  set (g1 := if bool_decide ((Warn, msg) ∈ log g) then g
             else set_log (log g ++ [(Warn, msg)]) g).
  assert (Hwarn : (let! n := Director_getSceneName this in
                   warnOnce ("Scene update called before initialize for scene "
                             ++ show_name n ++ "!")) g = (Ret tt, g1)).
  { rewrite bind_eq, Hn. unfold warnOnce. rewrite bind_eq. cbn [gets]. fold msg.
    subst g1. destruct (bool_decide ((Warn, msg) ∈ log g)); reflexivity. }
  assert (Hrun : Scene_update World_update e this elapsed sv
                 = (Ret tt, set_rooms (<[e := WorldState.set_gameEngine g1 ws]> (rooms sv)) sv)).
  { unfold Scene_update.
    rewrite bind_eq, (in_engine_noop e (deref this) sv ws (Ret sc) Hws (deref_some _ _ _ Hsc)).
    rewrite Hinit. cbn [negb]. rewrite (in_engine_run _ _ sv ws Hws).
    fold g. rewrite Hwarn. reflexivity. }
  subst sv1. rewrite Hrun. cbn [fst snd].
  set (ws1 := WorldState.set_gameEngine g1 ws).
  set (sv1 := set_rooms (<[e := ws1]> (rooms sv)) sv).
  assert (Hws1 : rooms sv1 !! e = Some ws1) by (subst sv1; cbn; apply lookup_insert_eq).
  assert (Hh1 : heap g1 = heap g) by (subst g1; destruct (bool_decide _); reflexivity).
  assert (Hd1 : director g1 = director g) by (subst g1; destruct (bool_decide _); reflexivity).
  assert (Hl1 : log g1 = log g ++ (if bool_decide ((Warn, msg) ∈ log g) then []
                                   else [(Warn, msg)])).
  { subst g1. destruct (bool_decide _); cbn; [rewrite app_nil_r|]; reflexivity. }
  split; [reflexivity|]. split; [reflexivity|]. split.
  { exists ws1, n. split; [exact Hws1|]. split; [reflexivity|].
    split; [exact Hh1|]. split; [exact Hd1|].
    split; [subst g1; destruct (bool_decide _); reflexivity|].
    split; [rewrite Hn; reflexivity|]. exact Hl1. }
  split.
  { intros k Hk. subst sv1. cbn. apply lookup_insert_ne. congruence. }
  intros elapsed'.
  assert (Hsc1 : heap (WorldState.gameEngine ws1) !! this = Some sc).
  { subst ws1. cbn. rewrite Hh1. exact Hsc. }
  unfold Scene_update.
  rewrite bind_eq, (in_engine_noop e (deref this) sv1 ws1 (Ret sc) Hws1 (deref_some _ _ _ Hsc1)).
  rewrite Hinit. cbn [negb].
  apply (in_engine_noop e _ sv1 ws1 (Ret tt) Hws1).
  change (WorldState.gameEngine ws1) with g1.
  rewrite bind_eq.
  pose proof (getSceneName_indep this g g1 Hh1 Hd1) as Hfst.
  pose proof (getSceneName_state this g1) as Hsnd.
  destruct (Director_getSceneName this g1) as [r1 g1'].
  cbn in Hfst, Hsnd. rewrite Hn in Hfst. cbn in Hfst. subst r1 g1'.
  unfold warnOnce. rewrite bind_eq. cbn [gets]. fold msg.
  rewrite bool_decide_eq_true_2; [reflexivity|].
  rewrite Hl1. destruct (bool_decide ((Warn, msg) ∈ log g)) eqn:E.
  - rewrite app_nil_r. apply bool_decide_eq_true in E. exact E.
  - apply elem_of_app. right. apply list_elem_of_singleton. reflexivity.
Qed.
End TickEdges.

(** ** Timers *)

Lemma timer_occurrences_cons id t l :
  timer_occurrences id (t :: l)
  = ((if decide (timer_id t = id) then 1 else 0) + timer_occurrences id l)%nat.
Proof.
  unfold timer_occurrences. rewrite filter_cons.
  destruct (decide (timer_id t = id)); reflexivity.
Qed.

Lemma timer_occurrences_app id l1 l2 :
  timer_occurrences id (l1 ++ l2)
  = (timer_occurrences id l1 + timer_occurrences id l2)%nat.
Proof. unfold timer_occurrences. rewrite filter_app, length_app. reflexivity. Qed.

(** [removeTimer] takes out the first occurrence of the timer, if any. *)
Lemma removeTimer_occurrences id timer l :
  timer_occurrences id
    (match find_pos (fun t => Nat.eqb (timer_id t) (timer_id timer)) l with
     | Some i => js_splice (Z.of_nat i) 1 l
     | None => l
     end)
  = (timer_occurrences id l - (if decide (timer_id timer = id) then 1 else 0))%nat.
Proof.
  destruct (find_pos _ l) as [i|] eqn:E.
  - rewrite js_splice_at by (eapply find_pos_lt; exact E).
    revert i E. induction l as [|t l IH]; intros i E; [discriminate|].
    cbn [find_pos] in E. destruct (Nat.eqb_spec (timer_id t) (timer_id timer)) as [Ht|Ht].
    + inversion E; subst i. cbn [delete list_delete].
      rewrite timer_occurrences_cons, Ht.
      destruct (decide (timer_id timer = id)); lia.
    + destruct (find_pos _ l) as [j|] eqn:Ej; [|discriminate].
      cbn in E. inversion E; subst i. change (delete (S j) (t :: l)) with (t :: delete j l).
      rewrite !timer_occurrences_cons, (IH j eq_refl).
      destruct (decide (timer_id t = id)), (decide (timer_id timer = id)); try congruence; lia.
  - destruct (decide (timer_id timer = id)) as [Hid|]; [|lia].
    assert (timer_occurrences id l = 0%nat); [|lia].
    induction l as [|t l IH]; [reflexivity|].
    cbn [find_pos] in E. destruct (Nat.eqb_spec (timer_id t) (timer_id timer)) as [Ht|Ht];
      [discriminate|].
    destruct (find_pos _ l); [discriminate|].
    rewrite timer_occurrences_cons, IH by reflexivity.
    destruct (decide (timer_id t = id)); [congruence|reflexivity].
Qed.

Lemma flush_occurrences id queue :
  forall sc,
    timer_occurrences id (_timers (foldl (fun sc t => Scene_removeTimer t sc) sc queue))
    = (timer_occurrences id (_timers sc) - timer_occurrences id queue)%nat
    /\ entities (foldl (fun sc t => Scene_removeTimer t sc) sc queue) = entities sc.
Proof.
  induction queue as [|t queue IH]; intros sc; cbn [foldl].
  - split; [change (timer_occurrences id []) with 0%nat; lia|reflexivity].
  - destruct (IH (Scene_removeTimer t sc)) as [-> ->].
    rewrite timer_occurrences_cons. unfold Scene_removeTimer.
    pose proof (removeTimer_occurrences id t (_timers sc)) as H.
    destruct (find_pos _ (_timers sc)); cbn [_timers set__timers entities];
      (split; [rewrite H; lia|reflexivity]).
Qed.

Lemma updateTimers_occurrences (elapsed : Q) (sc : Scene) (id : nat) :
  timer_occurrences id (_timers (Scene_updateTimers elapsed sc))
  = (timer_occurrences id (_timers sc) - timer_occurrences id (_cancelQueue sc))%nat.
Proof.
  unfold Scene_updateTimers.
  destruct (flush_occurrences id (_cancelQueue sc) sc) as [Hocc _].
  cbn [_cancelQueue _timers entities set__timers set__cancelQueue].
  rewrite <- Hocc. unfold timer_occurrences. clear Hocc.
  induction (_timers (foldl _ sc (_cancelQueue sc))) as [|t l IH]; [reflexivity|].
  cbn [map]. rewrite !filter_cons. cbn [timer_id].
  destruct (decide (timer_id t = id)); cbn [length]; rewrite IH; reflexivity.
Qed.

(** X16: the timer pass of [Scene.update] empties the cancel queue, and
    each queued cancellation takes exactly one occurrence of its timer out
    of the scene's timers: a timer that was added once and cancelled is
    gone after the update, a timer added twice needs two cancellations, and
    cancelling a timer the scene does not hold removes nothing.  The
    entities are not touched. *)
Theorem Scene_update_flushes_cancel_queue (elapsed : Q) (sc : Scene) (id : nat) :
  let sc' := Scene_updateTimers elapsed sc in
  _cancelQueue sc' = []
  /\ timer_occurrences id (_timers sc')
     = (timer_occurrences id (_timers sc) - timer_occurrences id (_cancelQueue sc))%nat
  /\ entities sc' = entities sc.
Proof.
  intros sc'. subst sc'.
  split; [reflexivity|]. split; [apply updateTimers_occurrences|].
  unfold Scene_updateTimers.
  destruct (flush_occurrences id (_cancelQueue sc) sc) as [_ Hent].
  exact Hent.
Qed.

(** X17: [addTimer] followed by [cancelTimer] of the same timer and one
    update leaves, for every timer, as many occurrences in the scene as the
    update alone would have left: the added timer is taken out again and no
    other timer is lost, whatever the scene held and whatever was already
    queued for cancellation. *)
Theorem addTimer_cancelTimer_update (elapsed : Q) (sc : Scene) (timer : Timer) (id : nat) :
  timer_occurrences id
    (_timers (Scene_updateTimers elapsed (Scene_cancelTimer timer (Scene_addTimer timer sc))))
  = timer_occurrences id (_timers (Scene_updateTimers elapsed sc)).
Proof.
  rewrite !updateTimers_occurrences.
  unfold Scene_cancelTimer, Scene_addTimer.
  cbn [_timers _cancelQueue set__timers set__cancelQueue].
  rewrite !timer_occurrences_app, !timer_occurrences_cons.
  change (timer_occurrences id []) with 0%nat.
  destruct (decide (timer_id timer = id)); lia.
Qed.

(** ** Collisions and movement *)

Lemma Actor_ext (a b : Actor) :
  class a = class b -> name a = name b -> uuid a = uuid b -> pos a = pos b ->
  width a = width b -> height a = height b -> collisionType a = collisionType b ->
  position a = position b -> directions a = directions b -> speed a = speed b ->
  collisionData a = collisionData b -> npcs a = npcs b ->
  isInitialized a = isInitialized b -> isActive a = isActive b -> a = b.
Proof. destruct a, b; cbn; intros; subst; reflexivity. Qed.

(** X18: on every side, [onCollisionStart] on an actor whose transform is
    in step with [position] moves the actor so that its box touches the
    other actor's box exactly on that side, along that axis only; the
    transform and [position] stay in step, the size is unchanged, the
    contact is recorded, and running the handler again for the same contact
    changes nothing more. *)
Theorem onCollisionStart_resolves_contact (this otherActor : Actor) (side : Side) :
  in_sync this ->
  let r := ClientActor_onCollisionStart otherActor side this in
  touches side r otherActor
  /\ in_sync r
  /\ collisionData r = mkCollisionData true side (Some (uuid otherActor))
  /\ (side <> Left -> side <> Right -> Quat.x (position r) = Quat.x (position this))
  /\ (side <> Top -> side <> Bottom -> Quat.y (position r) = Quat.y (position this))
  /\ width r = width this /\ height r = height this
  /\ directions r = directions this
  /\ ClientActor_onCollisionStart otherActor side r = r.
Proof.
  intros Hsync r. subst r. unfold in_sync in Hsync.
  destruct this as [cl nm id [px py] w h ct [qx qy qz qw] dirs sp cd ns ini act].
  cbn in Hsync. injection Hsync as -> ->.
  destruct side; cbn; unfold in_sync; cbn;
    (split; [try exact I; try lia|]);
    (split; [try reflexivity; f_equal; lia|]);
    (split; [reflexivity|]);
    (split; [try reflexivity; intros; congruence|]);
    (split; [try reflexivity; intros; congruence|]);
    (split; [reflexivity|]); (split; [reflexivity|]); (split; [reflexivity|]);
    apply Actor_ext; cbn; unfold Quat.set_x, Quat.set_y; cbn; try reflexivity; f_equal; lia.
Qed.

Lemma directions_set_position q a : directions (set_position q a) = directions a.
Proof. reflexivity. Qed.
Lemma class_set_position q a : class (set_position q a) = class a.
Proof. reflexivity. Qed.
Lemma collisionData_set_position q a : collisionData (set_position q a) = collisionData a.
Proof. reflexivity. Qed.
Lemma position_set_position q a : position (set_position q a) = q.
Proof. reflexivity. Qed.

Lemma move_entity_blocks (cl : ActorClass) nm id p w h ct q l sp cd ns ini act :
  let a := mkActor cl nm id p w h ct q l sp cd ns ini act in
  (0 <? length l)%nat = true ->
  move_entity a
  = and_then (direction_block "up" Top (fun q => Quat.set_y (Quat.y q - playerSpeed) q))
     (and_then (direction_block "down" Bottom (fun q => Quat.set_y (Quat.y q + playerSpeed) q))
     (and_then (direction_block "left" Left (fun q => Quat.set_x (Quat.x q - playerSpeed) q))
               (direction_block "right" Right (fun q => Quat.set_x (Quat.x q + playerSpeed) q))))
      a.
Proof. intros a H. unfold move_entity. cbn [directions a]. rewrite H. reflexivity. Qed.

(** X19: the movement of one [ClientActor] in [updateEntities] when it does
    not push into a contact (it is not colliding, or does not hold the
    direction of the contact): the loop goes on to the next player, and
    [position] changes by [playerSpeed] for each held direction, so that
    opposite directions cancel and the order and multiplicity of the
    entries of [directions] do not matter.  The transform [pos], the held
    directions and the collision data are not touched. *)
Theorem move_entity_free (a : Actor) :
  class a = ClientActor ->
  pushes_into_contact a = false ->
  exists a', move_entity a = (Ret Continue, a')
    /\ Quat.x (position a')
       = (Quat.x (position a) + playerSpeed * (held "right" a - held "left" a))%Z
    /\ Quat.y (position a')
       = (Quat.y (position a) + playerSpeed * (held "down" a - held "up" a))%Z
    /\ Quat.z (position a') = Quat.z (position a)
    /\ Quat.w (position a') = Quat.w (position a)
    /\ pos a' = pos a /\ directions a' = directions a
    /\ collisionData a' = collisionData a /\ uuid a' = uuid a /\ name a' = name a.
Proof.
  destruct a as [cl nm id p w h ct [qx qy qz qw] l sp [col dir oth] ns ini act].
  cbn [class]. intros ->. unfold pushes_into_contact, held. cbn [collisionData directions
    isColliding collisionDirection position Quat.x Quat.y Quat.z Quat.w pos uuid name].
  destruct (0 <? length l)%nat eqn:Hlen.
  - rewrite move_entity_blocks by exact Hlen.
    unfold and_then, direction_block, getIsColliding. rewrite !bind_eq.
    cbn [class directions collisionData isColliding collisionDirection position].
    intros Hpush.
    destruct (js_includes "up" l) eqn:Eu, (js_includes "down" l) eqn:Ed,
             (js_includes "left" l) eqn:El, (js_includes "right" l) eqn:Er;
      destruct col, dir; cbn in Hpush; rewrite ?Eu, ?Ed, ?El, ?Er in Hpush;
      try discriminate;
      repeat (rewrite ?bind_eq; cbn beta;
              rewrite ?directions_set_position, ?class_set_position,
                      ?collisionData_set_position, ?position_set_position;
              cbn [andb Side_eqb bind ret fst snd class directions collisionData isColliding
                   collisionDirection position];
              rewrite ?Eu, ?Ed, ?El, ?Er);
      eexists; (split; [reflexivity|]);
      cbn;
      unfold playerSpeed; repeat split; lia.
  - intros _. unfold move_entity. cbn [directions]. rewrite Hlen.
    destruct l as [|d l]; [|discriminate]. cbn.
    eexists. split; [reflexivity|]. cbn. repeat split; lia.
Qed.

(** X20: a [ClientActor] that is colliding and holds the direction of the
    contact makes [updateEntities] return: it is not moved towards the
    contact, directions tested before the blocked one have been applied and
    the later ones are lost.  So nothing moves when the contact is at the
    top, and a contact on the left or right leaves the horizontal position
    short of or at where it was. *)
Theorem move_entity_into_contact (a : Actor) :
  class a = ClientActor ->
  pushes_into_contact a = true ->
  exists a', move_entity a = (Ret Returned, a')
    /\ pos a' = pos a /\ directions a' = directions a
    /\ collisionData a' = collisionData a
    /\ match collisionDirection (collisionData a) with
       | Top => position a' = position a
       | Bottom =>
           Quat.x (position a') = Quat.x (position a)
           /\ Quat.y (position a') = (Quat.y (position a) - playerSpeed * held "up" a)%Z
       | Left =>
           Quat.x (position a') = Quat.x (position a)
           /\ Quat.y (position a')
              = (Quat.y (position a) + playerSpeed * (held "down" a - held "up" a))%Z
       | Right =>
           Quat.x (position a') = (Quat.x (position a) - playerSpeed * held "left" a)%Z
           /\ Quat.y (position a')
              = (Quat.y (position a) + playerSpeed * (held "down" a - held "up" a))%Z
       | SideNone => False
       end.
Proof.
  destruct a as [cl nm id p w h ct [qx qy qz qw] l sp [col dir oth] ns ini act].
  cbn [class]. intros ->. unfold pushes_into_contact, held. cbn [collisionData directions
    isColliding collisionDirection position Quat.x Quat.y Quat.z Quat.w pos uuid name].
  destruct (0 <? length l)%nat eqn:Hlen.
  - rewrite move_entity_blocks by exact Hlen.
    unfold and_then, direction_block, getIsColliding. rewrite !bind_eq.
    cbn [class directions collisionData isColliding collisionDirection position].
    intros Hpush.
    destruct (js_includes "up" l) eqn:Eu, (js_includes "down" l) eqn:Ed,
             (js_includes "left" l) eqn:El, (js_includes "right" l) eqn:Er;
      destruct col, dir; cbn in Hpush; rewrite ?Eu, ?Ed, ?El, ?Er in Hpush;
      try discriminate;
      repeat (rewrite ?bind_eq; cbn beta;
              rewrite ?directions_set_position, ?class_set_position,
                      ?collisionData_set_position, ?position_set_position;
              cbn [andb Side_eqb bind ret fst snd class directions collisionData isColliding
                   collisionDirection position];
              rewrite ?Eu, ?Ed, ?El, ?Er);
      eexists; (split; [reflexivity|]);
      cbn;
      unfold playerSpeed; repeat split; lia.
  - destruct l as [|d l]; [|discriminate].
    destruct col, dir; cbn; discriminate.
Qed.

(** ** Messages and the held directions *)

Lemma js_find_pos {A} (p : A -> bool) (l : list A) (a : A) :
  js_find p l = Some a ->
  exists i, find_pos p l = Some i /\ l !! i = Some a
    /\ forall g, p (g a) = true -> js_find p (alter g i l) = Some (g a).
Proof.
  induction l as [|x l IH]; cbn [js_find find_pos]; [discriminate|].
  destruct (p x) eqn:E.
  - intros H. inversion H; subst. exists 0%nat. repeat split.
    intros g Hg. cbn. rewrite Hg. reflexivity.
  - intros H. destruct (IH H) as (i & Hi & Hl & Hg). exists (S i).
    rewrite Hi. repeat split; [exact Hl|].
    intros g Hpg. cbn. rewrite E. apply Hg. exact Hpg.
Qed.

Lemma js_find_none_pos {A} (p : A -> bool) (l : list A) :
  js_find p l = None -> find_pos p l = None.
Proof.
  induction l as [|x l IH]; cbn; [reflexivity|].
  destruct (p x); [discriminate|]. intros H. rewrite (IH H). reflexivity.
Qed.



(** What [onMessage] does to the entities of the room's current scene. *)
Lemma onMessage_entities roomId userId (msg : Message) sv ents :
  room_entities roomId sv = Some ents ->
  let ents' :=
    match find_pos (fun entity => String.eqb (name entity) userId) ents with
    | Some i => alter (fun a => set_directions (apply_message msg (directions a)) a) i ents
    | None => ents
    end in
  fst (onMessage roomId userId msg sv) = Ret tt
  /\ room_entities roomId (snd (onMessage roomId userId msg sv)) = Some ents'
  /\ outbox (snd (onMessage roomId userId msg sv)) = outbox sv
  /\ room_players roomId (snd (onMessage roomId userId msg sv)) = room_players roomId sv.
Proof.
  intros Hents ents'. destruct (room_entities_inv _ _ _ Hents) as (ws & sc & Hws & Hsc & <-).
  unfold onMessage. rewrite (in_engine_run _ _ sv ws Hws), (in_currentScene_run _ _ sc Hsc).
  cbn [fst snd]. split; [destruct (find_pos _ (entities sc)); reflexivity|]. split; [|split].
  - unfold room_entities. cbn [rooms set_rooms]. rewrite lookup_insert_eq. cbn.
    rewrite (Heap_lookup_insert_eq _ _ sc) by exact Hsc. cbn.
    f_equal. subst ents'. destruct (find_pos _ (entities sc)) as [i|]; [|reflexivity].
    cbn [snd].
    unfold apply_message, NetworkedActor.push, NetworkedActor.splice_out.
    destruct (String.eqb (type msg) "keypress").
    + apply list_alter_ext; [|reflexivity]. intros a _.
      destruct (js_includes _ _); cbn [negb]; [destruct a|]; reflexivity.
    + destruct (String.eqb (type msg) "keyrelease").
      * apply list_alter_ext; [|reflexivity]. intros a _.
        destruct (find_pos _ _); [|destruct a]; reflexivity.
      * symmetry. apply list_alter_id. intros a. destruct a; reflexivity.
  - reflexivity.
  - unfold room_players. cbn [rooms set_rooms]. rewrite lookup_insert_eq, Hws. reflexivity.
Qed.

Lemma onMessage_player roomId userId (msg : Message) sv a :
  player_of roomId userId sv = Some a ->
  fst (onMessage roomId userId msg sv) = Ret tt
  /\ player_of roomId userId (snd (onMessage roomId userId msg sv))
     = Some (set_directions (apply_message msg (directions a)) a).
Proof.
  unfold player_of. destruct (room_entities roomId sv) as [ents|] eqn:Hents; [|discriminate].
  cbn -[onMessage]. intros Hfind.
  destruct (onMessage_entities roomId userId msg sv ents Hents) as (Hret & Hents' & _).
  split; [exact Hret|]. rewrite Hents'. cbn.
  destruct (js_find_pos _ _ _ Hfind) as (i & Hi & Hl & Hg). rewrite Hi.
  apply (Hg (fun a => set_directions (apply_message msg (directions a)) a)).
  apply js_find_some in Hfind as [_ Hp]. exact Hp.
Qed.

Lemma map_alter_same {A B} (f : A -> B) (g : A -> A) (i : nat) (l : list A) :
  (forall a, f (g a) = f a) -> map f (alter g i l) = map f l.
Proof.
  intros Hf. revert i. induction l as [|x l IH]; intros [|i]; cbn; try reflexivity.
  - rewrite Hf. reflexivity.
  - rewrite IH. reflexivity.
Qed.




(** X22: as long as only arrow keys are pressed and released, the server's
    list of held directions for the player stays equal to the client's:
    starting from equal lists, after any sequence of arrow-key events, each
    handled by the client and its message applied by [onMessage], the
    lists are equal again, [onMessage] has always returned, and the player
    has not been moved by the messages. *)
Theorem client_server_directions_agree
    (roomId userId : string) (evs : list KeyEvent) :
  Forall is_arrow evs ->
  forall (c : NetworkedActor.t) (sv : Server) (a : Actor),
    player_of roomId userId sv = Some a ->
    directions a = NetworkedActor.directions c ->
    exists c' sv' a',
      play roomId userId evs c sv = (Ret c', sv')
      /\ player_of roomId userId sv' = Some a'
      /\ directions a' = NetworkedActor.directions c'
      /\ position a' = position a /\ pos a' = pos a.
Proof.
  induction 1 as [|ev evs Harrow _ IH]; intros c sv a Hp Hd.
  - exists c, sv, a. cbn. auto.
  - cbn [play]. rewrite bind_eq.
    destruct (onMessage_player roomId userId (snd (handle ev c)) sv a Hp) as [Hret Hp1].
    destruct (onMessage roomId userId (snd (handle ev c)) sv) as [r sv1].
    cbn [fst snd] in Hret, Hp1. subst r.
    assert (Hd1 : apply_message (snd (handle ev c)) (directions a)
                  = NetworkedActor.directions (fst (handle ev c))).
    { rewrite Hd. unfold is_arrow in Harrow.
      destruct ev as [key|key]; cbn [handle];
        unfold NetworkedActor.on_press, NetworkedActor.on_release, apply_message;
        cbn in Harrow; destruct Harrow as [ -> | [ -> | [ -> | -> ]]]; reflexivity. }
    destruct (IH (fst (handle ev c)) sv1 _ Hp1) as (c' & sv' & a' & Hplay & Hp' & Hd' & Hpos & Hps).
    { destruct a. cbn. cbn in Hd1. exact Hd1. }
    exists c', sv', a'. split; [exact Hplay|]. split; [exact Hp'|]. split; [exact Hd'|].
    destruct a. cbn in *. auto.
Qed.

(** X23: a key that is not an arrow key makes the client send the
    direction of the last arrow key handled ([tempdir]), although the
    client's own list of held directions does not change.  So if the lists
    agreed and that direction was not held, the server afterwards holds a
    direction the client does not hold, and the lists differ. *)
Theorem other_key_desynchronizes
    (roomId userId key : string) (c : NetworkedActor.t) (sv : Server) (a : Actor) :
  ~ is_arrow (KeyPress key) ->
  player_of roomId userId sv = Some a ->
  directions a = NetworkedActor.directions c ->
  js_includes (NetworkedActor.tempdir c) (NetworkedActor.directions c) = false ->
  exists c' sv' a',
    play roomId userId [KeyPress key] c sv = (Ret c', sv')
    /\ NetworkedActor.directions c' = NetworkedActor.directions c
    /\ player_of roomId userId sv' = Some a'
    /\ directions a' = NetworkedActor.directions c' ++ [NetworkedActor.tempdir c]
    /\ directions a' <> NetworkedActor.directions c'.
Proof.
  intros Hkey Hp Hd Hheld.
  assert (Hh : handle (KeyPress key) c = (c, mkMessage "keypress" (NetworkedActor.tempdir c))).
  { cbn [handle]. unfold NetworkedActor.on_press. unfold is_arrow in Hkey.
    destruct (String.eqb_spec key "ArrowUp"); [tauto|].
    destruct (String.eqb_spec key "ArrowDown"); [tauto|].
    destruct (String.eqb_spec key "ArrowLeft"); [tauto|].
    destruct (String.eqb_spec key "ArrowRight"); [tauto|]. reflexivity. }
  cbn [play]. rewrite bind_eq, Hh. cbn [fst snd].
  destruct (onMessage_player roomId userId (mkMessage "keypress" (NetworkedActor.tempdir c))
              sv a Hp) as [Hret Hp1].
  destruct (onMessage roomId userId _ sv) as [r sv1]. cbn [fst snd] in Hret, Hp1. subst r.
  eexists c, sv1, _. split; [reflexivity|]. split; [reflexivity|]. split; [exact Hp1|].
  assert (Hdirs : directions (set_directions
                    (apply_message (mkMessage "keypress" (NetworkedActor.tempdir c))
                       (directions a)) a)
                  = NetworkedActor.directions c ++ [NetworkedActor.tempdir c]).
  { destruct a. cbn in *. subst. unfold apply_message, NetworkedActor.push. cbn.
    rewrite Hheld. reflexivity. }
  split; [exact Hdirs|]. rewrite Hdirs. intros Heq.
  apply (f_equal length) in Heq. rewrite length_app in Heq. cbn in Heq. lia.
Qed.

Section RoomlessTick.
Variable World_update : Q -> M Scene unit.

(** X24: an initialized [MainScene] whose [room] was never set (it was
    activated without data) cannot be updated: [Scene.update] emits
    "preupdate", then [onPreUpdate] looks up [rooms[undefined]] and throws
    a TypeError.  Nothing is broadcast, no entity is moved, and neither the
    timers nor the world update run, whatever the world update is. *)
Theorem MainScene_update_without_room
    (sv : Server) (e : RoomId) (this : SceneRef) (elapsed : Q)
    (ws : WorldState.t) (sc : Scene) :
  rooms sv !! e = Some ws ->
  heap (WorldState.gameEngine ws) !! this = Some sc ->
  ctor sc = MainScene -> _isInitialized sc = true ->
  room sc = None -> rooms sv !! "undefined" = None ->
  exists sv' ws',
    Scene_update World_update e this elapsed sv
    = (Throw (TypeError "Cannot read properties of undefined (reading 'players')"), sv')
    /\ outbox sv' = outbox sv
    /\ rooms sv' !! e = Some ws'
    /\ heap (WorldState.gameEngine ws') = heap (WorldState.gameEngine ws)
    /\ director (WorldState.gameEngine ws') = director (WorldState.gameEngine ws)
    /\ trace (WorldState.gameEngine ws')
       = trace (WorldState.gameEngine ws) ++ [SceneEmit this "preupdate"].
Proof.
  intros Hws Hsc Hctor Hinit Hroom Hundef.
  assert (He : e <> "undefined").
  { intros Heq. subst e. assert (X : Some ws = None); [|discriminate].
    rewrite <- Hws. exact Hundef. }
  unfold Scene_update.
  rewrite bind_eq, (in_engine_noop e (deref this) sv ws (Ret sc) Hws (deref_some _ _ _ Hsc)).
  rewrite Hinit. cbn [negb]. rewrite bind_eq, (in_engine_run _ _ sv ws Hws).
  cbn [fst snd record modify].
  set (ws1 := WorldState.set_gameEngine _ ws).
  set (sv1 := set_rooms (<[e := ws1]> (rooms sv)) sv).
  assert (Hws1 : rooms sv1 !! e = Some ws1) by (subst sv1; cbn; apply lookup_insert_eq).
  assert (Hsc1 : heap (WorldState.gameEngine ws1) !! this = Some sc) by exact Hsc.
  rewrite bind_eq. unfold Scene_onPreUpdate. rewrite bind_eq.
  rewrite (in_engine_noop e (deref this) sv1 ws1 (Ret sc) Hws1 (deref_some _ _ _ Hsc1)).
  rewrite Hctor, Hroom. unfold MainScene_onPreUpdate. rewrite bind_eq.
  unfold updateEntities.
  assert (Hu1 : rooms sv1 !! room_key None = None).
  { subst sv1. cbn [rooms set_rooms]. rewrite lookup_insert_ne by exact He. exact Hundef. }
  rewrite Hu1.
  exists sv1, ws1. split; [reflexivity|]. split; [reflexivity|]. split; [exact Hws1|].
  repeat split.
Qed.
End RoomlessTick.

(** ** The Hathora client *)

Lemma Hathora_after_invariant (op : Hathora.Op) (c : Hathora.ExcaliburHathoraClient) :
  Hathora._connectionStatus c <> Hathora.Connected ->
  Hathora._connectionStatus (Hathora.after op c) <> Hathora.Connected.
Proof.
  intros H. destruct c as [u r pub priv info k room st].
  cbn [Hathora._connectionStatus] in H.
  destruct op; cbn [Hathora.after].
  - destruct response as [[t]|e], user as [id|e']; cbn; try exact H;
      destruct (String.eqb t ""); cbn; (exact H || discriminate).
  - destruct response as [[t]|e], user as [id|e']; cbn; try exact H;
      destruct (String.eqb t ""); cbn; (exact H || discriminate).
  - destruct response as [[t]|e], user as [id|e']; cbn; try exact H;
      destruct (String.eqb t ""); cbn; (exact H || discriminate).
  - cbn. discriminate.
  - destruct st, r as [r|], lobbyResult as [l|e], lobbyConfig as [[| |]]; cbn;
      (exact H || discriminate).
  - destruct st, r as [r|], lobbies as [l|e]; cbn; (exact H || discriminate).
  - destruct st, r as [r|]; cbn; (exact H || discriminate).
  - destruct st, r as [r|], info0 as [l|e]; cbn; (exact H || discriminate).
  - destruct st, r as [r|], room0 as [rid [| |]], exposedPort as [[[]|]|e],
      connect as [[]|e']; cbn; (exact H || discriminate).
  - cbn. exact H.
  - destruct st; cbn; try exact H. contradiction.
  - unfold Hathora.send, Hathora.write. cbn. destruct k; [destruct (negb _)|]; cbn; exact H.
  - unfold Hathora.sendString, Hathora.write. cbn.
    destruct k; [destruct (negb _)|]; cbn; exact H.
  - unfold Hathora.sendJson, Hathora.write. cbn.
    destruct k; [destruct (negb _)|]; cbn; exact H.
Qed.

(** X25: no method of the client ever sets the connection status to
    [Connected] (logging in gives [loggedIn], logging out [loggedOut], and
    joining a lobby leaves the status alone).  So whatever has been called
    before, with whatever answers from the services, also after a
    successful [joinLobby], [leaveLobby] throws "User not connected to
    room" and changes nothing: it never disconnects the connection and
    never clears the room. *)
Theorem leaveLobby_always_throws (ops : list Hathora.Op) :
  let c := Hathora.history ops in
  Hathora._connectionStatus c <> Hathora.Connected
  /\ Hathora.leaveLobby c = (Throw (JsError "User not connected to room"), c).
Proof.
  intros c.
  assert (H : Hathora._connectionStatus c <> Hathora.Connected).
  { subst c. unfold Hathora.history.
    assert (G : forall c0, Hathora._connectionStatus c0 <> Hathora.Connected ->
                Hathora._connectionStatus (foldl (fun c op => Hathora.after op c) c0 ops)
                <> Hathora.Connected).
    { induction ops as [|op ops IH]; intros c0 H0; cbn [foldl]; [exact H0|].
      apply IH. apply Hathora_after_invariant. exact H0. }
    apply G. cbn. discriminate. }
  split; [exact H|]. unfold Hathora.leaveLobby.
  destruct (Hathora._connectionStatus c); try reflexivity. contradiction.
Qed.

(** X26: [joinLobby] stores the room and the new connection before it
    awaits [connect].  When [connect] fails, [joinLobby] throws but the
    client keeps both, so a later [send] is handed to a connection that
    never connected (if the room id is not empty). *)
Theorem joinLobby_failed_connect_keeps_connection
    (c : Hathora.ExcaliburHathoraClient) (r : Hathora.PlayerTokenObject)
    (room : Hathora.LobbyV3) (exposedPort : outcome (option unit)) (e : Error)
    (data : string) :
  Hathora._connectionStatus c = Hathora.loggedIn ->
  Hathora._loginResponse c = Some r ->
  (Hathora.visibility room = Hathora.Local \/ exposedPort = Ret (Some tt)) ->
  let c1 := snd (Hathora.joinLobby room exposedPort (Throw e) c) in
  let k := Hathora.mkHathoraConnection (Hathora.roomId room) [] false in
  fst (Hathora.joinLobby room exposedPort (Throw e) c) = Throw e
  /\ Hathora._roomId c1 = Some (Hathora.roomId room)
  /\ Hathora._connection c1 = Some k
  /\ (Hathora.roomId room <> "" ->
      Hathora._connection (snd (Hathora.sendJson data c1))
      = Some (Hathora.mkHathoraConnection (Hathora.roomId room) [(Hathora.Json, data)] false)).
Proof.
  intros Hst Hr Hport c1 k. subst c1 k.
  destruct c as [u r0 pub priv info k0 rm st]. cbn in Hst, Hr. subst st r0.
  destruct room as [rid vis]. cbn [Hathora.visibility Hathora.roomId] in *.
  assert (Hjoin : Hathora.joinLobby (Hathora.mkLobbyV3 rid vis) exposedPort (Throw e)
                    (Hathora.mkClient u (Some r) pub priv info k0 rm Hathora.loggedIn)
                  = (Throw e,
                     Hathora.mkClient u (Some r) pub priv info
                       (Some (Hathora.mkHathoraConnection rid [] false)) (Some rid)
                       Hathora.loggedIn)).
  { destruct Hport as [->| ->]; [reflexivity|]. destruct vis; reflexivity. }
  rewrite Hjoin. cbn [fst snd Hathora._roomId Hathora._connection].
  split; [reflexivity|]. split; [reflexivity|]. split; [reflexivity|].
  intros Hne. unfold Hathora.sendJson, Hathora.write.
  cbn [Hathora._connection Hathora._roomId Hathora.nonempty].
  destruct (String.eqb_spec rid ""); [contradiction|]. reflexivity.
Qed.

(** X27: [logout] does not touch the connection.  After it every lobby
    method throws "No user logged in" and changes nothing, while [send]
    still hands its data to the connection of the room, if there is
    one. *)
Theorem logout_keeps_connection
    (c : Hathora.ExcaliburHathoraClient) (k : Hathora.HathoraConnection) (data : string) :
  Hathora._connection c = Some k ->
  Hathora.nonempty (Hathora._roomId c) = true ->
  let c1 := snd (Hathora.logout c) in
  let denied := JsError "No user logged in" in
  Hathora._connectionStatus c1 = Hathora.loggedOut
  /\ (forall cfg l, Hathora.createLobby cfg l c1 = (Throw denied, c1))
  /\ (forall l, Hathora.fetchPublicLobbies l c1 = (Throw denied, c1))
  /\ Hathora.fetchPrivateLocalLobbies c1 = (Throw denied, c1)
  /\ (forall rid i, Hathora.getLobbyInfo rid i c1 = (Throw denied, c1))
  /\ (forall room p j, Hathora.joinLobby room p j c1 = (Throw denied, c1))
  /\ Hathora._connection (snd (Hathora.send data c1))
     = Some (Hathora.mkHathoraConnection (Hathora.connection_room k)
               (Hathora.written k ++ [(Hathora.Raw, data)]) (Hathora.disconnected k)).
Proof.
  intros Hk Hroom c1 denied. subst c1 denied.
  destruct c as [u r pub priv info k0 rm st]. cbn in Hk, Hroom. subst k0.
  cbn. repeat split. unfold Hathora.send, Hathora.write. cbn. rewrite Hroom. reflexivity.
Qed.

(** ** What navigation leaves alone *)

Lemma same_population_refl s : same_population s s.
Proof. intros r sc H. exists sc. auto. Qed.

Lemma same_population_trans a b c :
  same_population a b -> same_population b c -> same_population a c.
Proof.
  intros Hab Hbc r sc H.
  destruct (Hab r sc H) as (sc1 & H1 & Hc1 & He1 & Ht1 & Hq1).
  destruct (Hbc r sc1 H1) as (sc2 & H2 & Hc2 & He2 & Ht2 & Hq2).
  exists sc2. repeat split; congruence.
Qed.

Lemma same_population_heap s s' : heap s' = heap s -> same_population s s'.
Proof. intros Hh r sc H. exists sc. rewrite Hh. auto. Qed.

Lemma same_population_update_scene r f s :
  (forall sc, ctor (f sc) = ctor sc
              /\ map placement (entities (f sc)) = map placement (entities sc)
              /\ _timers (f sc) = _timers sc /\ _cancelQueue (f sc) = _cancelQueue sc) ->
  same_population s (snd (update_scene r f s)).
Proof.
  intros Hf r' sc H. cbn. destruct (decide (r = r')) as [->|Hne].
  - exists (f sc). split; [|apply Hf].
    rewrite Heap_lookup_alter, H. reflexivity.
  - exists sc. rewrite Heap_lookup_alter_ne by exact Hne. auto.
Qed.

Lemma same_population_deref r s : same_population s (snd (deref r s)).
Proof. unfold deref. destruct (heap s !! r); apply same_population_refl. Qed.

Lemma same_population_getSceneName this s :
  same_population s (snd (Director_getSceneName this s)).
Proof. rewrite getSceneName_state. apply same_population_refl. Qed.

Lemma same_population_Entity__initialize scene i s :
  same_population s (snd (Entity__initialize scene i s)).
Proof.
  unfold Entity__initialize. rewrite bind_eq. unfold deref at 1.
  destruct (heap s !! scene) as [sc|]; [|apply same_population_refl].
  destruct (entities sc !! i) as [child|]; [|apply same_population_refl].
  destruct (isInitialized child); [apply same_population_refl|].
  apply bind_frame; [apply same_population_trans|apply same_population_heap; reflexivity|].
  intros _ _.
  apply bind_frame; [apply same_population_trans|apply same_population_refl|]. intros cur _.
  apply bind_frame; [apply same_population_trans|apply same_population_deref|].
  intros curScene _.
  apply same_population_update_scene. intros sc0. repeat split.
  cbn [entities set_entities]. apply map_alter_same. intros a.
  destruct (class a); reflexivity.
Qed.

Lemma same_population_Scene__initialize this s :
  same_population s (snd (Scene__initialize this s)).
Proof.
  unfold Scene__initialize.
  apply bind_frame; [apply same_population_trans|apply same_population_deref|]. intros sc _.
  destruct (negb (_isInitialized sc)); [|apply same_population_refl].
  apply bind_frame; [apply same_population_trans| |intros _ _].
  - apply try_rethrow_frame; [apply same_population_trans| |].
    + apply bind_frame; [apply same_population_trans| |intros _ _].
      * unfold Scene_onInitialize. rewrite bind_eq. unfold deref.
        destruct (heap (snd _) !! this); [|apply same_population_refl].
        cbn. destruct (onInitialize_throws _); apply same_population_heap; reflexivity.
      * apply bind_frame; [apply same_population_trans| |intros _ _].
        -- unfold Scene__initializeChildren.
           apply bind_frame; [apply same_population_trans|apply same_population_deref|].
           intros sc1 _.
           apply for_each_frame;
             [apply same_population_refl|apply same_population_trans|].
           intros i s'. apply same_population_Entity__initialize.
        -- apply bind_frame; [apply same_population_trans| |intros _ _];
             apply same_population_heap; reflexivity.
    + intros s1.
      apply bind_frame; [apply same_population_trans|apply same_population_getSceneName|].
      intros n _. apply same_population_heap. reflexivity.
  - apply same_population_update_scene. intros sc0. repeat split.
Qed.

Lemma same_population_Scene__activate this ctx s :
  same_population s (snd (Scene__activate this ctx s)).
Proof.
  unfold Scene__activate.
  apply try_rethrow_frame; [apply same_population_trans| |].
  - apply bind_frame; [apply same_population_trans|apply same_population_heap; reflexivity|].
    intros _ _. unfold Scene_onActivate. rewrite bind_eq. unfold deref.
    destruct (heap (snd _) !! this) as [sc|]; [|apply same_population_refl].
    rewrite bind_eq. cbn [observe gets]. rewrite bind_eq. cbn [record modify].
    match goal with |- context [set_trace ?t ?st] => set (s1 := set_trace t st) end.
    apply (same_population_trans _ s1); [apply same_population_heap; reflexivity|].
    destruct (ctor sc); try destruct (data ctx); try destruct (onActivate_throws _);
      try (apply same_population_heap; reflexivity).
    apply same_population_update_scene. intros sc0. repeat split.
  - intros s1.
    apply bind_frame; [apply same_population_trans|apply same_population_getSceneName|].
    intros n _. apply same_population_heap. reflexivity.
Qed.

Lemma same_population_Scene__deactivate this ctx s :
  same_population s (snd (Scene__deactivate this ctx s)).
Proof.
  unfold Scene__deactivate.
  apply bind_frame; [apply same_population_trans|apply same_population_heap; reflexivity|].
  intros _ _. unfold Scene_onDeactivate. rewrite bind_eq. unfold deref.
  destruct (heap (snd _) !! this) as [sc|]; [|apply same_population_refl].
  cbn. destruct (onDeactivate_throws _); apply same_population_heap; reflexivity.
Qed.

Lemma same_population_getSceneInstance dest s :
  same_population s (snd (Director_getSceneInstance dest s)).
Proof.
  unfold Director_getSceneInstance. rewrite bind_eq. cbn [gets].
  destruct (Director_getSceneDefinition dest (director s)) as [[r|c]|];
    destruct (_sceneToInstance (director s) !! dest);
    try (apply same_population_heap; reflexivity).
  intros r sc H. exists sc. cbn. split; [apply Heap_lookup_push; exact H|auto].
Qed.

Lemma same_population_swapScene dest d s :
  same_population s (snd (Director_swapScene dest d s)).
Proof.
  set (R := same_population). unfold Director_swapScene.
  apply (bind_frame R same_population_trans); [apply same_population_refl|].
  intros dir _. cbn [gets snd].
  destruct (negb (_initialized dir)); [apply same_population_heap; reflexivity|].
  apply (bind_frame R same_population_trans); [apply same_population_getSceneInstance|].
  intros [nextScene|] _; [|apply same_population_heap; reflexivity].
  apply (bind_frame R same_population_trans); [apply same_population_refl|].
  intros previousScene _.
  apply (bind_frame R same_population_trans); [apply same_population_heap; reflexivity|].
  intros _ _.
  apply (bind_frame R same_population_trans); [apply same_population_refl|]. intros cur _.
  apply (bind_frame R same_population_trans); [ |intros _ _].
  { destruct cur; [|apply same_population_refl].
    apply (bind_frame R same_population_trans); [ |intros _ _].
    - apply same_population_Scene__deactivate.
    - apply (bind_frame R same_population_trans); [apply same_population_refl|]. intros c _.
      apply same_population_heap. reflexivity. }
  apply (bind_frame R same_population_trans); [apply same_population_heap; reflexivity|].
  intros _ _.
  apply (bind_frame R same_population_trans); [apply same_population_heap; reflexivity|].
  intros _ _.
  apply (bind_frame R same_population_trans); [ |intros _ _].
  { apply (bind_frame R same_population_trans); [apply same_population_refl|]. intros c _.
    apply same_population_Scene__initialize. }
  apply (bind_frame R same_population_trans); [ |intros _ _].
  { apply (bind_frame R same_population_trans); [apply same_population_refl|]. intros c _.
    apply same_population_Scene__activate. }
  apply (bind_frame R same_population_trans); [apply same_population_refl|]. intros c _.
  apply same_population_heap. reflexivity.
Qed.

(** X28: navigation never adds, removes or moves an entity.  Whatever the
    state, the destination and the options, and whether the hooks return or
    throw, after [Director.goToScene] every scene object that existed is
    still there, of the same class, with the same entities (uuid, name,
    [position] and transform) in the same order and the same timers and
    cancel queue; only the scenes' and entities' initialization flags, the
    [npcs] lists and [MainScene.room] may differ. *)
Theorem goToScene_keeps_population
    (s : Stage) (dest : string) (options : option GoToOptions) :
  same_population s (snd (Director_goToScene dest options s)).
Proof.
  unfold Director_goToScene.
  apply (bind_frame same_population same_population_trans);
    [apply same_population_getSceneInstance|].
  intros [Y|] _; [|apply same_population_heap; reflexivity].
  apply (bind_frame same_population same_population_trans); [apply same_population_refl|].
  intros src _.
  apply (bind_frame same_population same_population_trans);
    [apply same_population_heap; reflexivity|]. intros _ _.
  apply (bind_frame same_population same_population_trans);
    [apply same_population_swapScene|]. intros _ _.
  apply (bind_frame same_population same_population_trans);
    [apply same_population_heap; reflexivity|]. intros _ _.
  apply same_population_heap. reflexivity.
Qed.

(** ** Construction and start of the Director *)

Lemma swapScene_keeps_deferred dest d s :
  _initialized (director s) = true ->
  _deferredGoto (director (snd (Director_swapScene dest d s))) = _deferredGoto (director s).
Proof.
  intros Hinit.
  set (R := fun a b : Stage => _deferredGoto (director b) = _deferredGoto (director a)).
  assert (Rtrans : forall a b c, R a b -> R b c -> R a c) by (unfold R; congruence).
  assert (Rq : forall a b, quiet (fun _ => True) a b -> R a b).
  { intros a b (H & _). unfold R. rewrite H. reflexivity. }
  change (R s (snd (Director_swapScene dest d s))).
  unfold Director_swapScene. rewrite bind_eq. cbn [gets]. rewrite Hinit. cbn [negb].
  apply (bind_frame R Rtrans).
  { unfold R, Director_getSceneInstance. rewrite bind_eq. cbn [gets].
    destruct (Director_getSceneDefinition dest (director s)) as [[r|c]|];
      destruct (_sceneToInstance (director s) !! dest); reflexivity. }
  intros [nextScene|] _; [|reflexivity].
  apply (bind_frame R Rtrans); [reflexivity|]. intros previousScene _.
  apply (bind_frame R Rtrans); [reflexivity|]. intros _ _.
  apply (bind_frame R Rtrans); [apply Rq, quiet_refl|]. intros cur _.
  apply (bind_frame R Rtrans); [ |intros _ _].
  { destruct cur; [|reflexivity].
    apply (bind_frame R Rtrans); [ |intros _ _].
    - apply Rq, quiet_Scene__deactivate. exact I.
    - apply (bind_frame R Rtrans); [reflexivity|]. intros c _.
      apply Rq, quiet_record. exact I. }
  apply (bind_frame R Rtrans); [reflexivity|]. intros _ _.
  apply (bind_frame R Rtrans); [reflexivity|]. intros _ _.
  apply (bind_frame R Rtrans); [ |intros _ _].
  { apply (bind_frame R Rtrans); [reflexivity|]. intros c _.
    apply Rq, quiet_Scene__initialize; try intros; exact I. }
  apply (bind_frame R Rtrans); [ |intros _ _].
  { apply (bind_frame R Rtrans); [reflexivity|]. intros c _.
    apply Rq, quiet_Scene__activate. exact I. }
  apply (bind_frame R Rtrans); [reflexivity|]. intros c _.
  apply Rq, quiet_record. exact I.
Qed.

(** X29: once the Director has been initialized by [onInitialize], no
    scene is deferred any more, whatever had been deferred before and
    however the first navigation ended.  So [Engine.add(entity)] then
    always goes to the current scene: that scene emits "entityadded" and
    receives the entity, and nothing else changes. *)
Theorem Engine_add_after_start (s : Stage) (entity : Actor) (sc : Scene) :
  _initialized (director s) = false ->
  let s1 := snd (Director_onInitialize s) in
  let c := currentScene (director s1) in
  heap s1 !! c = Some sc ->
  Director_getDeferredScene (director s1) = None
  /\ Engine_add entity s1
     = (Ret tt,
        set_heap (alter (Scene_add entity) c (heap s1))
          (set_trace (trace s1 ++ [SceneEmit c "entityadded"]) s1)).
Proof.
  intros Hinit s1 c Hsc.
  assert (Hdef : Director_getDeferredScene (director s1) = None).
  { unfold Director_getDeferredScene.
    assert (Hd : _deferredGoto (director s1) = None \/ _deferredGoto (director s1) = Some "").
    { subst s1. unfold Director_onInitialize. rewrite bind_eq. cbn [gets].
      rewrite Hinit. cbn [negb]. rewrite bind_eq. cbn [update_director modify].
      destruct (_deferredGoto (director s)) as [g|] eqn:Eg.
      - destruct (String.eqb_spec g "") as [->|Hg].
        + right. rewrite swapScene_keeps_deferred by reflexivity. cbn. exact Eg.
        + left. rewrite bind_eq. cbn [update_director modify].
          rewrite swapScene_keeps_deferred by reflexivity. reflexivity.
      - left. rewrite swapScene_keeps_deferred by reflexivity. cbn. exact Eg. }
    destruct Hd as [-> | ->]; [reflexivity|].
    destruct (Director_getSceneDefinition _ _); reflexivity. }
  split; [exact Hdef|].
  unfold Engine_add. rewrite bind_eq. cbn [gets]. rewrite Hdef.
  rewrite bind_eq. cbn [current gets]. fold c.
  unfold Scene_add_entity. rewrite bind_eq. rewrite (deref_some c _ sc) by exact Hsc.
  rewrite bind_eq. cbn [record modify]. reflexivity.
Qed.






(** ** The further properties on concrete configurations *)

Lemma getSceneInstance_is_cached_witness :
  let s1 := snd (Director_getSceneInstance "main" started_stage) in
  Director_getSceneInstance "main" s1 = (Ret (Some 1%nat), s1)
  /\ _sceneToInstance (director s1) !! "main" = Some 1%nat
  /\ (length (heap s1) <= S (length (heap started_stage)))%nat.
Proof.
  intros s1. apply (getSceneInstance_is_cached started_stage s1 "main" 1).
  vm_compute. reflexivity.
Defined.

Lemma add_does_not_replace_instance_witness :
  let s1 := snd (Director_getSceneInstance "main" started_stage) in
  let s2 := snd (Director_add "main" (Plain (Ctor SceneClass)) s1) in
  Director_getSceneDefinition "main" (director s2) = Some (Ctor SceneClass)
  /\ Director_getSceneInstance "main" s2 = (Ret (Some 1%nat), s2).
Proof.
  intros s1.
  apply (add_does_not_replace_instance started_stage s1 "main" 1 (Plain (Ctor SceneClass))).
  vm_compute. reflexivity.
Defined.

Lemma Director_add_registers_witness :
  let def := Plain (Ctor MainScene) in
  let s1 := snd (Director_add "toString" def started_stage) in
  let s2 := snd (Director_add "1" def started_stage) in
  "toString" <> "__proto__"
  /\ fst (Director_add "toString" def started_stage) = Ret tt
  /\ Director_getSceneDefinition "toString" (director s1) = Some (Ctor MainScene)
  /\ obj_keys (scenes (director s1)) = ["root"; "main"; "toString"]
  /\ log s1 = log started_stage ++ [(Warn, "Scene toString already exists overwriting")]
  /\ obj_keys (scenes (director s2)) = ["1"; "root"; "main"]
  /\ log s2 = log started_stage.
Proof.
  intros def s1 s2.
  assert (H : "toString" <> "__proto__") by discriminate.
  assert (H' : "1" <> "__proto__") by discriminate.
  destruct (Director_add_registers started_stage "toString" def H)
    as (H1 & H2 & _ & H4 & H5 & _).
  destruct (Director_add_registers started_stage "1" def H')
    as (_ & _ & _ & H4' & H5' & _).
  split; [exact H|]. split; [exact H1|]. split; [exact H2|].
  split; [exact (proj2 H4 eq_refl)|]. split; [exact H5|].
  split; [|exact (eq_trans H5' (app_nil_r _))].
  destruct H4' as [(l1 & l2 & Hold & Hnew & Hl1 & _) _].
  destruct l1 as [|k l1].
  - cbn in Hold. subst l2. exact Hnew.
  - inversion Hold; subst k. inversion Hl1; subst. discriminate.
Defined.

Lemma remove_by_name_unregisters_witness :
  let s1 := snd (Director_remove (ByName "main") started_stage) in
  let s2 := snd (Director_remove (ByName "constructor") started_stage) in
  "main" <> currentSceneName (director started_stage)
  /\ fst (Director_remove (ByName "main") started_stage) = Ret tt
  /\ obj_get "main" (scenes (director s1)) = None
  /\ _sceneToInstance (director s1) !! "main" = None
  /\ Director_getSceneInstance "main" s1 = (Ret None, s1)
  /\ fst (Director_getSceneInstance "constructor" s2) = Ret (Some 1%nat)
  /\ heap (snd (Director_getSceneInstance "constructor" s2)) !! 1%nat = None.
Proof.
  intros s1 s2.
  assert (H : "main" <> currentSceneName (director started_stage))
    by (vm_compute; discriminate).
  assert (H' : "constructor" <> currentSceneName (director started_stage))
    by (vm_compute; discriminate).
  destruct (remove_by_name_unregisters started_stage "main" H) as (H1 & H2 & H3 & H4 & _).
  destruct (remove_by_name_unregisters started_stage "constructor" H')
    as (_ & _ & _ & H4' & _).
  split; [exact H|]. split; [exact H1|]. split; [exact H2|]. split; [exact H3|].
  split; [exact H4|exact H4'].
Defined.

Lemma getSceneName_finds_registration_witness :
  exists result,
    Director_getSceneName 0 started_stage = (Ret result, started_stage)
    /\ match result with
       | Some n =>
           exists def, In (n, def) (scenes (director started_stage))
             /\ (registered_value def = Instance 0
                 \/ registered_value def = Ctor SceneClass)
       | None =>
           forall n def, In (n, def) (scenes (director started_stage)) ->
             registered_value def <> Instance 0
             /\ registered_value def <> Ctor SceneClass
       end.
Proof.
  apply (getSceneName_finds_registration started_stage 0
           (mkScene SceneClass true [] [] [] None)).
  vm_compute. reflexivity.
Defined.

Lemma goToScene_brackets_navigation_witness :
  let r := fst (Director_goToScene "main" None started_stage) in
  let s' := snd (Director_goToScene "main" None started_stage) in
  exists evs,
    Forall scene_level evs
    /\ trace s' = trace started_stage ++ DirectorEmit "navigationstart" "root" "main" :: evs
                  ++ match r with
                     | Ret _ => [DirectorEmit "navigation" "root" "main";
                                 DirectorEmit "navigationend" "root" "main"]
                     | Throw _ => []
                     end
    /\ (_initialized (director started_stage) = false ->
        evs = [] /\ r = Ret tt /\ observed s' = observed started_stage).
Proof.
  apply (goToScene_brackets_navigation started_stage "main" None (Ctor MainScene)).
  vm_compute. reflexivity.
Defined.

Lemma swapScene_to_current_scene_reactivates_witness :
  let s := room_stage "room-1" in
  let data := Some (mkActivationData "room-2") in
  let r := fst (Director_swapScene "main" data s) in
  let s' := snd (Director_swapScene "main" data s) in
  trace s' = trace s ++ [OnDeactivate 1 (mkContext 1 1 None) (observed s);
                         SceneEmit 1 "deactivate";
                         OnActivate 1 (mkContext 1 1 data) (observed s)]
                     ++ match r with Ret _ => [SceneEmit 1 "activate"] | Throw _ => [] end
  /\ observed s' = observed s
  /\ count_onInitialize 1 (trace s') = count_onInitialize 1 (trace s).
Proof.
  intros s data.
  apply (swapScene_to_current_scene_reactivates s
           (snd (Director_getSceneInstance "main" s)) "main" 1
           (mkScene MainScene true [] [] [] (Some "room-1")) data);
    vm_compute; reflexivity.
Defined.

Lemma swapScene_failed_initialize_leaves_destination_current_witness :
  let s := faulty_stage in
  let s' := snd (Director_swapScene "bad" None s) in
  fst (Director_swapScene "bad" None s) = Throw (JsError "onInitialize")
  /\ observed s' = mkObserved 1 "bad"
  /\ heap s' = heap (snd (Director_getSceneInstance "bad" s))
  /\ trace s' = trace s ++ [OnDeactivate 0 (mkContext 0 1 None) (observed s);
                            SceneEmit 0 "deactivate";
                            OnInitialize 1 (mkObserved 1 "bad")]
  /\ exists n, log s' = log s ++ [(Debug, "Going to scene: bad");
                                  (Debug, "Scene.onDeactivate");
                                  (ErrorLevel,
                                   ("Error during scene initialization for scene "
                                    ++ show_name n ++ "!")%string)].
Proof.
  intros s.
  apply (swapScene_failed_initialize_leaves_destination_current s
           (snd (Director_getSceneInstance "bad" s)) "bad" None 0 1
           (mkScene SceneClass true [] [] [] None) (Scene_new faulty_scene));
    vm_compute; reflexivity.
Defined.

Lemma Scene__initialize_failure_is_retried_witness :
  let s := snd (Director_getSceneInstance "bad" faulty_stage) in
  let s1 := snd (Scene__initialize 1 s) in
  let s2 := snd (Scene__initialize 1 s1) in
  fst (Scene__initialize 1 s) = Throw (JsError "onInitialize")
  /\ fst (Scene__initialize 1 s1) = Throw (JsError "onInitialize")
  /\ heap s2 = heap s /\ director s2 = director s
  /\ trace s2 = trace s ++ [OnInitialize 1 (observed s); OnInitialize 1 (observed s)]
  /\ count_onInitialize 1 (trace s2) = (2 + count_onInitialize 1 (trace s))%nat
  /\ length (log s2) = (2 + length (log s))%nat.
Proof.
  intros s.
  apply (Scene__initialize_failure_is_retried 1 s (Scene_new faulty_scene));
    vm_compute; reflexivity.
Defined.

Lemma Scene_update_before_initialize_witness :
  let sv := mkServer {[ "room-1" := WorldState.mk [] fresh_stage "room-1" 0 ]} [] in
  let World_update := fun (_ : Q) => @ret Scene unit tt in
  let sv1 := snd (Scene_update World_update "room-1" 0 16 sv) in
  fst (Scene_update World_update "room-1" 0 16 sv) = Ret tt
  /\ outbox sv1 = outbox sv
  /\ (forall elapsed', Scene_update World_update "room-1" 0 elapsed' sv1 = (Ret tt, sv1)).
Proof.
  intros sv World_update sv1.
  destruct (Scene_update_before_initialize World_update sv "room-1" 0 16
              (WorldState.mk [] fresh_stage "room-1" 0) (Scene_new SceneClass))
    as (H1 & H2 & _ & _ & H3); try (vm_compute; reflexivity).
  split; [exact H1|]. split; [exact H2|exact H3].
Defined.

Lemma onCollisionStart_resolves_contact_witness :
  let r := ClientActor_onCollisionStart npc_below Bottom carol in
  in_sync carol /\ touches Bottom r npc_below /\ in_sync r
  /\ ClientActor_onCollisionStart npc_below Bottom r = r.
Proof.
  intros r.
  assert (H : in_sync carol) by reflexivity.
  destruct (onCollisionStart_resolves_contact carol npc_below Bottom H)
    as (H1 & H2 & _ & _ & _ & _ & _ & _ & H3).
  split; [exact H|]. split; [exact H1|]. split; [exact H2|exact H3].
Defined.

Lemma move_entity_free_witness :
  exists a', move_entity alice_free = (Ret Continue, a')
    /\ Quat.x (position a') = 96%Z /\ Quat.y (position a') = 96%Z
    /\ pos a' = pos alice_free.
Proof.
  destruct (move_entity_free alice_free) as (a' & H1 & H2 & H3 & _ & _ & H4 & _);
    try (vm_compute; reflexivity).
  exists a'. split; [exact H1|]. split; [exact H2|]. split; [exact H3|exact H4].
Defined.

Lemma move_entity_into_contact_witness :
  exists a', move_entity alice_blocked = (Ret Returned, a')
    /\ position a' = position alice_blocked.
Proof.
  destruct (move_entity_into_contact alice_blocked) as (a' & H1 & _ & _ & _ & H2);
    try (vm_compute; reflexivity).
  exists a'. split; [exact H1|exact H2].
Defined.


Lemma client_server_directions_agree_witness :
  let evs := [KeyPress "ArrowDown"; KeyRelease "ArrowUp"; KeyPress "ArrowUp"] in
  let c := NetworkedActor.mk ["up"; "left"] "left" in
  exists c' sv' a',
    play "room-1" "alice" evs c free_room = (Ret c', sv')
    /\ player_of "room-1" "alice" sv' = Some a'
    /\ directions a' = NetworkedActor.directions c'
    /\ position a' = position alice_free /\ pos a' = pos alice_free.
Proof.
  intros evs c.
  apply (client_server_directions_agree "room-1" "alice" evs).
  - subst evs. constructor; [right; left; reflexivity|].
    constructor; [left; reflexivity|]. constructor; [left; reflexivity|]. constructor.
  - vm_compute. reflexivity.
  - reflexivity.
Defined.

Lemma other_key_desynchronizes_witness :
  let c := NetworkedActor.mk ["up"; "left"] "right" in
  exists c' sv' a',
    play "room-1" "alice" [KeyPress "Space"] c free_room = (Ret c', sv')
    /\ NetworkedActor.directions c' = ["up"; "left"]
    /\ player_of "room-1" "alice" sv' = Some a'
    /\ directions a' = NetworkedActor.directions c' ++ ["right"]
    /\ directions a' <> NetworkedActor.directions c'.
Proof.
  intros c.
  apply (other_key_desynchronizes "room-1" "alice" "Space" c free_room alice_free).
  - cbn. intros [H|[H|[H|H]]]; discriminate.
  - vm_compute. reflexivity.
  - reflexivity.
  - reflexivity.
Defined.

Lemma MainScene_update_without_room_witness :
  let World_update := fun (_ : Q) => @ret Scene unit tt in
  exists sv' ws',
    Scene_update World_update "room-1" 1 16 roomless_server
    = (Throw (TypeError "Cannot read properties of undefined (reading 'players')"), sv')
    /\ outbox sv' = outbox roomless_server
    /\ rooms sv' !! "room-1" = Some ws'
    /\ heap (WorldState.gameEngine ws') = heap roomless_stage
    /\ director (WorldState.gameEngine ws') = director roomless_stage
    /\ trace (WorldState.gameEngine ws') = trace roomless_stage ++ [SceneEmit 1 "preupdate"].
Proof.
  intros World_update.
  apply (MainScene_update_without_room World_update roomless_server "room-1" 1 16
           (WorldState.mk [] roomless_stage "room-1" 0)
           (mkScene MainScene true [] [] [] None));
    vm_compute; reflexivity.
Defined.

Lemma joinLobby_failed_connect_keeps_connection_witness :
  let c := Hathora.history
             [Hathora.LoginAnonymous (Ret (Hathora.mkPlayerTokenObject "token"))
                                     (Ret "user-1")] in
  let room := Hathora.mkLobbyV3 "room-1" Hathora.Local in
  let e := JsError "connection refused" in
  let c1 := snd (Hathora.joinLobby room (Ret None) (Throw e) c) in
  fst (Hathora.joinLobby room (Ret None) (Throw e) c) = Throw e
  /\ Hathora._roomId c1 = Some "room-1"
  /\ Hathora._connection c1 = Some (Hathora.mkHathoraConnection "room-1" [] false)
  /\ Hathora._connection (snd (Hathora.sendJson "hello" c1))
     = Some (Hathora.mkHathoraConnection "room-1" [(Hathora.Json, "hello")] false).
Proof.
  intros c room e c1.
  destruct (joinLobby_failed_connect_keeps_connection c
              (Hathora.mkPlayerTokenObject "token") room (Ret None) e "hello")
    as (H1 & H2 & H3 & H4); try reflexivity.
  - left. reflexivity.
  - split; [exact H1|]. split; [exact H2|]. split; [exact H3|].
    apply H4. discriminate.
Defined.

Lemma logout_keeps_connection_witness :
  let c := Hathora.history
             [Hathora.LoginAnonymous (Ret (Hathora.mkPlayerTokenObject "token"))
                                     (Ret "user-1");
              Hathora.JoinLobby (Hathora.mkLobbyV3 "room-1" Hathora.Local)
                                (Ret None) (Ret tt)] in
  let c1 := snd (Hathora.logout c) in
  Hathora._connectionStatus c1 = Hathora.loggedOut
  /\ Hathora.fetchPrivateLocalLobbies c1 = (Throw (JsError "No user logged in"), c1)
  /\ Hathora._connection (snd (Hathora.send "hello" c1))
     = Some (Hathora.mkHathoraConnection "room-1" [(Hathora.Raw, "hello")] false).
Proof.
  intros c c1.
  destruct (logout_keeps_connection c (Hathora.mkHathoraConnection "room-1" [] false) "hello")
    as (H1 & _ & _ & H2 & _ & _ & H3); try reflexivity.
  split; [exact H1|]. split; [exact H2|exact H3].
Defined.

Lemma Engine_add_after_start_witness :
  let s1 := snd (Director_onInitialize fresh_stage) in
  Director_getDeferredScene (director s1) = None
  /\ Engine_add bob s1
     = (Ret tt,
        set_heap (alter (Scene_add bob) 0%nat (heap s1))
          (set_trace (trace s1 ++ [SceneEmit 0 "entityadded"]) s1)).
Proof.
  intros s1.
  apply (Engine_add_after_start fresh_stage bob (mkScene SceneClass true [] [] [] None));
    vm_compute; reflexivity.
Defined.

